(** * A shallow embedding of the [sexpr] crate: S-expression decoder,
      encoder key path, value model and error taxonomy. *)

From Stdlib Require Import ZArith List Bool Lia.
From Stdlib Require Import Strings.Byte Strings.String.
From Stdlib Require Import Floats.SpecFloat.
Import ListNotations.
Open Scope Z_scope.
Set Warnings "-register-all".

(** ** Bytes *)

Definition bytes := list byte.

(** [b"..."] literals of the source. *)
Definition b (s : string) : bytes := list_byte_of_string s.

Definition bval (c : byte) : Z := Z.of_N (Byte.to_N c).

Definition is_digit (c : byte) : bool := (48 <=? bval c) && (bval c <=? 57).

Definition digit_val (c : byte) : Z := bval c - 48.

Definition is_letter (c : byte) : bool :=
  ((97 <=? bval c) && (bval c <=? 122)) || ((65 <=? bval c) && (bval c <=? 90)).

(** [Some(b' ') | Some(b'\n') | Some(b'\t') | Some(b'\r')] in [parse_whitespace]. *)
Definition is_ws (c : byte) : bool :=
  Byte.eqb c " "%byte || Byte.eqb c x0a || Byte.eqb c x09 || Byte.eqb c x0d.

Fixpoint starts_with (p s : bytes) : bool :=
  match p, s with
  | [], _ => true
  | c :: p', d :: s' => Byte.eqb c d && starts_with p' s'
  | _ :: _, [] => false
  end.

Definition ends_with (p s : bytes) : bool := starts_with (rev p) (rev s).

(** ** Error model (src/error.rs) *)

Inductive ErrorCode :=
| Message (msg : string)
| Io
| EofWhileParsingList
| EofWhileParsingAlist
| EofWhileParsingString
| EofWhileParsingValue
| ExpectedPairDot
| ExpectedListEltOrEnd
| ExpectedPairOrEnd
| ExpectedList
| ExpectedSomeIdent
| ExpectedSomeValue
| ExpectedSomeString
| InvalidEscape
| InvalidNumber
| NumberOutOfRange
| InvalidUnicodeCodePoint
| KeyMustBeAString
| LoneLeadingSurrogateInHexEscape
| TrailingCharacters
| UnexpectedEndOfHexEscape
| RecursionLimitExceeded.

Inductive Category := CatIo | CatSyntax | CatData | CatEof.

(** [ErrorImpl { code, line, column }]. *)
Record Error := mkError { code : ErrorCode; line : Z; column : Z }.

(** [Error::classify]. *)
Definition classify (e : Error) : Category :=
  match code e with
  | Message _ => CatData
  | Io => CatIo
  | EofWhileParsingList | EofWhileParsingAlist | EofWhileParsingString
  | EofWhileParsingValue => CatEof
  | ExpectedPairDot | ExpectedListEltOrEnd | ExpectedPairOrEnd | ExpectedList
  | ExpectedSomeIdent | ExpectedSomeValue | ExpectedSomeString | InvalidEscape
  | InvalidNumber | NumberOutOfRange | InvalidUnicodeCodePoint | KeyMustBeAString
  | LoneLeadingSurrogateInHexEscape | TrailingCharacters | UnexpectedEndOfHexEscape
  | RecursionLimitExceeded => CatSyntax
  end.

(** [Error::syntax]. *)
Definition syntax (c : ErrorCode) (l col : Z) : Error := mkError c l col.

(** ** Atoms (src/atom.rs) *)

Inductive Atom :=
| Symbol (s : bytes)
| Keyword (s : bytes)
| AString (s : bytes).

Definition new_string (s : bytes) : Atom := AString s.

(** [Atom::discriminate]: [s.split_at(2)] keeps the bytes after [#:];
    [&s[1..s.len()]] keeps every byte after the first. *)
Definition discriminate (s : bytes) : Atom :=
  if starts_with (b "#:") s then Keyword (skipn 2 s)
  else if (starts_with [x22] s && ends_with [x22] s)
          || (starts_with [x27] s && ends_with [x27] s)
  then AString (skipn 1 s)
  else Symbol s.

(** [Atom::from_str]. *)
Definition atom_from_str (s : bytes) : Atom := discriminate s.

(** ** Machine numbers *)

(** [f64]: IEEE binary64, rounding to nearest-even. *)
Definition f64 := spec_float.
Definition f64_of_Z (z : Z) : f64 := binary_normalize 53 1024 z 0 false.
Definition f64_mul (x y : f64) : f64 := SFmul 53 1024 x y.
Definition f64_div (x y : f64) : f64 := SFdiv 53 1024 x y.
Definition f64_neg (x : f64) : f64 := SFopp x.
Definition f64_is_infinite (x : f64) : bool :=
  match x with S754_infinity _ => true | _ => false end.
Definition f64_is_finite (x : f64) : bool :=
  match x with S754_zero _ | S754_finite _ _ _ => true | _ => false end.
(** [f == 0.0] holds for both zeros. *)
Definition f64_eq_zero (x : f64) : bool :=
  match x with S754_zero _ => true | _ => false end.

Definition u64_MAX : Z := 18446744073709551615.

(** [u as i64] and [i64::wrapping_neg]. *)
Definition u64_as_i64 (u : Z) : Z := if u <? 2 ^ 63 then u else u - 2 ^ 64.
Definition i64_wrap (z : Z) : Z := (z + 2 ^ 63) mod 2 ^ 64 - 2 ^ 63.
Definition i64_wrapping_neg (x : Z) : Z := i64_wrap (- x).

(** [overflow!(a * 10 + b, c)]. *)
Definition overflow (a bb c : Z) : bool :=
  (c / 10 <=? a) && ((c / 10 <? a) || (c mod 10 <? bb)).

(** [POW10]: the literals [1e000] ... [1e308], each the binary64 value
    nearest to the power of ten. *)
Definition POW10_get (n : Z) : option f64 :=
  if (0 <=? n) && (n <=? 308) then Some (f64_of_Z (10 ^ n)) else None.

(** ** Value model (src/number.rs, src/sexp/mod.rs) *)

Inductive N := PosInt (u : Z) | NegInt (i : Z) | Float (f : f64).
Record Number := mkNumber { n : N }.

(** [From<u64> for Number] and [From<i64> for Number]. *)
Definition number_from_u64 (u : Z) : Number := mkNumber (PosInt u).
Definition number_from_i64 (i : Z) : Number :=
  if i <? 0 then mkNumber (NegInt i) else mkNumber (PosInt i).

(** [Number::from_f64]. *)
Definition number_from_f64 (f : f64) : option Number :=
  if f64_is_finite f then Some (mkNumber (Float f)) else None.

Inductive Sexp :=
| Nil
| SAtom (a : Atom)
| SNumber (x : Number)
| Boolean (bl : bool)
| ImproperList (hd : list Sexp) (tl : Sexp)
| List (l : list Sexp).

(** ** Decoder state (src/de.rs [Deserializer], over a [SliceRead]) *)

(** The read position of [SliceRead { slice, index }] is kept as the
    unread suffix [rest] of the slice ([index = |slice| - |rest|]);
    [remaining_depth] is the [u8] recursion counter. *)
Record de := mkde { rest : bytes; remaining_depth : Z }.

Definition Deserializer_new (input : bytes) : de := mkde input 128.

(** Results of a decoder step. Errors keep the decoder state they leave
    behind; [Panic] is a Rust panic; [OutOfFuel] bounds the recursion of
    the model and is never reached by the decoder on the inputs used below. *)
Inductive outcome (A : Type) :=
| Ok (a : A) (st : de)
| Err (e : ErrorCode) (st : de)
| Panic
| OutOfFuel.
Arguments Ok {A} a st.
Arguments Err {A} e st.
Arguments Panic {A}.
Arguments OutOfFuel {A}.

Definition M (A : Type) := de -> outcome A.

Definition ret {A} (a : A) : M A := fun st => Ok a st.
Definition bind {A B} (m : M A) (k : A -> M B) : M B :=
  fun st => match m st with
            | Ok a st' => k a st'
            | Err e st' => Err e st'
            | Panic => Panic
            | OutOfFuel => OutOfFuel
            end.
Definition throw {A} (c : ErrorCode) : M A := fun st => Err c st.
Definition fmap {A B} (f : A -> B) (m : M A) : M B := bind m (fun a => ret (f a)).

Notation "x <- m ;; k" := (bind m (fun x => k)) (at level 61, m at next level, right associativity).
Notation "m ;;; k" := (bind m (fun _ => k)) (at level 61, right associativity).

(** [read.peek()], [read.discard()], [read.next()]. *)
Definition peek : M (option byte) := fun st => Ok (hd_error (rest st)) st.
Definition eat_char : M unit := fun st => Ok tt (mkde (tl (rest st)) (remaining_depth st)).
Definition next_char : M (option byte) :=
  fun st => Ok (hd_error (rest st)) (mkde (tl (rest st)) (remaining_depth st)).
Definition peek_or_null : M byte :=
  fun st => Ok (match rest st with c :: _ => c | [] => x00 end) st.
Definition next_char_or_null : M byte :=
  c <- next_char ;; ret (match c with Some c => c | None => x00 end).

(** [peek_error] and [error] attach a position; only the code is kept. *)
Definition peek_error {A} (c : ErrorCode) : M A := throw c.
Definition error {A} (c : ErrorCode) : M A := throw c.

Fixpoint skip_ws (l : bytes) : bytes :=
  match l with
  | c :: l' => if is_ws c then skip_ws l' else l
  | [] => []
  end.

(** [parse_whitespace]: the loop eating whitespace bytes. *)
Definition parse_whitespace : M (option byte) :=
  fun st => let r := skip_ws (rest st) in Ok (hd_error r) (mkde r (remaining_depth st)).

Definition option_eq_byte (x y : option byte) : bool :=
  match x, y with
  | Some c, Some d => Byte.eqb c d
  | None, None => true
  | _, _ => false
  end.

(** [parse_ident]. *)
Fixpoint parse_ident (ident : bytes) : M unit :=
  match ident with
  | [] => ret tt
  | c :: ident' =>
      nc <- next_char ;;
      if option_eq_byte (Some c) nc then parse_ident ident' else error ExpectedSomeIdent
  end.

(** ** Number parsing ([parse_integer] and its helpers) *)

(** The decoder's private [enum Number { F64, U64, I64 }]. *)
Inductive DNumber := F64 (f : f64) | U64 (u : Z) | I64 (i : Z).

Definition with_rest (r : bytes) (st : de) : de := mkde r (remaining_depth st).

(** [f64_from_parts]: [f = significand as f64], then a multiply or divide
    by [POW10[|exponent|]], dividing by [1e308] while [|exponent|] is out
    of the table. The loop runs at most [|exponent| / 308 + 1] times. *)
Fixpoint f64_from_parts_loop (fuel : nat) (f : f64) (exponent : Z) : M f64 :=
  match fuel with
  | O => fun _ => OutOfFuel
  | S fuel' =>
      match POW10_get (Z.abs exponent) with
      | Some pow =>
          if 0 <=? exponent then
            let f := f64_mul f pow in
            if f64_is_infinite f then error NumberOutOfRange else ret f
          else ret (f64_div f pow)
      | None =>
          if f64_eq_zero f then ret f
          else if 0 <=? exponent then error NumberOutOfRange
          else f64_from_parts_loop fuel' (f64_div f (f64_of_Z (10 ^ 308))) (exponent + 308)
      end
  end.

Definition f64_from_parts (pos : bool) (significand exponent : Z) : M f64 :=
  f <- f64_from_parts_loop (S (S (Z.to_nat (Z.abs exponent / 308)))) (f64_of_Z significand) exponent ;;
  ret (if pos then f else f64_neg f).

Fixpoint skip_digits (r : bytes) : bytes :=
  match r with
  | c :: r' => if is_digit c then skip_digits r' else r
  | [] => []
  end.

(** The digit loop of [parse_decimal]: significand, exponent,
    [at_least_one_digit] and the bytes left. *)
Fixpoint decimal_digits (significand exponent : Z) (seen : bool) (r : bytes)
  : Z * Z * bool * bytes :=
  match r with
  | c :: r' =>
      if is_digit c then
        let digit := digit_val c in
        if overflow significand digit u64_MAX then (significand, exponent, true, skip_digits r')
        else decimal_digits (significand * 10 + digit) (exponent - 1) true r'
      else (significand, exponent, seen, r)
  | [] => (significand, exponent, seen, [])
  end.

(** [parse_decimal], called with the [.] still unread. *)
Definition parse_decimal (pos : bool) (significand exponent : Z) : M f64 :=
  eat_char ;;;
  fun st =>
    let '(significand, exponent, at_least_one_digit, r) :=
      decimal_digits significand exponent false (rest st) in
    (if at_least_one_digit then f64_from_parts pos significand exponent
     else peek_error InvalidNumber) (with_rest r st).

Fixpoint long_integer_digits (exponent : Z) (r : bytes) : Z * bytes :=
  match r with
  | c :: r' => if is_digit c then long_integer_digits (exponent + 1) r' else (exponent, r)
  | [] => (exponent, [])
  end.

(** [parse_long_integer]. *)
Definition parse_long_integer (pos : bool) (significand exponent : Z) : M f64 :=
  fun st =>
    let '(exponent, r) := long_integer_digits exponent (rest st) in
    (c <- peek_or_null ;;
     if Byte.eqb c "."%byte then parse_decimal pos significand exponent
     else f64_from_parts pos significand exponent) (with_rest r st).

(** [parse_number]. *)
Definition parse_number (pos : bool) (significand : Z) : M DNumber :=
  c <- peek_or_null ;;
  if Byte.eqb c "."%byte then fmap F64 (parse_decimal pos significand 0)
  else if pos then ret (U64 significand)
  else
    let neg := i64_wrapping_neg (u64_as_i64 significand) in
    if 0 <? neg then ret (F64 (f64_neg (f64_of_Z significand)))
    else ret (I64 neg).

(** The digit loop of [parse_integer] after a non-zero first digit. *)
Fixpoint parse_integer_loop (pos : bool) (res : Z) (r : bytes) (d : Z) : outcome DNumber :=
  match r with
  | c :: r' =>
      if is_digit c then
        let digit := digit_val c in
        if overflow res digit u64_MAX then
          fmap F64 (parse_long_integer pos res 1) (mkde r' d)
        else parse_integer_loop pos (res * 10 + digit) r' d
      else parse_number pos res (mkde r d)
  | [] => parse_number pos res (mkde [] d)
  end.

(** [parse_integer]. *)
Definition parse_integer (pos : bool) : M DNumber :=
  c <- next_char_or_null ;;
  if Byte.eqb c "0"%byte then
    (c' <- peek_or_null ;;
     if is_digit c' then peek_error InvalidNumber else parse_number pos 0)
  else if is_digit c then
    fun st => parse_integer_loop pos (digit_val c) (rest st) (remaining_depth st)
  else error InvalidNumber.

(** ** Strings and symbols of the reader *)

Definition byte_of_Z (z : Z) : byte :=
  match Byte.of_N (Z.to_N z) with Some c => c | None => x00 end.

Definition hex_val (c : byte) : option Z :=
  let v := bval c in
  if (48 <=? v) && (v <=? 57) then Some (v - 48)
  else if (97 <=? v) && (v <=? 102) then Some (v - 87)
  else if (65 <=? v) && (v <=? 70) then Some (v - 55)
  else None.

Definition utf8_encode (cp : Z) : bytes :=
  if cp <? 128 then [byte_of_Z cp]
  else if cp <? 2048 then
    [byte_of_Z (192 + Z.shiftr cp 6); byte_of_Z (128 + Z.land cp 63)]
  else
    [byte_of_Z (224 + Z.shiftr cp 12); byte_of_Z (128 + Z.land (Z.shiftr cp 6) 63);
     byte_of_Z (128 + Z.land cp 63)].

Definition simple_escape (e : byte) : option byte :=
  if Byte.eqb e x22 then Some x22
  else if Byte.eqb e x5c then Some x5c
  else if Byte.eqb e "/"%byte then Some "/"%byte
  else if Byte.eqb e "b"%byte then Some x08
  else if Byte.eqb e "f"%byte then Some x0c
  else if Byte.eqb e "n"%byte then Some x0a
  else if Byte.eqb e "r"%byte then Some x0d
  else if Byte.eqb e "t"%byte then Some x09
  else None.

Definition prepend (p : bytes) (res : (ErrorCode + bytes) * bytes) : (ErrorCode + bytes) * bytes :=
  match res with
  | (inr s, r) => (inr (p ++ s), r)
  | (inl e, r) => (inl e, r)
  end.

(** Modelled from the spec: [read::Read::parse_str] (the [read] module is
    not among the sources). Bytes up to the closing quote, copied except
    the two-byte escapes of the quote, backslash, slash, b, f, n, r, t
    and the six-byte escapes [\uXXXX];
    end of input inside the string is [EofWhileParsingString]. *)
Fixpoint parse_str_bytes (r : bytes) : (ErrorCode + bytes) * bytes :=
  match r with
  | [] => (inl EofWhileParsingString, [])
  | c :: r' =>
      if Byte.eqb c x22 then (inr [], r')
      else if Byte.eqb c x5c then
        match r' with
        | [] => (inl EofWhileParsingString, [])
        | e :: r'' =>
            match simple_escape e with
            | Some x => prepend [x] (parse_str_bytes r'')
            | None =>
                if Byte.eqb e "u"%byte then
                  match r'' with
                  | h1 :: h2 :: h3 :: h4 :: r3 =>
                      match hex_val h1, hex_val h2, hex_val h3, hex_val h4 with
                      | Some a, Some bb, Some cc, Some dd =>
                          let cp := a * 4096 + bb * 256 + cc * 16 + dd in
                          if (55296 <=? cp) && (cp <=? 57343)
                          then (inl LoneLeadingSurrogateInHexEscape, r3)
                          else prepend (utf8_encode cp) (parse_str_bytes r3)
                      | _, _, _, _ => (inl InvalidEscape, r3)
                      end
                  | _ => (inl EofWhileParsingString, [])
                  end
                else (inl InvalidEscape, r'')
            end
        end
      else prepend [c] (parse_str_bytes r')
  end.

Definition parse_str : M bytes :=
  fun st =>
    match parse_str_bytes (rest st) with
    | (inl e, r) => Err e (with_rest r st)
    | (inr s, r) => Ok s (with_rest r st)
    end.

Definition is_delim (c : byte) : bool :=
  is_ws c || Byte.eqb c "("%byte || Byte.eqb c ")"%byte.

(** Modelled from the spec: [read::Read::parse_symbol] (the [read] module
    is not among the sources). A bare symbol runs from its first letter up
    to the next whitespace, parenthesis or the end of the input. *)
Fixpoint parse_symbol_bytes (r : bytes) : bytes * bytes :=
  match r with
  | c :: r' =>
      if is_delim c then ([], r)
      else let '(s, r'') := parse_symbol_bytes r' in (c :: s, r'')
  | [] => ([], [])
  end.

Definition parse_symbol : M bytes :=
  fun st => let '(s, r) := parse_symbol_bytes (rest st) in Ok s (with_rest r st).

(** ** Targets of the typed binding layer *)

(** The shape of the type a caller decodes into, i.e. which methods of
    the deserializer its [Deserialize] impl calls and how its visitor
    answers: [Sexp] (through [deserialize_any]), [Vec<T>] (through
    [deserialize_seq], forwarded to [deserialize_any]), [Option<T>]
    (through [deserialize_option]) and a derived struct with named fields
    (through [deserialize_struct]). *)
Inductive shape :=
| SSexp
| SSeq (elt : shape)
| SOption (inner : shape)
| SStruct (fields : list (bytes * shape)).

Inductive value :=
| VSexp (s : Sexp)
| VSeq (l : list value)
| VNone
| VSome (v : value)
| VStruct (fields : list (bytes * value)).

Definition sexp_of_value (v : value) : Sexp :=
  match v with VSexp s => s | _ => Nil end.

(** The primitive calls [parse_value] makes on its visitor besides
    [visit_seq]. *)
Inductive event :=
| EvBool (bl : bool)
| EvU64 (u : Z)
| EvI64 (i : Z)
| EvF64 (f : f64)
| EvStr (s : bytes)
| EvNewtype (a : Atom).

(** [Number::visit]. *)
Definition event_of_number (x : DNumber) : event :=
  match x with F64 f => EvF64 f | U64 u => EvU64 u | I64 i => EvI64 i end.

(** Modelled from the spec: the [Sexp] visitor (src/sexp/de.rs is not
    among the sources). Booleans, numbers, strings and symbols become the
    matching [Sexp] variant; a non-finite float has no [Number] and is
    read as [Nil]. *)
Definition sexp_of_event (ev : event) : Sexp :=
  match ev with
  | EvBool bl => Boolean bl
  | EvU64 u => SNumber (number_from_u64 u)
  | EvI64 i => SNumber (number_from_i64 i)
  | EvF64 f => match number_from_f64 f with Some x => SNumber x | None => Nil end
  | EvStr s => SAtom (new_string s)
  | EvNewtype a => SAtom a
  end.

(** serde's [Error::invalid_type], [invalid_length], [duplicate_field]
    and [missing_field]: custom messages, i.e. [ErrorCode::Message]. *)
Definition invalid_type : ErrorCode := Message "invalid type".
Definition invalid_length : ErrorCode := Message "invalid length".
Definition duplicate_field : ErrorCode := Message "duplicate field".
Definition missing_field : ErrorCode := Message "missing field".

Definition visit (s : shape) (ev : event) : M value :=
  match s with
  | SSexp => ret (VSexp (sexp_of_event ev))
  | _ => throw invalid_type
  end.

(** ** Deserializer methods without nested values *)

(** [u8] arithmetic on [remaining_depth]; overflow panics (debug build). *)
Definition u8_dec (d : Z) : option Z := if d =? 0 then None else Some (d - 1).
Definition u8_inc (d : Z) : option Z := if d =? 255 then None else Some (d + 1).

(** [end_seq]. *)
Definition end_seq : M unit :=
  pk <- parse_whitespace ;;
  match pk with
  | Some c => if Byte.eqb c ")"%byte then eat_char else peek_error TrailingCharacters
  | None => peek_error EofWhileParsingList
  end.

(** [Deserializer::end]. *)
Definition end_ : M unit :=
  pk <- parse_whitespace ;;
  match pk with
  | Some _ => peek_error TrailingCharacters
  | None => ret tt
  end.

(** [MapKey::deserialize_any]. *)
Definition map_key : M bytes :=
  pk <- parse_whitespace ;;
  match pk with
  | Some c =>
      if Byte.eqb c x22 then eat_char ;;; parse_str
      else if is_letter c then parse_symbol
      else peek_error ExpectedSomeIdent
  | None => peek_error EofWhileParsingAlist
  end.

(** [MapAccess::next_key_seed]. *)
Definition next_key : M (option bytes) :=
  pk <- parse_whitespace ;;
  match pk with
  | Some c =>
      if Byte.eqb c ")"%byte then ret None
      else if Byte.eqb c "("%byte then eat_char ;;; k <- map_key ;; ret (Some k)
      else peek_error ExpectedList
  | None => peek_error EofWhileParsingAlist
  end.

Fixpoint bytes_eqb (x y : bytes) : bool :=
  match x, y with
  | [], [] => true
  | c :: x', d :: y' => Byte.eqb c d && bytes_eqb x' y'
  | _, _ => false
  end.

Fixpoint lookup_field {A} (k : bytes) (l : list (bytes * A)) : option A :=
  match l with
  | [] => None
  | (k', a) :: l' => if bytes_eqb k k' then Some a else lookup_field k l'
  end.

(** The end of a derived [visit_map]: every field in declaration order;
    an absent [Option] field is [None], any other absent field is an error. *)
Fixpoint finish_struct (fs : list (bytes * shape)) (acc : list (bytes * value))
  : M (list (bytes * value)) :=
  match fs with
  | [] => ret []
  | (k, t) :: fs' =>
      v <- match lookup_field k acc, t with
           | Some v, _ => ret v
           | None, SOption _ => ret VNone
           | None, _ => throw missing_field
           end ;;
      vs <- finish_struct fs' acc ;;
      ret ((k, v) :: vs)
  end.

(** The tail of the [b'('] arm of [parse_value], after [visit_seq]
    returned [ret]: [remaining_depth += 1], [parse_whitespace], [end_seq],
    then the first error of [(ret, end_seq)] wins. *)
Definition close_seq (r : ErrorCode + value) (st : de) : outcome value :=
  match u8_inc (remaining_depth st) with
  | None => Panic
  | Some d =>
      match (parse_whitespace ;;; end_seq) (mkde (rest st) d) with
      | Ok _ st' => match r with inr v => Ok v st' | inl e => Err e st' end
      | Err e' st' => match r with inl e => Err e st' | inr _ => Err e' st' end
      | Panic => Panic
      | OutOfFuel => OutOfFuel
      end
  end.

(** ** The recursive descent

    [deserialize f s] is [<T as Deserialize>::deserialize(&mut de)] for a
    target of shape [s]; [parse_value] is [Deserializer::parse_value];
    [visit_seq] is the target visitor's [visit_seq] over a fresh
    [SeqAccess]; [next_element] is [SeqAccess::next_element_seed];
    [visit_map]/[next_value] are a derived struct visitor over [MapAccess]
    and [MapAccess::next_value_seed]. *)
Fixpoint deserialize (fuel : nat) (s : shape) {struct fuel} : M value :=
  match fuel with
  | O => fun _ => OutOfFuel
  | S f =>
      match s with
      | SSexp | SSeq _ => parse_value f s
      | SOption t =>
          (* deserialize_option *)
          pk <- parse_whitespace ;;
          match pk with
          | Some c =>
              if Byte.eqb c "n"%byte then eat_char ;;; parse_ident (b "il") ;;; ret VNone
              else fmap VSome (deserialize f t)
          | None => fmap VSome (deserialize f t)
          end
      | SStruct fs =>
          (* deserialize_struct *)
          pk <- parse_whitespace ;;
          match pk with
          | None => peek_error EofWhileParsingValue
          | Some c =>
              if Byte.eqb c "("%byte then
                eat_char ;;; v <- visit_map f fs [] ;; end_seq ;;; ret v
              else peek_error ExpectedList
          end
      end
  end
with parse_value (fuel : nat) (s : shape) {struct fuel} : M value :=
  match fuel with
  | O => fun _ => OutOfFuel
  | S f =>
      pk <- parse_whitespace ;;
      match pk with
      | None => peek_error EofWhileParsingValue
      | Some c =>
          if Byte.eqb c "#"%byte then
            eat_char ;;;
            nc <- next_char ;;
            match nc with
            | Some c' =>
                if Byte.eqb c' "t"%byte then visit s (EvBool true)
                else if Byte.eqb c' "f"%byte then visit s (EvBool false)
                else if Byte.eqb c' "n"%byte then parse_ident (b "il") ;;; visit s (EvBool true)
                else peek_error ExpectedSomeIdent
            | None => peek_error EofWhileParsingValue
            end
          else if Byte.eqb c "-"%byte then
            eat_char ;;; x <- parse_integer false ;; visit s (event_of_number x)
          else if is_digit c then
            x <- parse_integer true ;; visit s (event_of_number x)
          else if Byte.eqb c x22 then
            eat_char ;;; str <- parse_str ;; visit s (EvStr str)
          else if Byte.eqb c "("%byte then
            fun st =>
              match u8_dec (remaining_depth st) with
              | None => Panic
              | Some d =>
                  if d =? 0 then peek_error RecursionLimitExceeded (mkde (rest st) d)
                  else
                    match visit_seq f s (mkde (tl (rest st)) d) with
                    | Ok v st1 => close_seq (inr v) st1
                    | Err e st1 => close_seq (inl e) st1
                    | Panic => Panic
                    | OutOfFuel => OutOfFuel
                    end
              end
          else if is_letter c then
            sym <- parse_symbol ;; visit s (EvNewtype (atom_from_str sym))
          else peek_error ExpectedSomeValue
      end
  end
with visit_seq (fuel : nat) (s : shape) {struct fuel} : M value :=
  match fuel with
  | O => fun _ => OutOfFuel
  | S f =>
      match s with
      | SSexp => vs <- seq_elements f SSexp true ;; ret (VSexp (List (map sexp_of_value vs)))
      | SSeq t => vs <- seq_elements f t true ;; ret (VSeq vs)
      | SOption _ => throw invalid_type
      | SStruct fs => vs <- seq_fields f fs true ;; ret (VStruct vs)
      end
  end
with seq_elements (fuel : nat) (elt : shape) (first : bool) {struct fuel} : M (list value) :=
  match fuel with
  | O => fun _ => OutOfFuel
  | S f =>
      r <- next_element f elt first ;;
      match r with
      | (None, _) => ret []
      | (Some v, first') => vs <- seq_elements f elt first' ;; ret (v :: vs)
      end
  end
with seq_fields (fuel : nat) (fs : list (bytes * shape)) (first : bool) {struct fuel}
  : M (list (bytes * value)) :=
  match fuel with
  | O => fun _ => OutOfFuel
  | S f =>
      match fs with
      | [] => ret []
      | (k, t) :: fs' =>
          r <- next_element f t first ;;
          match r with
          | (None, _) => throw invalid_length
          | (Some v, first') => vs <- seq_fields f fs' first' ;; ret ((k, v) :: vs)
          end
      end
  end
with next_element (fuel : nat) (elt : shape) (first : bool) {struct fuel}
  : M (option value * bool) :=
  match fuel with
  | O => fun _ => OutOfFuel
  | S f =>
      let element_or_end (first' : bool) : M (option value * bool) :=
        pk' <- peek ;;
        match pk' with
        | None => fun _ => Panic   (* self.de.peek()?.unwrap() *)
        | Some c' =>
            if Byte.eqb c' ")"%byte then ret (None, first')
            else v <- deserialize f elt ;; ret (Some v, first')
        end in
      pk <- peek ;;
      match pk with
      | Some c =>
          if Byte.eqb c ")"%byte then ret (None, first)
          else if Byte.eqb c " "%byte then eat_char ;;; element_or_end first
          else parse_whitespace ;;;
               if first then element_or_end false
               else peek_error ExpectedListEltOrEnd
      | None => peek_error EofWhileParsingList
      end
  end
with visit_map (fuel : nat) (fs : list (bytes * shape)) (acc : list (bytes * value)) {struct fuel}
  : M value :=
  match fuel with
  | O => fun _ => OutOfFuel
  | S f =>
      k <- next_key ;;
      match k with
      | None => vs <- finish_struct fs acc ;; ret (VStruct vs)
      | Some key =>
          match lookup_field key fs with
          | Some t =>
              match lookup_field key acc with
              | Some _ => throw duplicate_field
              | None => v <- next_value f t ;; visit_map f fs (acc ++ [(key, v)])
              end
          | None => next_value f SSexp ;;; visit_map f fs acc   (* IgnoredAny *)
          end
      end
  end
with next_value (fuel : nat) (t : shape) {struct fuel} : M value :=
  match fuel with
  | O => fun _ => OutOfFuel
  | S f =>
      pk <- parse_whitespace ;;
      v <- match pk with
           | Some c =>
               if Byte.eqb c "."%byte then eat_char ;;; deserialize f t
               else visit_seq f t   (* MapSeqValue forwards every request to visit_seq *)
           | None => peek_error EofWhileParsingAlist
           end ;;
      pk' <- parse_whitespace ;;
      match pk' with
      | Some c => if Byte.eqb c ")"%byte then eat_char ;;; ret v else peek_error TrailingCharacters
      | None => peek_error EofWhileParsingAlist
      end
  end.

(** The recursion of the model is bounded by a fuel proportional to the
    input length. *)
Definition fuel_for (st : de) : nat := (16 * (List.length (rest st) + 4))%nat.

Definition Deserialize (s : shape) : M value := fun st => deserialize (fuel_for st) s st.

(** [from_trait] (shared by [from_str], [from_slice], [from_reader]). *)
Definition from_trait (s : shape) (input : bytes) : outcome value :=
  (v <- Deserialize s ;; end_ ;;; ret v) (Deserializer_new input).

Definition from_str (s : shape) (input : string) : outcome value := from_trait s (b input).

(** ** Streaming decoder ([StreamDeserializer]) *)

(** Modelled from the spec: [byte_offset()] of the [read] module's
    [SliceRead] over [input] (the module is not among the sources), taken
    as its index, the number of bytes read so far. *)
Definition byte_offset_of (input : bytes) (st : de) : nat :=
  (List.length input - List.length (rest st))%nat.

Record StreamDeserializer := mkstream { input : bytes; sde : de; offset : nat }.

Definition StreamDeserializer_new (input : bytes) : StreamDeserializer :=
  mkstream input (Deserializer_new input) 0.

(** [StreamDeserializer::byte_offset]. *)
Definition byte_offset (sd : StreamDeserializer) : nat := offset sd.

Inductive next_result :=
| NextNone
| NextItem (r : ErrorCode + value)
| NextPanic
| NextFuel.

(** [Iterator::next] for [StreamDeserializer]. *)
Definition stream_next (s : shape) (sd : StreamDeserializer) : next_result * StreamDeserializer :=
  match parse_whitespace (sde sd) with
  | Ok None st => (NextNone, mkstream (input sd) st (byte_offset_of (input sd) st))
  | Ok (Some c) st =>
      if Byte.eqb c "("%byte then
        let off := byte_offset_of (input sd) st in
        match Deserialize s st with
        | Ok v st' => (NextItem (inr v), mkstream (input sd) st' (byte_offset_of (input sd) st'))
        | Err e st' => (NextItem (inl e), mkstream (input sd) st' off)
        | Panic => (NextPanic, sd)
        | OutOfFuel => (NextFuel, sd)
        end
      else (NextItem (inl ExpectedList), mkstream (input sd) st (offset sd))
  | Err e st => (NextItem (inl e), mkstream (input sd) st (offset sd))
  | Panic => (NextPanic, sd)
  | OutOfFuel => (NextFuel, sd)
  end.

(** The first [k] results of repeatedly calling [next]. *)
Fixpoint stream_take (k : nat) (s : shape) (sd : StreamDeserializer) : list next_result :=
  match k with
  | O => []
  | S k' =>
      let '(r, sd') := stream_next s sd in
      match r with
      | NextItem _ => r :: stream_take k' s sd'
      | _ => [r]
      end
  end.

(** ** Encoder ([ser.rs]) *)

Inductive CharEscape :=
| Quote | ReverseSolidus | Solidus | Backspace | FormFeed | LineFeed
| CarriageReturn | Tab | AsciiControl (c : byte).

(** [itoa::write]: decimal text of an integer. *)
Fixpoint digits_rev (fuel : nat) (z : Z) : bytes :=
  match fuel with
  | O => []
  | S f => byte_of_Z (48 + z mod 10) :: (if z <? 10 then [] else digits_rev f (z / 10))
  end.

Definition itoa (z : Z) : bytes :=
  if z <? 0 then "-"%byte :: rev (digits_rev 40 (- z)) else rev (digits_rev 40 z).

(** The [Formatter] trait; each method returns the updated formatter and the
    bytes it writes (writing to a [Vec<u8>] cannot fail).  The integer methods
    [write_i8] .. [write_u64] all call [itoa::write] and are one method here. *)
Class Formatter (F : Type) := {
  write_null : F -> F * bytes;
  write_bool : F -> bool -> F * bytes;
  write_int : F -> Z -> F * bytes;
  begin_string : F -> F * bytes;
  end_string : F -> F * bytes;
  write_string_fragment : F -> bytes -> F * bytes;
  write_char_escape : F -> CharEscape -> F * bytes;
  begin_array : F -> F * bytes;
  end_array : F -> F * bytes;
  begin_array_value : F -> bool -> F * bytes;
  end_array_value : F -> F * bytes;
  begin_object : F -> F * bytes;
  end_object : F -> F * bytes;
  begin_object_key : F -> bool -> F * bytes;
  end_object_key : F -> F * bytes;
  begin_object_value : F -> F * bytes;
  end_object_value : F -> F * bytes
}.

(** The trait's default method bodies. *)
Module FormatterDefaults.
Definition write_null {F} (f : F) : F * bytes := (f, b "#nil").
Definition write_bool {F} (f : F) (v : bool) : F * bytes := (f, if v then b "#t" else b "#f").
Definition write_int {F} (f : F) (v : Z) : F * bytes := (f, itoa v).
Definition begin_string {F} (f : F) : F * bytes := (f, [x22]).
Definition end_string {F} (f : F) : F * bytes := (f, [x22]).
Definition write_string_fragment {F} (f : F) (fragment : bytes) : F * bytes := (f, fragment).
Definition HEX_DIGITS (i : Z) : byte := byte_of_Z (if i <? 10 then 48 + i else 87 + i).
Definition write_char_escape {F} (f : F) (e : CharEscape) : F * bytes :=
  (f, match e with
      | Quote => [x5c; x22]
      | ReverseSolidus => [x5c; x5c]
      | Solidus => [x5c; "/"%byte]
      | Backspace => [x5c; "b"%byte]
      | FormFeed => [x5c; "f"%byte]
      | LineFeed => [x5c; "n"%byte]
      | CarriageReturn => [x5c; "r"%byte]
      | Tab => [x5c; "t"%byte]
      | AsciiControl c =>
          [x5c; "u"%byte; "0"%byte; "0"%byte;
           HEX_DIGITS (Z.shiftr (bval c) 4); HEX_DIGITS (Z.land (bval c) 15)]
      end).
Definition begin_array {F} (f : F) : F * bytes := (f, b "(").
Definition end_array {F} (f : F) : F * bytes := (f, b ")").
Definition begin_array_value {F} (f : F) (first : bool) : F * bytes :=
  (f, if first then [] else b " ").
Definition end_array_value {F} (f : F) : F * bytes := (f, []).
Definition begin_object {F} (f : F) : F * bytes := (f, b "(").
Definition end_object {F} (f : F) : F * bytes := (f, b ")").
Definition begin_object_key {F} (f : F) (first : bool) : F * bytes :=
  (f, if first then [] else b " ").
Definition end_object_key {F} (f : F) : F * bytes := (f, []).
Definition begin_object_value {F} (f : F) : F * bytes := (f, b ".").
Definition end_object_value {F} (f : F) : F * bytes := (f, []).
End FormatterDefaults.

Inductive CompactFormatter := CompactFormatter_.

#[export] Instance Formatter_CompactFormatter : Formatter CompactFormatter := {
  write_null := FormatterDefaults.write_null;
  write_bool := FormatterDefaults.write_bool;
  write_int := FormatterDefaults.write_int;
  begin_string := FormatterDefaults.begin_string;
  end_string := FormatterDefaults.end_string;
  write_string_fragment := FormatterDefaults.write_string_fragment;
  write_char_escape := FormatterDefaults.write_char_escape;
  begin_array := FormatterDefaults.begin_array;
  end_array := FormatterDefaults.end_array;
  begin_array_value := FormatterDefaults.begin_array_value;
  end_array_value := FormatterDefaults.end_array_value;
  begin_object := FormatterDefaults.begin_object;
  end_object := FormatterDefaults.end_object;
  begin_object_key := FormatterDefaults.begin_object_key;
  end_object_key := FormatterDefaults.end_object_key;
  begin_object_value := FormatterDefaults.begin_object_value;
  end_object_value := FormatterDefaults.end_object_value
}.

Record PrettyFormatter := mkpretty
  { current_indent : nat; has_value : bool; indent_unit : bytes }.

Definition PrettyFormatter_new : PrettyFormatter := mkpretty 0 false (b "  ").

(** [fn indent]: [n] copies of [s]. *)
Fixpoint indent (n : nat) (s : bytes) : bytes :=
  match n with O => [] | S k => s ++ indent k s end.

(** [current_indent -= 1] is a [usize] decrement; the encoder only calls the
    closing methods after the matching opening ones, so it never goes below 0. *)
Definition pretty_close (close : bytes) (p : PrettyFormatter) : PrettyFormatter * bytes :=
  let ci := Nat.pred (current_indent p) in
  (mkpretty ci (has_value p) (indent_unit p),
   (if has_value p then [x0a] ++ indent ci (indent_unit p) else [])
   ++ close).

Definition pretty_open (open : bytes) (p : PrettyFormatter) : PrettyFormatter * bytes :=
  (mkpretty (S (current_indent p)) false (indent_unit p), open).

Definition pretty_set_value (p : PrettyFormatter) : PrettyFormatter * bytes :=
  (mkpretty (current_indent p) true (indent_unit p), []).

#[export] Instance Formatter_PrettyFormatter : Formatter PrettyFormatter := {
  write_null := FormatterDefaults.write_null;
  write_bool := FormatterDefaults.write_bool;
  write_int := FormatterDefaults.write_int;
  begin_string := FormatterDefaults.begin_string;
  end_string := FormatterDefaults.end_string;
  write_string_fragment := FormatterDefaults.write_string_fragment;
  write_char_escape := FormatterDefaults.write_char_escape;
  begin_array := pretty_open (b "(");
  end_array := pretty_close (b ")");
  begin_array_value := fun p _ =>
    (p, [x0a] ++ indent (current_indent p) (indent_unit p));
  end_array_value := pretty_set_value;
  begin_object := pretty_open (b "{");
  end_object := pretty_close (b "}");
  begin_object_key := fun p first =>
    (p, (if first then [x0a]
         else [","%byte; x0a])
        ++ indent (current_indent p) (indent_unit p));
  end_object_key := FormatterDefaults.end_object_key;
  begin_object_value := fun p => (p, b ": ");
  end_object_value := pretty_set_value
}.

(** [ESCAPE] table: [x00] means the byte is written as is. *)
Definition ESCAPE (c : byte) : byte :=
  match c with
  | x08 => "b"%byte | x09 => "t"%byte | x0a => "n"%byte | x0c => "f"%byte
  | x0d => "r"%byte | x22 => x22 | x5c => x5c
  | _ => if bval c <? 32 then "u"%byte else x00
  end.

(** [CharEscape::from_escape_table]; its [unreachable!()] arm is never taken
    since [ESCAPE] only holds the codes matched before it and ["u"]. *)
Definition from_escape_table (escape c : byte) : CharEscape :=
  match escape with
  | "b"%byte => Backspace | "t"%byte => Tab | "n"%byte => LineFeed
  | "f"%byte => FormFeed | "r"%byte => CarriageReturn | x22 => Quote
  | x5c => ReverseSolidus | _ => AsciiControl c
  end.

(** A value of a type implementing [Serialize], by the [Serializer] method
    its [serialize] calls.  [SerMap] is a map ([serialize_map] with its
    length, then [serialize_key] and [serialize_value] per entry); its keys
    go through [MapKeySerializer]. *)
Inductive ser_key :=
| KeyStr (s : bytes)
| KeyUnitVariant (variant : bytes)
| KeyNewtypeStruct (k : ser_key)
| KeyBool (v : bool)
| KeyInt (v : Z)
| KeyF32 (v : f64)
| KeyF64 (v : f64)
| KeyChar (c : bytes)
| KeyBytes (v : bytes)
| KeyUnit | KeyUnitStruct | KeyNewtypeVariant | KeyNone | KeySome
| KeySeq | KeyTuple | KeyTupleStruct | KeyTupleVariant | KeyMap | KeyStruct
| KeyStructVariant.

Inductive ser_value :=
| SerBool (v : bool)
| SerInt (v : Z)
| SerStr (s : bytes)
| SerUnit
| SerSeq (xs : list ser_value)
| SerMap (entries : list (ser_key * ser_value))
| SerStruct (fields : list (bytes * ser_value)).

(** [fn key_must_be_a_string]. *)
Definition key_must_be_a_string : Error := syntax KeyMustBeAString 0 0.

Record Serializer (F : Type) := mkser { writer : bytes; formatter : F }.
Arguments mkser {F}.
Arguments writer {F}.
Arguments formatter {F}.

Inductive sresult (F A : Type) :=
| SOk (a : A) (s : Serializer F)
| SErr (e : Error) (s : Serializer F).
Arguments SOk {F A}.
Arguments SErr {F A}.

Section Encoder.
Context {F : Type} `{Formatter F}.

Definition SM (A : Type) := Serializer F -> sresult F A.

Definition sret {A} (a : A) : SM A := fun s => SOk a s.
Definition sbind {A B} (m : SM A) (k : A -> SM B) : SM B :=
  fun s => match m s with SOk a s' => k a s' | SErr e s' => SErr e s' end.
Definition sfail {A} (e : Error) : SM A := fun s => SErr e s.

(** Call a formatter method and append what it writes to the writer. *)
Definition emit (m : F -> F * bytes) : SM unit :=
  fun s => let '(f', out) := m (formatter s) in SOk tt (mkser (writer s ++ out) f').

Local Notation "m ;; k" := (sbind m (fun _ => k)) (at level 61, right associativity).

(** [format_escaped_str_contents]: [pending] holds the current unescaped
    fragment, reversed. *)
Fixpoint escaped_contents (pending : bytes) (bs : bytes) : SM unit :=
  let flush := match pending with
               | [] => sret tt
               | _ => emit (fun f => write_string_fragment f (rev pending))
               end in
  match bs with
  | [] => flush
  | c :: bs' =>
      let e := ESCAPE c in
      if Byte.eqb e x00 then escaped_contents (c :: pending) bs'
      else flush ;; emit (fun f => write_char_escape f (from_escape_table e c)) ;;
           escaped_contents [] bs'
  end.

(** [format_escaped_str], i.e. [Serializer::serialize_str]. *)
Definition serialize_str (v : bytes) : SM unit :=
  emit begin_string ;; escaped_contents [] v ;; emit end_string.

(** [MapKeySerializer]. *)
Fixpoint serialize_key (k : ser_key) : SM unit :=
  match k with
  | KeyStr s => serialize_str s
  | KeyUnitVariant v => serialize_str v
  | KeyNewtypeStruct k' => serialize_key k'
  | KeyInt v => emit begin_string ;; emit (fun f => write_int f v) ;; emit end_string
  | _ => sfail key_must_be_a_string
  end.

(** [SerializeMap::serialize_key] followed by [SerializeMap::serialize_value]. *)
Definition serialize_entry (first : bool) (key : SM unit) (value : SM unit) : SM unit :=
  emit (fun f => begin_object_key f first) ;; key ;; emit end_object_key ;;
  emit begin_object_value ;; value ;; emit end_object_value.

(** [Serializer] for [&mut Serializer<W, F>], with [serialize_seq],
    [serialize_map] and [serialize_struct] and the [Compound] states
    ([Empty] when the length is 0, then [First], then [Rest]). *)
Fixpoint serialize (v : ser_value) : SM unit :=
  match v with
  | SerBool x => emit (fun f => write_bool f x)
  | SerInt x => emit (fun f => write_int f x)
  | SerStr s => serialize_str s
  | SerUnit => emit write_null
  | SerSeq xs =>
      match xs with
      | [] => emit begin_array ;; emit end_array
      | _ =>
          emit begin_array ;;
          (fix elements (first : bool) (xs : list ser_value) : SM unit :=
             match xs with
             | [] => sret tt
             | x :: xs' =>
                 emit (fun f => begin_array_value f first) ;; serialize x ;;
                 emit end_array_value ;; elements false xs'
             end) true xs ;;
          emit end_array
      end
  | SerMap es =>
      match es with
      | [] => emit begin_object ;; emit end_object
      | _ =>
          emit begin_object ;;
          (fix entries (first : bool) (es : list (ser_key * ser_value)) : SM unit :=
             match es with
             | [] => sret tt
             | (k, x) :: es' =>
                 serialize_entry first (serialize_key k) (serialize x) ;;
                 entries false es'
             end) true es ;;
          emit end_object
      end
  | SerStruct fs =>
      match fs with
      | [] => emit begin_object ;; emit end_object
      | _ =>
          emit begin_object ;;
          (fix fields (first : bool) (fs : list (bytes * ser_value)) : SM unit :=
             match fs with
             | [] => sret tt
             | (k, x) :: fs' =>
                 serialize_entry first (serialize_key (KeyStr k)) (serialize x) ;;
                 fields false fs'
             end) true fs ;;
          emit end_object
      end
  end.

End Encoder.

(** [to_writer] into a [Vec<u8>] with a given formatter. *)
Definition to_vec_with {F} `{Formatter F} (fmt : F) (v : ser_value) : Error + bytes :=
  match serialize v (mkser [] fmt) with
  | SOk _ s => inr (writer s)
  | SErr e _ => inl e
  end.

Definition to_vec (v : ser_value) : Error + bytes := to_vec_with CompactFormatter_ v.
Definition to_vec_pretty (v : ser_value) : Error + bytes := to_vec_with PrettyFormatter_new v.

(** ** Vocabulary of the properties below *)

(** The value of a decimal digit string read after an accumulated prefix [acc]. *)
Fixpoint digits_value (acc : Z) (ds : bytes) : Z :=
  match ds with
  | [] => acc
  | c :: ds' => digits_value (acc * 10 + digit_val c) ds'
  end.

(** A well-formed unsigned integer literal: digits only, no leading zero
    unless the literal is [0]. *)
Definition is_integer_literal (ds : bytes) : bool :=
  match ds with
  | [] => false
  | c :: ds' =>
      forallb is_digit ds
      && (negb (Byte.eqb c "0"%byte) || match ds' with [] => true | _ => false end)
  end.

(** The bytes after a literal continue with neither a digit nor a [.]. *)
Definition ends_literal (r : bytes) : bool :=
  match r with
  | [] => true
  | c :: _ => negb (is_digit c) && negb (Byte.eqb c "."%byte)
  end.

(** A successful step leaves the depth counter as it found it and reads a
    prefix of the unread bytes. *)
Definition advances (st st' : de) : Prop :=
  remaining_depth st' = remaining_depth st /\ exists p, rest st = p ++ rest st'.

Definition preserves {A} (m : M A) : Prop :=
  forall st a st', m st = Ok a st' -> advances st st'.

(** A stream whose decoder reads a suffix of its input at the top level. *)
Definition stream_wf (sd : StreamDeserializer) : Prop :=
  (exists p, input sd = p ++ rest (sde sd)) /\ remaining_depth (sde sd) = 128.

(** Map keys that are booleans or floats. *)
Definition bool_or_float_key (k : ser_key) : bool :=
  match k with KeyBool _ | KeyF32 _ | KeyF64 _ => true | _ => false end.

(** [n] opening parentheses. *)
Definition open_parens (n : nat) : bytes := repeat "("%byte n.

(** ** Further definitions: error conversion (src/error.rs) *)

Inductive IoErrorKind := IoInner | InvalidData | UnexpectedEof.

(** [impl From<Error> for io::Error]: the wrapped I/O error itself, or a new
    [io::Error] of kind [InvalidData] or [UnexpectedEof]; [None] is the
    [unreachable!()] arm. *)
Definition io_error_from (j : Error) : option IoErrorKind :=
  match code j with
  | Io => Some IoInner
  | _ =>
      match classify j with
      | CatIo => None
      | CatSyntax | CatData => Some InvalidData
      | CatEof => Some UnexpectedEof
      end
  end.

Definition category_eqb (x y : Category) : bool :=
  match x, y with
  | CatIo, CatIo | CatSyntax, CatSyntax | CatData, CatData | CatEof, CatEof => true
  | _, _ => false
  end.

(** [Error::is_io], [is_syntax], [is_data], [is_eof]. *)
Definition is_io (e : Error) : bool := category_eqb (classify e) CatIo.
Definition is_syntax (e : Error) : bool := category_eqb (classify e) CatSyntax.
Definition is_data (e : Error) : bool := category_eqb (classify e) CatData.
Definition is_eof (e : Error) : bool := category_eqb (classify e) CatEof.

(** ** Further definitions: number accessors (src/number.rs) *)

Definition i64_MAX : Z := 2 ^ 63 - 1.

(** [NumCast::from] into [i64] and into [u64]: [Some] when the value fits. *)
Definition numcast_i64 (v : Z) : option Z :=
  if (- 2 ^ 63 <=? v) && (v <=? i64_MAX) then Some v else None.
Definition numcast_u64 (v : Z) : option Z :=
  if (0 <=? v) && (v <=? u64_MAX) then Some v else None.

(** [Number::is_i64], [is_u64], [is_f64], [as_i64], [as_u64]. *)
Definition is_i64 (x : Number) : bool :=
  match n x with PosInt v => v <=? i64_MAX | NegInt _ => true | Float _ => false end.
Definition is_u64 (x : Number) : bool :=
  match n x with PosInt _ => true | NegInt _ | Float _ => false end.
Definition is_f64 (x : Number) : bool :=
  match n x with Float _ => true | PosInt _ | NegInt _ => false end.
Definition as_i64 (x : Number) : option Z :=
  match n x with PosInt v => numcast_i64 v | NegInt v => Some v | Float _ => None end.
Definition as_u64 (x : Number) : option Z :=
  match n x with PosInt v => Some v | NegInt v => numcast_u64 v | Float _ => None end.

(** [Option::is_some]. *)
Definition is_some {A} (o : option A) : bool := match o with Some _ => true | None => false end.

(** The payloads the constructors of [Number] can hold: a [u64], a
    negative [i64], a finite [f64]. *)
Definition number_wf (x : Number) : Prop :=
  match n x with
  | PosInt v => 0 <= v <= u64_MAX
  | NegInt v => - 2 ^ 63 <= v < 0
  | Float f => f64_is_finite f = true
  end.

(** ** Further definitions: encoder *)

(** Map keys [MapKeySerializer] writes: strings, unit variants, integers,
    and newtype structs around them. *)
Fixpoint key_ok (k : ser_key) : bool :=
  match k with
  | KeyStr _ | KeyUnitVariant _ | KeyInt _ => true
  | KeyNewtypeStruct k' => key_ok k'
  | _ => false
  end.

(** Every map key inside a value is one [MapKeySerializer] writes. *)
Fixpoint keys_ok (v : ser_value) : bool :=
  match v with
  | SerSeq xs => forallb keys_ok xs
  | SerMap es => forallb (fun e => key_ok (fst e) && keys_ok (snd e)) es
  | SerStruct fs => forallb (fun e => keys_ok (snd e)) fs
  | _ => true
  end.

(** What [format_escaped_str_contents] writes for one byte with the
    default [write_char_escape]. *)
Definition escape_byte (c : byte) : bytes :=
  let e := ESCAPE c in
  if Byte.eqb e x00 then [c]
  else snd (FormatterDefaults.write_char_escape CompactFormatter_ (from_escape_table e c)).

Definition escape_all (s : bytes) : bytes := flat_map escape_byte s.

(** [Formatter::write_bare_string]: [to_string(value).unwrap()], then the
    slice [&n[1..n.len() - 1]]; [None] is a panic, either from [unwrap] or
    from a text shorter than two bytes.  The first and last bytes of an
    encoder output are ASCII, so the slice bounds are char boundaries. *)
Definition write_bare_string (value : ser_value) : option bytes :=
  match to_vec value with
  | inl _ => None
  | inr t =>
      if (2 <=? List.length t)%nat then Some (firstn (List.length t - 2) (skipn 1 t))
      else None
  end.

(** [Serializer::serialize_newtype_struct]: the formatter's
    [write_bare_string] writes straight to the writer; [None] is a panic. *)
Definition serialize_newtype_struct {F} (value : ser_value) (s : Serializer F)
  : option (sresult F unit) :=
  match write_bare_string value with
  | Some out => Some (SOk tt (mkser (writer s ++ out) (formatter s)))
  | None => None
  end.

(** [impl Serialize for Atom]: a symbol as a newtype struct around its
    text, a keyword or a string through [serialize_str]. *)
Definition atom_serialize {F} `{Formatter F} (a : Atom) (s : Serializer F)
  : option (sresult F unit) :=
  match a with
  | Symbol x => serialize_newtype_struct (SerStr x) s
  | Keyword x | AString x => Some (serialize_str x s)
  end.

(** [Atom::as_str]. *)
Definition as_str (a : Atom) : bytes :=
  match a with Symbol s | Keyword s | AString s => s end.

(** [Atom::from_string] after [deserialize_any] on an atom: the visitor
    receives the stored text and discriminates it again. *)
Definition atom_reread (a : Atom) : Atom := discriminate (as_str a).

(** Whether the next unread byte, if any, is not a digit. *)
Definition no_digit_head (r : bytes) : bool :=
  match r with [] => true | c :: _ => negb (is_digit c) end.

(** Parts joined by a separator. *)
Definition join_with (sep : bytes) (l : list bytes) : bytes :=
  match l with
  | [] => []
  | x :: l' => x ++ flat_map (fun y => sep ++ y) l'
  end.

(** The compact text of a struct field: the escaped name in quotes, [.],
    then the value's text. *)
Definition field_text (k o : bytes) : bytes := x22 :: escape_all k ++ x22 :: "."%byte :: o.

(** An encoder result with [w] written before everything it wrote. *)
Definition sshift {F A} (w : bytes) (r : sresult F A) : sresult F A :=
  match r with
  | SOk a s => SOk a (mkser (w ++ writer s) (formatter s))
  | SErr e s => SErr e (mkser (w ++ writer s) (formatter s))
  end.

(** An encoder step that only appends to the writer and never reads it. *)
Definition shiftable {F A} (m : Serializer F -> sresult F A) : Prop :=
  forall w f, m (mkser w f) = sshift w (m (mkser [] f)).

Definition succeeds {F A} (m : Serializer F -> sresult F A) : Prop :=
  forall s, exists a s', m s = SOk a s'.

Definition fails {F A} (m : Serializer F -> sresult F A) : Prop :=
  forall s, exists e s', m s = SErr e s'.

(** A pretty-printing step that, when it succeeds, leaves the indentation
    level and unit as it found them. *)
Definition keeps_indent {A} (m : Serializer PrettyFormatter -> sresult PrettyFormatter A) : Prop :=
  forall s a s', m s = SOk a s' ->
  current_indent (formatter s') = current_indent (formatter s) /\
  indent_unit (formatter s') = indent_unit (formatter s).

(** Values written by the encoder that the [Sexp] decoder can read back:
    booleans, integers of the [i64] or [u64] range, and sequences of them. *)
Fixpoint plain_tree (v : ser_value) : bool :=
  match v with
  | SerBool _ => true
  | SerInt z => (- 2 ^ 63 <=? z) && (z <=? u64_MAX)
  | SerSeq xs => forallb plain_tree xs
  | _ => false
  end.

(** The nesting of sequences in a value. *)
Fixpoint nesting (v : ser_value) : nat :=
  match v with
  | SerSeq xs => S (list_max (map nesting xs))
  | _ => O
  end.

(** The compact text of such a value. *)
Fixpoint tree_text (v : ser_value) : bytes :=
  match v with
  | SerBool x => if x then b "#t" else b "#f"
  | SerInt z => itoa z
  | SerSeq xs => "("%byte :: join_with [" "%byte] (map tree_text xs) ++ [")"%byte]
  | _ => []
  end.

(** The [Sexp] the decoder builds for it. *)
Fixpoint tree_sexp (v : ser_value) : Sexp :=
  match v with
  | SerBool x => Boolean x
  | SerInt z => SNumber (if z <? 0 then number_from_i64 z else number_from_u64 z)
  | SerSeq xs => List (map tree_sexp xs)
  | _ => Nil
  end.

(** A bound on the recursion the decoder needs for it. *)
Fixpoint tree_fuel (v : ser_value) : nat :=
  match v with
  | SerSeq xs => (List.length xs + 5 + list_max (map tree_fuel xs))%nat
  | _ => 1%nat
  end.

(** What may follow a value inside the encoder's text. *)
Definition follows_value (r : bytes) : bool :=
  match r with [] => true | c :: _ => is_ws c || Byte.eqb c ")"%byte end.

(** * Properties *)

(** ** Concrete behaviours *)

(** C1: decoding [#nil] through [parse_value] into a [Sexp] gives the
    boolean [true], not [Nil]. *)
Theorem C1_hash_nil_is_true :
  from_str SSexp "#nil" = Ok (VSexp (Boolean true)) (mkde [] 128).
Proof. vm_compute. reflexivity. Qed.

(** C3: decoding [(a ] (an element, one space, then end of input) into a
    [Sexp] panics at [self.de.peek()?.unwrap()] in [next_element_seed]. *)
Theorem C3_list_space_eof_panics :
  from_str SSexp "(a " = Panic.
Proof. vm_compute. reflexivity. Qed.

(** C7: a payload between double quotes keeps its closing quote:
    [discriminate] yields [AString] of everything after the first byte. *)
Theorem C7_string_keeps_closing_quote (s : bytes) :
  discriminate (x22 :: s ++ [x22]) = AString (s ++ [x22]).
Proof.
  unfold discriminate, ends_with. simpl.
  rewrite rev_app_distr. simpl. reflexivity.
Qed.

Lemma open_parens_S (k : nat) (r : bytes) : open_parens (S k) ++ r = "("%byte :: open_parens k ++ r.
Proof. reflexivity. Qed.

Lemma next_element_open_err (f : nat) (elt : shape) (x : bytes) (d : Z) e st1 :
  deserialize f elt (mkde ("("%byte :: x) d) = Err e st1 ->
  next_element (S f) elt true (mkde ("("%byte :: x) d) = Err e st1.
Proof. intros H. simpl. unfold bind, peek. simpl. rewrite H. reflexivity. Qed.

Lemma seq_elements_err (f : nat) (elt : shape) first st0 e st1 :
  next_element f elt first st0 = Err e st1 ->
  seq_elements (S f) elt first st0 = Err e st1.
Proof. intros H. simpl. unfold bind at 1. rewrite H. reflexivity. Qed.

Lemma visit_seq_sexp_err (f : nat) st0 e st1 :
  seq_elements f SSexp true st0 = Err e st1 ->
  visit_seq (S f) SSexp st0 = Err e st1.
Proof. intros H. simpl. unfold bind at 1. rewrite H. reflexivity. Qed.

Lemma parse_value_open (f : nat) (s : shape) (x : bytes) (d : Z) :
  0 < d - 1 ->
  parse_value (S f) s (mkde ("("%byte :: x) d)
  = match visit_seq f s (mkde x (d - 1)) with
    | Ok v st1 => close_seq (inr v) st1
    | Err e st1 => close_seq (inl e) st1
    | Panic => Panic
    | OutOfFuel => OutOfFuel
    end.
Proof.
  intros Hd. cbn [parse_value]. unfold bind at 1, parse_whitespace. simpl.
  unfold u8_dec. destruct (Z.eqb_spec d 0); [lia|].
  destruct (Z.eqb_spec (d - 1) 0); [lia|]. reflexivity.
Qed.

Lemma close_seq_err_open (e : ErrorCode) (y : bytes) (m : Z) :
  m <> 255 ->
  close_seq (inl e) (mkde ("("%byte :: y) m) = Err e (mkde ("("%byte :: y) (m + 1)).
Proof.
  intros Hm. unfold close_seq, u8_inc. simpl.
  destruct (Z.eqb_spec m 255); [contradiction|]. reflexivity.
Qed.

Lemma parse_value_nested_limit (m : nat) : forall (f k : nat) (r : bytes),
  (5 * S m <= f)%nat -> (S m <= k)%nat -> (m < 255)%nat ->
  parse_value f SSexp (mkde (open_parens k ++ r) (Z.of_nat (S m)))
  = Err RecursionLimitExceeded (mkde (open_parens (k - m) ++ r) (Z.of_nat m)).
Proof.
  induction m as [|m IH]; intros f k r Hf Hk Hm.
  - destruct f as [|f]; [lia|]. destruct k as [|k]; [lia|].
    rewrite open_parens_S. simpl. reflexivity.
  - do 5 (destruct f as [|f]; [lia|]). destruct k as [|k]; [lia|].
    rewrite open_parens_S, parse_value_open by lia.
    replace (Z.of_nat (S (S m)) - 1) with (Z.of_nat (S m)) by lia.
    rewrite (visit_seq_sexp_err _ _ RecursionLimitExceeded
               (mkde (open_parens (k - m) ++ r) (Z.of_nat m))).
    + replace (k - m)%nat with (S (k - S m)) by lia.
      rewrite open_parens_S, close_seq_err_open by lia.
      replace (S k - S m)%nat with (S (k - S m)) by lia.
      rewrite open_parens_S. f_equal. f_equal. lia.
    + apply seq_elements_err.
      destruct k as [|k']; [lia|]. rewrite open_parens_S.
      apply next_element_open_err. cbn [deserialize].
      rewrite <- open_parens_S. apply IH; lia.
Qed.

Lemma fuel_for_open (n : nat) (r : bytes) (d : Z) :
  fuel_for (mkde (open_parens n ++ r) d) = S (16 * (n + List.length r + 4) - 1).
Proof.
  unfold fuel_for, open_parens. simpl. rewrite length_app, repeat_length. lia.
Qed.

(** C4 (amended): with the counter at 128, [n >= 128] opening
    parentheses decoded as a [Sexp] stop with [RecursionLimitExceeded] at
    the 128th, unwinding without a panic; decoded as a record with named
    fields they stop with [ExpectedSomeIdent] at the second, as a record
    entry must start with an identifier; both codes are in the Syntax
    category. *)
Theorem C4_amended_recursion_limit (n : nat) (r : bytes) (fs : list (bytes * shape)) :
  (128 <= n)%nat ->
  from_trait SSexp (open_parens n ++ r)
  = Err RecursionLimitExceeded (mkde (open_parens (n - 127) ++ r) 127) /\
  from_trait (SStruct fs) (open_parens n ++ r)
  = Err ExpectedSomeIdent (mkde (open_parens (n - 2) ++ r) 128) /\
  (forall l col, classify (mkError RecursionLimitExceeded l col) = CatSyntax) /\
  (forall l col, classify (mkError ExpectedSomeIdent l col) = CatSyntax).
Proof.
  intros Hn. split; [|split; [|split; reflexivity]].
  - unfold from_trait, Deserialize, Deserializer_new, bind.
    rewrite fuel_for_open. cbn [deserialize].
    change 128 with (Z.of_nat (S 127)).
    rewrite parse_value_nested_limit by lia. reflexivity.
  - unfold from_trait, Deserialize, Deserializer_new, bind.
    rewrite fuel_for_open.
    destruct n as [|[|[|n]]]; [lia|lia|lia|].
    replace (16 * (S (S (S n)) + List.length r + 4) - 1)%nat
      with (S (S (16 * (S (S (S n)) + List.length r + 4) - 3))) by lia.
    generalize (16 * (S (S (S n)) + List.length r + 4) - 3)%nat. intros f.
    rewrite !open_parens_S. cbn [deserialize visit_map].
    cbv [bind next_key map_key parse_whitespace eat_char peek_error throw ret].
    simpl. rewrite ?Nat.sub_0_r. reflexivity.
Qed.

(** C4: a record target on 129 opening parentheses does not reach the
    recursion limit: [deserialize_struct] leaves [remaining_depth] at 128
    and the error is [ExpectedSomeIdent]. *)
Lemma C4_struct_target_not_recursion_limit :
  from_trait (SStruct [(b "a", SSexp)]) (open_parens 129)
  = Err ExpectedSomeIdent (mkde (open_parens 127) 128).
Proof. vm_compute. reflexivity. Qed.

(** C5: the text of [u64::MAX] decodes to [PositiveInteger u64::MAX]; the
    same text with one more digit decodes to a [Float], not an error. *)
Theorem C5_u64_max_boundary :
  from_str SSexp "18446744073709551615"
  = Ok (VSexp (SNumber (mkNumber (PosInt u64_MAX)))) (mkde [] 128) /\
  (forall d : byte, is_digit d = true ->
   exists f, from_trait SSexp (b "18446744073709551615" ++ [d])
             = Ok (VSexp (SNumber (mkNumber (Float f)))) (mkde [] 128)).
Proof.
  split; [vm_compute; reflexivity|].
  intros d Hd. destruct d; try discriminate Hd; eexists; vm_compute; reflexivity.
Qed.

Lemma C4_amended_recursion_limit_witness :
  (128 <= 129)%nat /\
  from_trait SSexp (open_parens 129 ++ [])
  = Err RecursionLimitExceeded (mkde (open_parens (129 - 127) ++ []) 127).
Proof.
  split; [lia|].
  exact (proj1 (C4_amended_recursion_limit 129 [] [] ltac:(lia))).
Defined.

Lemma C5_u64_max_boundary_witness :
  is_digit "7"%byte = true /\
  exists f, from_trait SSexp (b "18446744073709551615" ++ ["7"%byte])
            = Ok (VSexp (SNumber (mkNumber (Float f)))) (mkde [] 128).
Proof.
  split; [reflexivity|].
  exact (proj2 C5_u64_max_boundary "7"%byte eq_refl).
Defined.

(** ** Integer literals *)

Lemma digit_val_range (c : byte) : is_digit c = true -> 0 <= digit_val c <= 9.
Proof.
  unfold is_digit, digit_val. rewrite Bool.andb_true_iff, !Z.leb_le. lia.
Qed.

Lemma overflow_u64_MAX (a bb : Z) :
  0 <= bb <= 9 -> overflow a bb u64_MAX = true <-> u64_MAX < a * 10 + bb.
Proof.
  intros Hb. unfold overflow.
  replace (u64_MAX / 10) with 1844674407370955161 by reflexivity.
  replace (u64_MAX mod 10) with 5 by reflexivity.
  unfold u64_MAX. rewrite Bool.andb_true_iff, Bool.orb_true_iff, Z.leb_le, !Z.ltb_lt.
  lia.
Qed.

Lemma digits_value_ge (ds : bytes) : forall acc,
  0 <= acc -> forallb is_digit ds = true -> acc <= digits_value acc ds.
Proof.
  induction ds as [|c ds IH]; intros acc Hacc Hds; simpl in *; [lia|].
  apply Bool.andb_true_iff in Hds as [Hc Hds].
  pose proof (digit_val_range c Hc).
  specialize (IH (acc * 10 + digit_val c) ltac:(lia) Hds). lia.
Qed.

Lemma parse_number_end (pos : bool) (m : Z) (r : bytes) (d : Z) :
  ends_literal r = true ->
  parse_number pos m (mkde r d)
  = if pos then Ok (U64 m) (mkde r d)
    else let neg := i64_wrapping_neg (u64_as_i64 m) in
         if 0 <? neg then Ok (F64 (f64_neg (f64_of_Z m))) (mkde r d)
         else Ok (I64 neg) (mkde r d).
Proof.
  intros Hr. unfold parse_number, bind, peek_or_null. simpl.
  destruct r as [|c r].
  - simpl. destruct pos; [reflexivity|]. cbv zeta.
    destruct (0 <? i64_wrapping_neg (u64_as_i64 m)); reflexivity.
  - simpl in Hr. apply Bool.andb_true_iff in Hr as [_ Hr].
    apply Bool.negb_true_iff in Hr. rewrite Hr. destruct pos; [reflexivity|]. cbv zeta.
    destruct (0 <? i64_wrapping_neg (u64_as_i64 m)); reflexivity.
Qed.

Lemma neg_small (m : Z) : 0 <= m <= 2 ^ 63 -> i64_wrapping_neg (u64_as_i64 m) = - m.
Proof.
  intros Hm. unfold i64_wrapping_neg, i64_wrap, u64_as_i64.
  destruct (Z.ltb_spec m (2 ^ 63)).
  - rewrite Z.mod_small; lia.
  - replace m with (2 ^ 63) by lia. reflexivity.
Qed.

Lemma neg_large (m : Z) : 2 ^ 63 < m <= u64_MAX -> i64_wrapping_neg (u64_as_i64 m) = 2 ^ 64 - m.
Proof.
  unfold u64_MAX. intros Hm. unfold i64_wrapping_neg, i64_wrap, u64_as_i64.
  destruct (Z.ltb_spec m (2 ^ 63)); [lia|].
  rewrite Z.mod_small; lia.
Qed.

Lemma f64_from_parts_nonneg (pos : bool) (sig e : Z) (st : de) :
  0 <= e ->
  (exists f, f64_from_parts pos sig e st = Ok f st) \/
  f64_from_parts pos sig e st = Err NumberOutOfRange st.
Proof.
  intros He. unfold f64_from_parts, bind. cbn [f64_from_parts_loop].
  destruct (POW10_get (Z.abs e)) as [pow|].
  - destruct (Z.leb_spec 0 e); [|lia].
    destruct (f64_is_infinite (f64_mul (f64_of_Z sig) pow)); [right; reflexivity|].
    left. eexists. reflexivity.
  - destruct (f64_eq_zero (f64_of_Z sig)); [left; eexists; reflexivity|].
    destruct (Z.leb_spec 0 e); [|lia]. right. reflexivity.
Qed.

Lemma long_integer_digits_end (ds r : bytes) : forall e,
  forallb is_digit ds = true -> ends_literal r = true ->
  long_integer_digits e (ds ++ r) = (e + Z.of_nat (List.length ds), r).
Proof.
  induction ds as [|c ds IH]; intros e Hds Hr.
  - cbn [List.length app]. rewrite Nat2Z.inj_0, Z.add_0_r.
    destruct r as [|c r]; [reflexivity|].
    simpl in Hr. apply Bool.andb_true_iff in Hr as [Hr _].
    apply Bool.negb_true_iff in Hr. simpl. rewrite Hr. reflexivity.
  - simpl in Hds. apply Bool.andb_true_iff in Hds as [Hc Hds].
    cbn [List.length app long_integer_digits]. rewrite Hc, IH by assumption.
    f_equal. lia.
Qed.

Lemma parse_long_integer_end (pos : bool) (sig e : Z) (ds r : bytes) (d : Z) :
  0 <= e -> forallb is_digit ds = true -> ends_literal r = true ->
  (exists f, parse_long_integer pos sig e (mkde (ds ++ r) d) = Ok f (mkde r d)) \/
  parse_long_integer pos sig e (mkde (ds ++ r) d) = Err NumberOutOfRange (mkde r d).
Proof.
  intros He Hds Hr. unfold parse_long_integer. simpl.
  rewrite long_integer_digits_end by assumption.
  unfold bind, peek_or_null, with_rest. simpl.
  assert (Hdot : Byte.eqb (match r with c :: _ => c | [] => x00 end) "."%byte = false).
  { destruct r as [|c r]; [reflexivity|]. simpl in Hr.
    apply Bool.andb_true_iff in Hr as [_ Hr]. apply Bool.negb_true_iff in Hr. exact Hr. }
  rewrite Hdot. apply f64_from_parts_nonneg. lia.
Qed.

Lemma parse_integer_loop_end (pos : bool) (ds r : bytes) (d : Z) : forall res,
  forallb is_digit ds = true -> ends_literal r = true -> 0 <= res <= u64_MAX ->
  (digits_value res ds <= u64_MAX ->
   parse_integer_loop pos res (ds ++ r) d = parse_number pos (digits_value res ds) (mkde r d)) /\
  (u64_MAX < digits_value res ds ->
   (exists f, parse_integer_loop pos res (ds ++ r) d = Ok (F64 f) (mkde r d)) \/
   parse_integer_loop pos res (ds ++ r) d = Err NumberOutOfRange (mkde r d)).
Proof.
  induction ds as [|c ds IH]; intros res Hds Hr Hres.
  - cbn [digits_value app]. split; [|lia]. intros _.
    destruct r as [|c r]; [reflexivity|].
    simpl in Hr. apply Bool.andb_true_iff in Hr as [Hr _].
    apply Bool.negb_true_iff in Hr. simpl. rewrite Hr. reflexivity.
  - simpl in Hds. apply Bool.andb_true_iff in Hds as [Hc Hds].
    pose proof (digit_val_range c Hc) as Hdig.
    cbn [digits_value app parse_integer_loop]. rewrite Hc.
    destruct (overflow res (digit_val c) u64_MAX) eqn:Hov.
    + apply overflow_u64_MAX in Hov; [|lia].
      pose proof (digits_value_ge ds (res * 10 + digit_val c) ltac:(lia) Hds).
      split; [lia|]. intros _.
      destruct (parse_long_integer_end pos res 1 ds r d ltac:(lia) Hds Hr)
        as [[f Hf]|Hf]; unfold fmap, bind; rewrite Hf; [left; eexists|right]; reflexivity.
    + assert (Hle : res * 10 + digit_val c <= u64_MAX).
      { destruct (Z.leb_spec (res * 10 + digit_val c) u64_MAX); [lia|].
        apply (overflow_u64_MAX res (digit_val c)) in H; [congruence|lia]. }
      apply IH; [assumption|assumption|lia].
Qed.

Lemma digits2_pos_bound (p : positive) :
  2 ^ (Zpos (digits2_pos p) - 1) <= Zpos p.
Proof.
  induction p as [p IH|p IH|]; cbn [digits2_pos]; [| |reflexivity];
    rewrite Pos2Z.inj_succ; replace (Z.succ (Zpos (digits2_pos p)) - 1)
      with (Z.succ (Zpos (digits2_pos p) - 1)) by lia;
    rewrite Z.pow_succ_r by lia; lia.
Qed.

Lemma shr_1_m (mrs : shr_record) :
  0 <= shr_m mrs -> shr_m (shr_1 mrs) = shr_m mrs / 2.
Proof.
  destruct mrs as [m r s]. cbn [shr_m]. intros Hm.
  rewrite <- Z.div2_div. destruct m as [|[q|q|]|q]; try reflexivity; lia.
Qed.

Lemma iter_shr_1 (p : positive) : forall mrs,
  0 <= shr_m mrs -> shr_m (iter_pos shr_1 p mrs) = shr_m mrs / 2 ^ Zpos p.
Proof.
  induction p as [p IH|p IH|]; intros mrs Hm; cbn [iter_pos].
  - assert (H1 : 0 <= shr_m (shr_1 mrs)) by (rewrite shr_1_m by exact Hm; apply Z.div_pos; lia).
    assert (H2 : 0 <= shr_m (iter_pos shr_1 p (shr_1 mrs)))
      by (rewrite IH by exact H1; apply Z.div_pos; lia).
    rewrite IH, IH, shr_1_m by assumption.
    rewrite !Z.div_div by (try apply Z.mul_pos_pos; lia).
    f_equal. replace (Zpos p~1) with (Zpos p + Zpos p + 1) by lia.
    rewrite !Z.pow_add_r by lia. ring.
  - assert (H2 : 0 <= shr_m (iter_pos shr_1 p mrs))
      by (rewrite IH by exact Hm; apply Z.div_pos; lia).
    rewrite IH, IH by assumption.
    rewrite Z.div_div by lia.
    f_equal. replace (Zpos p~0) with (Zpos p + Zpos p) by lia.
    rewrite !Z.pow_add_r by lia. ring.
  - apply shr_1_m, Hm.
Qed.

Lemma shr_fexp_pos (m : positive) (e : Z) (l : location) :
  -1020 <= e ->
  0 < shr_m (fst (shr_fexp 53 1024 (Zpos m) e l)) /\ e <= snd (shr_fexp 53 1024 (Zpos m) e l).
Proof.
  intros He. pose proof (digits2_pos_bound m) as Hb.
  assert (Hd : 1 <= Zpos (digits2_pos m)) by lia.
  unfold shr_fexp, fexp, emin. cbn [Zdigits2].
  replace (Z.max (Zpos (digits2_pos m) + e - 53) (3 - 1024 - 53) - e)
    with (Zpos (digits2_pos m) - 53) by lia.
  assert (Hm : shr_m (shr_record_of_loc (Zpos m) l) = Zpos m)
    by (destruct l as [|[]]; reflexivity).
  unfold shr. destruct (Zpos (digits2_pos m) - 53) as [|q|q] eqn:Eq; cbn [fst snd].
  - rewrite Hm. lia.
  - rewrite iter_shr_1 by lia. rewrite Hm. split; [|lia].
    apply Z.div_str_pos. split; [apply Z.pow_pos_nonneg; lia|].
    rewrite <- Eq. eapply Z.le_trans; [|exact Hb]. apply Z.pow_le_mono_r; lia.
  - rewrite Hm. lia.
Qed.

Lemma f64_of_Z_pos_nonzero (p : positive) : f64_eq_zero (f64_of_Z (Zpos p)) = false.
Proof.
  unfold f64_of_Z, binary_normalize, binary_round.
  match goal with |- context [shl_align ?a ?b ?c] =>
    destruct (shl_align a b c) as [mz ez] eqn:Hsh end.
  assert (Hez : -1020 <= ez).
  { unfold shl_align, fexp, emin in Hsh. change IntDef.Z.max with Z.max in Hsh.
    set (x := Z.max (Zpos (digits2_pos p) + 0 - 53) (3 - 1024 - 53)) in Hsh.
    assert (Hx : -52 <= x) by (subst x; lia). clearbody x.
    destruct (x - 0); injection Hsh as <- <-; lia. }
  unfold binary_round_aux.
  destruct (shr_fexp 53 1024 (Zpos mz) ez loc_Exact) as [mrs1 e1] eqn:H1.
  pose proof (shr_fexp_pos mz ez loc_Exact Hez) as [Hp1 He1]. rewrite H1 in Hp1, He1.
  cbn [fst snd] in Hp1, He1.
  assert (Hr : shr_m mrs1 <= round_nearest_even (shr_m mrs1) (loc_of_shr_record mrs1))
    by (destruct (loc_of_shr_record mrs1) as [|[]]; cbn [round_nearest_even];
        try destruct (Z.even _); lia).
  destruct (round_nearest_even (shr_m mrs1) (loc_of_shr_record mrs1)) as [|q|q] eqn:Hq;
    try lia.
  destruct (shr_fexp 53 1024 (Zpos q) e1 loc_Exact) as [mrs2 e2] eqn:H2.
  pose proof (shr_fexp_pos q e1 loc_Exact ltac:(lia)) as [Hp2 _]. rewrite H2 in Hp2.
  cbn [fst] in Hp2.
  destruct (shr_m mrs2) as [|m2|m2]; try lia.
  destruct (e2 <=? 1024 - 53); reflexivity.
Qed.

Lemma digits_value_split (ds : bytes) : forall acc,
  digits_value acc ds = acc * 10 ^ Z.of_nat (List.length ds) + digits_value 0 ds.
Proof.
  induction ds as [|c ds IH]; intros acc; cbn [digits_value List.length].
  - cbn. lia.
  - rewrite IH, (IH (0 * 10 + digit_val c)). rewrite Nat2Z.inj_succ, Z.pow_succ_r by lia. ring.
Qed.

Lemma digits_value_lt (ds : bytes) :
  forallb is_digit ds = true -> 0 <= digits_value 0 ds < 10 ^ Z.of_nat (List.length ds).
Proof.
  induction ds as [|c ds IH]; intros Hds; [cbn; lia|].
  cbn [forallb] in Hds. apply Bool.andb_true_iff in Hds as [Hc Hds].
  pose proof (digit_val_range c Hc). specialize (IH Hds).
  cbn [digits_value List.length]. rewrite digits_value_split.
  rewrite Nat2Z.inj_succ, Z.pow_succ_r by lia. nia.
Qed.

Lemma parse_long_integer_digits (pos : bool) (sig e : Z) (ds r : bytes) (d : Z) :
  forallb is_digit ds = true -> ends_literal r = true ->
  parse_long_integer pos sig e (mkde (ds ++ r) d)
  = f64_from_parts pos sig (e + Z.of_nat (List.length ds)) (mkde r d).
Proof.
  intros Hds Hr. unfold parse_long_integer. simpl.
  rewrite long_integer_digits_end by assumption.
  unfold bind, peek_or_null, with_rest. simpl.
  assert (Hdot : Byte.eqb (match r with c :: _ => c | [] => x00 end) "."%byte = false).
  { destruct r as [|c r]; [reflexivity|]. simpl in Hr.
    apply Bool.andb_true_iff in Hr as [_ Hr]. apply Bool.negb_true_iff in Hr. exact Hr. }
  rewrite Hdot. reflexivity.
Qed.

Lemma parse_integer_loop_long (ds r : bytes) (d : Z) : forall res,
  forallb is_digit ds = true -> ends_literal r = true -> 0 <= res <= u64_MAX ->
  u64_MAX < digits_value res ds ->
  exists e, 0 < e /\ digits_value res ds / 10 ^ e <= u64_MAX < digits_value res ds / 10 ^ (e - 1) /\
  forall pos, parse_integer_loop pos res (ds ++ r) d
              = fmap F64 (f64_from_parts pos (digits_value res ds / 10 ^ e) e) (mkde r d).
Proof.
  induction ds as [|c ds IH]; intros res Hds Hr Hres Hgt; [cbn in Hgt; lia|].
  simpl in Hds. apply Bool.andb_true_iff in Hds as [Hc Hds].
  pose proof (digit_val_range c Hc) as Hdig.
  destruct (overflow res (digit_val c) u64_MAX) eqn:Hov.
  - apply overflow_u64_MAX in Hov; [|lia].
    pose proof (digits_value_lt ds Hds) as Hv.
    set (L := Z.of_nat (List.length ds)) in *.
    assert (HL : 0 <= L) by lia.
    exists (1 + L). cbn [digits_value]. rewrite digits_value_split. fold L.
    assert (Hp : 0 < 10 ^ L) by (apply Z.pow_pos_nonneg; lia).
    replace (1 + L - 1) with L by lia.
    rewrite Z.pow_add_r by lia. replace (10 ^ 1) with 10 by reflexivity.
    assert (Hq1 : ((res * 10 + digit_val c) * 10 ^ L + digits_value 0 ds) / 10 ^ L
                  = res * 10 + digit_val c).
    { rewrite Z.div_add_l by lia. rewrite Z.div_small by lia. lia. }
    assert (Hq2 : ((res * 10 + digit_val c) * 10 ^ L + digits_value 0 ds) / (10 * 10 ^ L) = res).
    { replace (10 * 10 ^ L) with (10 ^ L * 10) by ring. rewrite <- Z.div_div, Hq1 by lia.
      rewrite Z.div_add_l by lia. rewrite Z.div_small by lia. lia. }
    rewrite Hq1, Hq2. split; [lia|split; [lia|]]. intros pos.
    cbn [app parse_integer_loop]. rewrite Hc.
    replace (overflow res (digit_val c) u64_MAX) with true
      by (symmetry; apply overflow_u64_MAX; lia).
    unfold fmap, bind. rewrite parse_long_integer_digits by assumption. reflexivity.
  - assert (Hle : res * 10 + digit_val c <= u64_MAX).
    { destruct (Z.leb_spec (res * 10 + digit_val c) u64_MAX); [lia|].
      apply (overflow_u64_MAX res (digit_val c)) in H; [congruence|lia]. }
    destruct (IH (res * 10 + digit_val c) Hds Hr ltac:(lia) Hgt) as [e [He [Hb Hl]]].
    exists e. split; [exact He|split; [exact Hb|]]. intros pos.
    cbn [app parse_integer_loop]. rewrite Hc, Hov. apply Hl.
Qed.

Lemma f64_from_parts_pos_exp (pos : bool) (sig e : Z) (st : de) :
  0 < sig -> 0 < e ->
  f64_from_parts pos sig e st =
  let f := f64_mul (f64_of_Z sig) (f64_of_Z (10 ^ e)) in
  if (e <=? 308) && negb (f64_is_infinite f)
  then Ok (if pos then f else f64_neg f) st
  else Err NumberOutOfRange st.
Proof.
  intros Hs He. unfold f64_from_parts, bind. cbn [f64_from_parts_loop]. unfold POW10_get.
  rewrite Z.abs_eq by lia.
  replace (0 <=? e) with true by (symmetry; apply Z.leb_le; lia). cbn [andb].
  destruct (e <=? 308); cbn [andb].
  - cbv zeta. destruct (f64_is_infinite (f64_mul (f64_of_Z sig) (f64_of_Z (10 ^ e))));
      reflexivity.
  - destruct sig as [|p|p]; try lia. rewrite f64_of_Z_pos_nonzero. reflexivity.
Qed.

(** C6 (amended): for a well-formed integer literal of magnitude [m]
    (read by [parse_integer] after [parse_value] has consumed any [-]),
    an unsigned literal is [U64 m] when [m <= u64::MAX]; a negative one is
    [I64 (-m)] when [m <= 2^63] and [F64 (-(m as f64))] when
    [2^63 < m <= u64::MAX].  Beyond [u64::MAX] the decoder keeps the
    longest prefix [P = m / 10^e] that fits in a [u64] and counts the [e]
    dropped digits: either sign gives [F64 (+/- (P as f64 * 1e_e))] when
    [e <= 308] and that product is finite, and [NumberOutOfRange]
    otherwise. *)
Theorem C6_amended_integer_literals (ds r : bytes) (d : Z) :
  is_integer_literal ds = true -> ends_literal r = true ->
  let m := digits_value 0 ds in
  let st0 := mkde (ds ++ r) d in
  (m <= u64_MAX -> parse_integer true st0 = Ok (U64 m) (mkde r d)) /\
  (m <= 2 ^ 63 -> parse_integer false st0 = Ok (I64 (- m)) (mkde r d)) /\
  (2 ^ 63 < m <= u64_MAX ->
   parse_integer false st0 = Ok (F64 (f64_neg (f64_of_Z m))) (mkde r d)) /\
  (u64_MAX < m ->
   exists e, 0 < e /\ m / 10 ^ e <= u64_MAX < m / 10 ^ (e - 1) /\
   forall pos,
   let f := f64_mul (f64_of_Z (m / 10 ^ e)) (f64_of_Z (10 ^ e)) in
   parse_integer pos st0 =
   if (e <=? 308) && negb (f64_is_infinite f)
   then Ok (F64 (if pos then f else f64_neg f)) (mkde r d)
   else Err NumberOutOfRange (mkde r d)).
Proof.
  intros Hlit Hr m st0.
  assert (Hm0 : 0 <= m) by (apply digits_value_ge; [lia|];
    destruct ds; [discriminate|]; simpl in Hlit; apply Bool.andb_true_iff in Hlit; tauto).
  assert (Hint : forall pos,
    (m <= u64_MAX -> parse_integer pos st0 = parse_number pos m (mkde r d)) /\
    (u64_MAX < m -> (exists f, parse_integer pos st0 = Ok (F64 f) (mkde r d)) \/
                    parse_integer pos st0 = Err NumberOutOfRange (mkde r d))).
  { intros pos. subst m st0.
    destruct ds as [|c ds]; [discriminate|].
    cbn [is_integer_literal forallb] in Hlit.
    apply Bool.andb_true_iff in Hlit as [Hlit Hz].
    apply Bool.andb_true_iff in Hlit as [Hc Hds].
    pose proof (digit_val_range c Hc) as Hdig.
    unfold parse_integer, bind, next_char_or_null, next_char, ret. cbn.
    destruct (Byte.eqb c "0"%byte) eqn:H0.
    - apply Byte.byte_dec_bl in H0. subst c.
      destruct ds as [|c' ds]; [|discriminate].
      cbn [digits_value]. simpl.
      split; [|unfold u64_MAX; lia]. intros _.
      destruct r as [|c r]; [reflexivity|].
      simpl in Hr. apply Bool.andb_true_iff in Hr as [Hr _].
      apply Bool.negb_true_iff in Hr. simpl. rewrite Hr. reflexivity.
    - rewrite Hc. cbn [digits_value].
      replace (0 * 10 + digit_val c) with (digit_val c) by lia.
      apply parse_integer_loop_end; [assumption|assumption|unfold u64_MAX; lia]. }
  split; [|split; [|split]].
  - intros Hle. rewrite (proj1 (Hint true) Hle), parse_number_end by assumption.
    reflexivity.
  - intros Hle. rewrite (proj1 (Hint false) ltac:(unfold u64_MAX; lia)),
      parse_number_end by assumption.
    cbv zeta. rewrite neg_small by lia.
    destruct (Z.ltb_spec 0 (- m)); [lia|]. reflexivity.
  - intros Hle. rewrite (proj1 (Hint false) ltac:(lia)), parse_number_end by assumption.
    cbv zeta. rewrite neg_large by lia.
    destruct (Z.ltb_spec 0 (2 ^ 64 - m)); [reflexivity|unfold u64_MAX in *; lia].
  - intros Hgt.
    assert (Hlong : exists e, 0 < e /\ m / 10 ^ e <= u64_MAX < m / 10 ^ (e - 1) /\
      forall pos, parse_integer pos st0 = fmap F64 (f64_from_parts pos (m / 10 ^ e) e) (mkde r d)).
    { subst m st0. destruct ds as [|c ds]; [discriminate|].
      cbn [is_integer_literal forallb] in Hlit.
      apply Bool.andb_true_iff in Hlit as [Hlit Hz].
      apply Bool.andb_true_iff in Hlit as [Hc Hds].
      destruct (Byte.eqb c "0"%byte) eqn:H0.
      - apply Byte.byte_dec_bl in H0. subst c.
        destruct ds as [|c' ds]; [|discriminate]. cbn in Hgt. unfold u64_MAX in Hgt. lia.
      - cbn [digits_value] in Hgt |- *.
        replace (0 * 10 + digit_val c) with (digit_val c) in * by lia.
        pose proof (digit_val_range c Hc) as Hdig.
        destruct (parse_integer_loop_long ds r d (digit_val c) Hds Hr ltac:(unfold u64_MAX; lia) Hgt)
          as [e [He [Hb Hl]]].
        exists e. split; [exact He|split; [exact Hb|]]. intros pos.
        unfold parse_integer, bind, next_char_or_null, next_char, ret. cbn.
        rewrite H0, Hc. apply Hl. }
    destruct Hlong as [e [He [Hb Hl]]].
    exists e. split; [exact He|split; [exact Hb|]]. intros pos. cbv zeta.
    assert (HP : 0 < m / 10 ^ e).
    { assert (Hpow : 10 ^ e = 10 ^ (e - 1) * 10)
        by (replace e with ((e - 1) + 1) at 1 by lia; rewrite Z.pow_add_r by lia; reflexivity).
      rewrite Hpow.
      rewrite <- Z.div_div by (try apply Z.pow_pos_nonneg; lia).
      set (q := m / 10 ^ (e - 1)) in *.
      pose proof (Z.div_mod q 10 ltac:(lia)). pose proof (Z.mod_pos_bound q 10 ltac:(lia)).
      unfold u64_MAX in *. lia. }
    rewrite Hl. unfold fmap, bind. rewrite f64_from_parts_pos_exp by assumption. cbv zeta.
    destruct ((e <=? 308) && negb (f64_is_infinite (f64_mul (f64_of_Z (m / 10 ^ e)) (f64_of_Z (10 ^ e)))));
      reflexivity.
Qed.

Lemma C6_amended_integer_literals_witness :
  is_integer_literal (b "123") = true /\ ends_literal [] = true /\
  parse_integer false (mkde (b "123" ++ []) 128) = Ok (I64 (-123)) (mkde [] 128).
Proof.
  split; [reflexivity|]. split; [reflexivity|].
  exact (proj1 (proj2 (C6_amended_integer_literals (b "123") [] 128 eq_refl eq_refl))
           ltac:(vm_compute; discriminate)).
Defined.

(** C6: an unsigned literal above [u64::MAX] does not decode to a
    [PositiveInteger]: [18446744073709551616] is a [Float]. *)
Lemma C6_unsigned_literal_above_u64_is_float :
  from_str SSexp "18446744073709551616"
  = Ok (VSexp (SNumber (mkNumber (Float (S754_finite false 4503599627370496 12)))))
       (mkde [] 128).
Proof. vm_compute. reflexivity. Qed.

(** ** Whole-input decoding *)

Lemma skip_ws_nil_iff (l : bytes) : skip_ws l = [] <-> forallb is_ws l = true.
Proof.
  induction l as [|c l IH]; simpl; [tauto|].
  destruct (is_ws c); simpl; [exact IH|split; discriminate].
Qed.

Lemma hd_error_nil_iff {A} (l : list A) : hd_error l = None <-> l = [].
Proof. destruct l; simpl; split; congruence. Qed.

(** C9: [from_trait] returns the decoded value exactly when only
    whitespace follows it; otherwise it returns [TrailingCharacters]. *)
Theorem C9_from_trait_whole_input (s : shape) (input : bytes) :
  (forall v st', from_trait s input = Ok v st' ->
   exists st, Deserialize s (Deserializer_new input) = Ok v st /\ forallb is_ws (rest st) = true) /\
  (forall v st, Deserialize s (Deserializer_new input) = Ok v st ->
   (forallb is_ws (rest st) = true ->
    from_trait s input = Ok v (mkde [] (remaining_depth st))) /\
   (forallb is_ws (rest st) = false ->
    from_trait s input = Err TrailingCharacters (mkde (skip_ws (rest st)) (remaining_depth st)))).
Proof.
  unfold from_trait, bind. split.
  - intros v st' H.
    destruct (Deserialize s (Deserializer_new input)) as [v0 st| | |]; try discriminate.
    exists st. unfold end_, bind, parse_whitespace in H. simpl in H.
    destruct (skip_ws (rest st)) eqn:Hs; simpl in H; [|discriminate].
    injection H as <- _. split; [reflexivity|]. apply skip_ws_nil_iff. exact Hs.
  - intros v st H. rewrite H. unfold end_, bind, parse_whitespace. simpl. split.
    + intros Hw. apply skip_ws_nil_iff in Hw. rewrite Hw. reflexivity.
    + intros Hw. destruct (skip_ws (rest st)) eqn:Hs.
      * apply skip_ws_nil_iff in Hs. congruence.
      * reflexivity.
Qed.

Lemma C9_from_trait_whole_input_witness :
  Deserialize SSexp (Deserializer_new (b "(a) x"))
  = Ok (VSexp (List [SAtom (Symbol [ "a"%byte ])])) (mkde [" "%byte; "x"%byte] 128) /\
  forallb is_ws [" "%byte; "x"%byte] = false /\
  from_trait SSexp (b "(a) x") = Err TrailingCharacters (mkde ["x"%byte] 128).
Proof.
  assert (H : Deserialize SSexp (Deserializer_new (b "(a) x"))
              = Ok (VSexp (List [SAtom (Symbol [ "a"%byte ])])) (mkde [" "%byte; "x"%byte] 128))
    by (vm_compute; reflexivity).
  split; [exact H|]. split; [reflexivity|].
  exact (proj2 (proj2 (C9_from_trait_whole_input SSexp (b "(a) x")) _ _ H) eq_refl).
Defined.

(** ** Optional targets *)

(** C10: for an [Option] target, [deserialize_option] skips whitespace; a
    first byte [n] is consumed and must be followed by [il], giving [None];
    any other first byte decodes the inner value as [Some]; so [#nil] at
    an option position is [Some] of the boolean [true]. *)
Theorem C10_option_bare_nil (f : nat) (t : shape) (st : de) :
  let r := skip_ws (rest st) in
  let dep := remaining_depth st in
  (forall r', r = "n"%byte :: "i"%byte :: "l"%byte :: r' ->
   deserialize (S f) (SOption t) st = Ok VNone (mkde r' dep)) /\
  (forall r', r = "n"%byte :: r' -> starts_with (b "il") r' = false ->
   exists st', deserialize (S f) (SOption t) st = Err ExpectedSomeIdent st') /\
  (hd_error r <> Some "n"%byte ->
   deserialize (S f) (SOption t) st = fmap VSome (deserialize f t) (mkde r dep)) /\
  from_str (SOption SSexp) "#nil" = Ok (VSome (VSexp (Boolean true))) (mkde [] 128).
Proof.
  intros r dep. split; [|split; [|split]].
  - intros r' Hr. cbn [deserialize]. unfold bind at 1, parse_whitespace.
    fold r. rewrite Hr. reflexivity.
  - intros r' Hr Hil. cbn [deserialize]. unfold bind at 1, parse_whitespace.
    fold r. rewrite Hr. simpl.
    destruct r' as [|c1 [|c2 r'']]; simpl in Hil.
    + eexists. reflexivity.
    + rewrite Bool.andb_false_r in Hil. unfold eat_char, bind, next_char, error, throw.
      simpl. destruct (Byte.eqb "i"%byte c1) eqn:H1; simpl; rewrite ?H1; eexists; reflexivity.
    + unfold eat_char, bind, next_char, error, throw, ret. simpl.
      rewrite Bool.andb_true_r in Hil.
      destruct (Byte.eqb "i"%byte c1) eqn:H1, (Byte.eqb "l"%byte c2) eqn:H2;
        simpl in Hil; try discriminate; simpl; rewrite ?H1, ?H2; eexists; reflexivity.
  - intros Hn. cbn [deserialize]. unfold bind at 1, parse_whitespace. fold r.
    destruct r as [|c r0]; [reflexivity|]. simpl.
    destruct (Byte.eqb c "n"%byte) eqn:Hc; [|reflexivity].
    apply Byte.byte_dec_bl in Hc. subst c. contradiction.
  - vm_compute. reflexivity.
Qed.

Lemma C10_option_bare_nil_witness :
  deserialize 10 (SOption SSexp) (mkde (b " nil") 128) = Ok VNone (mkde [] 128).
Proof.
  exact (proj1 (C10_option_bare_nil 9 SSexp (mkde (b " nil") 128)) [] eq_refl).
Defined.

(** ** Encoder errors *)

Section SerValueInd.
Variable P : ser_value -> Prop.
Hypothesis HBool : forall v, P (SerBool v).
Hypothesis HInt : forall v, P (SerInt v).
Hypothesis HStr : forall s, P (SerStr s).
Hypothesis HUnit : P SerUnit.
Hypothesis HSeq : forall xs, Forall P xs -> P (SerSeq xs).
Hypothesis HMap : forall es, Forall (fun e => P (snd e)) es -> P (SerMap es).
Hypothesis HStruct : forall fs, Forall (fun e => P (snd e)) fs -> P (SerStruct fs).

Fixpoint ser_value_ind' (v : ser_value) : P v :=
  match v with
  | SerBool x => HBool x
  | SerInt x => HInt x
  | SerStr s => HStr s
  | SerUnit => HUnit
  | SerSeq xs =>
      HSeq xs ((fix go (xs : list ser_value) : Forall P xs :=
                  match xs with
                  | [] => Forall_nil _
                  | x :: xs' => Forall_cons _ (ser_value_ind' x) (go xs')
                  end) xs)
  | SerMap es =>
      HMap es ((fix go (es : list (ser_key * ser_value)) : Forall (fun e => P (snd e)) es :=
                  match es with
                  | [] => Forall_nil _
                  | e :: es' => Forall_cons _ (ser_value_ind' (snd e)) (go es')
                  end) es)
  | SerStruct fs =>
      HStruct fs ((fix go (fs : list (bytes * ser_value)) : Forall (fun e => P (snd e)) fs :=
                  match fs with
                  | [] => Forall_nil _
                  | e :: fs' => Forall_cons _ (ser_value_ind' (snd e)) (go fs')
                  end) fs)
  end.
End SerValueInd.

Section EncoderErrors.
Context {F : Type} `{Formatter F}.

Definition only_key_errors {A} (m : @SM F A) : Prop :=
  forall s e s', m s = SErr e s' -> e = key_must_be_a_string.

Lemma only_key_errors_sbind {A B} (m : @SM F A) (k : A -> @SM F B) :
  only_key_errors m -> (forall a, only_key_errors (k a)) -> only_key_errors (sbind m k).
Proof.
  intros Hm Hk s e s' Hs. unfold sbind in Hs.
  destruct (m s) as [a s1|e1 s1] eqn:E.
  - exact (Hk a s1 e s' Hs).
  - injection Hs as <- _. exact (Hm s e1 s1 E).
Qed.

Lemma only_key_errors_emit (m : F -> F * bytes) : only_key_errors (emit m).
Proof. intros s e s' Hs. unfold emit in Hs. destruct (m (formatter s)). discriminate. Qed.

Lemma only_key_errors_sret {A} (a : A) : only_key_errors (sret a).
Proof. intros s e s' Hs. discriminate. Qed.

Lemma only_key_errors_key_fail {A} : only_key_errors (A := A) (sfail key_must_be_a_string).
Proof. intros s e s' Hs. injection Hs as <- _. reflexivity. Qed.

Create HintDb keyerr.
Local Hint Resolve only_key_errors_sbind only_key_errors_emit only_key_errors_sret
  only_key_errors_key_fail : keyerr.

Lemma escaped_contents_errors (bs : bytes) : forall pending,
  only_key_errors (escaped_contents pending bs).
Proof.
  induction bs as [|c bs IH]; intros pending; cbn [escaped_contents].
  - destruct pending; auto with keyerr.
  - destruct (Byte.eqb (ESCAPE c) x00); [apply IH|].
    destruct pending; repeat (apply only_key_errors_sbind; intros; auto with keyerr).
Qed.

Lemma serialize_str_errors (v : bytes) : only_key_errors (serialize_str v).
Proof.
  unfold serialize_str.
  repeat (apply only_key_errors_sbind; intros); auto using escaped_contents_errors with keyerr.
Qed.

Lemma serialize_key_errors (k : ser_key) : only_key_errors (serialize_key k).
Proof.
  induction k; cbn [serialize_key];
    repeat (apply only_key_errors_sbind; intros);
    auto using serialize_str_errors, escaped_contents_errors with keyerr.
Qed.

Lemma serialize_entry_errors (first : bool) (key value : @SM F unit) :
  only_key_errors key -> only_key_errors value ->
  only_key_errors (serialize_entry first key value).
Proof.
  intros Hk Hv. unfold serialize_entry.
  repeat (apply only_key_errors_sbind; intros); auto with keyerr.
Qed.

Lemma elements_errors (xs : list ser_value) :
  Forall (fun v => only_key_errors (serialize v)) xs -> forall first,
  only_key_errors
    ((fix elements (first : bool) (xs : list ser_value) : @SM F unit :=
        match xs with
        | [] => sret tt
        | x :: xs' =>
            sbind (emit (fun f => begin_array_value f first))
              (fun _ => sbind (serialize x)
                 (fun _ => sbind (emit end_array_value) (fun _ => elements false xs')))
        end) first xs).
Proof.
  induction 1 as [|y l Hy _ IHl]; intros first; [auto with keyerr|].
  repeat (apply only_key_errors_sbind; intros); auto with keyerr.
Qed.

Lemma entries_errors (es : list (ser_key * ser_value)) :
  Forall (fun e => only_key_errors (serialize (snd e))) es -> forall first,
  only_key_errors
    ((fix entries (first : bool) (es : list (ser_key * ser_value)) : @SM F unit :=
        match es with
        | [] => sret tt
        | (k, x) :: es' =>
            sbind (serialize_entry first (serialize_key k) (serialize x))
              (fun _ => entries false es')
        end) first es).
Proof.
  induction 1 as [|[k y] l Hy _ IHl]; intros first; [auto with keyerr|].
  apply only_key_errors_sbind; [|intros; auto].
  apply serialize_entry_errors; [apply serialize_key_errors|exact Hy].
Qed.

Lemma fields_errors (fs : list (bytes * ser_value)) :
  Forall (fun e => only_key_errors (serialize (snd e))) fs -> forall first,
  only_key_errors
    ((fix fields (first : bool) (fs : list (bytes * ser_value)) : @SM F unit :=
        match fs with
        | [] => sret tt
        | (k, x) :: fs' =>
            sbind (serialize_entry first (serialize_key (KeyStr k)) (serialize x))
              (fun _ => fields false fs')
        end) first fs).
Proof.
  induction 1 as [|[k y] l Hy _ IHl]; intros first; [auto with keyerr|].
  apply only_key_errors_sbind; [|intros; auto].
  apply serialize_entry_errors; [apply serialize_key_errors|exact Hy].
Qed.

(** Every error of the encoder is [key_must_be_a_string]. *)
Lemma serialize_errors (v : ser_value) : only_key_errors (serialize v).
Proof.
  induction v as [x|x|s| |xs IH|es IH|fs IH] using ser_value_ind'; cbn [serialize];
    auto using serialize_str_errors with keyerr.
  - destruct xs as [|x xs]; [auto with keyerr|].
    apply only_key_errors_sbind; [auto with keyerr|intros _].
    apply only_key_errors_sbind; [exact (elements_errors _ IH true)|auto with keyerr].
  - destruct es as [|e es]; [auto with keyerr|].
    apply only_key_errors_sbind; [auto with keyerr|intros _].
    apply only_key_errors_sbind; [exact (entries_errors _ IH true)|auto with keyerr].
  - destruct fs as [|e fs]; [auto with keyerr|].
    apply only_key_errors_sbind; [auto with keyerr|intros _].
    apply only_key_errors_sbind; [exact (fields_errors _ IH true)|auto with keyerr].
Qed.

(** An entry list holding a boolean or float key always fails. *)
Lemma entries_fail (k : ser_key) (x : ser_value) (es : list (ser_key * ser_value)) :
  In (k, x) es -> bool_or_float_key k = true -> forall first s,
  exists e s',
  (fix entries (first : bool) (es : list (ser_key * ser_value)) : @SM F unit :=
     match es with
     | [] => sret tt
     | (k, x) :: es' =>
         sbind (serialize_entry first (serialize_key k) (serialize x))
               (fun _ => entries false es')
     end) first es s = SErr e s'.
Proof.
  intros Hin Hk. induction es as [|[k0 x0] es IH]; [destruct Hin|].
  intros first s. simpl. destruct Hin as [Heq|Hin].
  - injection Heq as -> ->. unfold serialize_entry, sbind at 1 2, emit at 1.
    destruct (begin_object_key (formatter s) first) as [f1 o1].
    destruct k; try discriminate Hk; cbn; eexists; eexists; reflexivity.
  - unfold sbind at 1.
    destruct (serialize_entry first (serialize_key k0) (serialize x0) s) as [[] s1|e1 s1].
    + exact (IH Hin false s1).
    + eexists; eexists; reflexivity.
Qed.

End EncoderErrors.

(** ** Successful decoding steps read a prefix and restore the depth *)

Lemma advances_refl (st : de) : advances st st.
Proof. split; [reflexivity|exists []; reflexivity]. Qed.

Lemma advances_trans (st1 st2 st3 : de) :
  advances st1 st2 -> advances st2 st3 -> advances st1 st3.
Proof.
  intros [D1 [p1 R1]] [D2 [p2 R2]]. split; [congruence|].
  exists (p1 ++ p2). rewrite R1, R2, app_assoc. reflexivity.
Qed.

Lemma advances_with_rest (st : de) (p r : bytes) :
  rest st = p ++ r -> advances st (with_rest r st).
Proof. intros H. split; [reflexivity|exists p; exact H]. Qed.

Lemma tl_suffix (l : bytes) : exists p, l = p ++ tl l.
Proof. destruct l as [|c l]; [exists []|exists [c]]; reflexivity. Qed.

Lemma skip_ws_suffix (l : bytes) : exists p, l = p ++ skip_ws l.
Proof.
  induction l as [|c l [p IH]]; simpl; [exists []; reflexivity|].
  destruct (is_ws c); [exists (c :: p); rewrite IH at 1; reflexivity|exists []; reflexivity].
Qed.

Lemma skip_digits_suffix (l : bytes) : exists p, l = p ++ skip_digits l.
Proof.
  induction l as [|c l [p IH]]; simpl; [exists []; reflexivity|].
  destruct (is_digit c); [exists (c :: p); rewrite IH at 1; reflexivity|exists []; reflexivity].
Qed.

Lemma decimal_digits_suffix (l : bytes) : forall s e seen s' e' seen' r,
  decimal_digits s e seen l = (s', e', seen', r) -> exists p, l = p ++ r.
Proof.
  induction l as [|c l IH]; intros s e seen s' e' seen' r H; simpl in H.
  - injection H as _ _ _ <-. exists []; reflexivity.
  - destruct (is_digit c).
    + destruct (overflow s (digit_val c) u64_MAX).
      * injection H as _ _ _ <-. destruct (skip_digits_suffix l) as [p Hp].
        exists (c :: p). simpl. rewrite <- Hp. reflexivity.
      * destruct (IH _ _ _ _ _ _ _ H) as [p Hp]. exists (c :: p). rewrite Hp. reflexivity.
    + injection H as _ _ _ <-. exists []; reflexivity.
Qed.

Lemma long_integer_digits_suffix (l : bytes) : forall e e' r,
  long_integer_digits e l = (e', r) -> exists p, l = p ++ r.
Proof.
  induction l as [|c l IH]; intros e e' r H; simpl in H.
  - injection H as _ <-. exists []; reflexivity.
  - destruct (is_digit c).
    + destruct (IH _ _ _ H) as [p Hp]. exists (c :: p). rewrite Hp. reflexivity.
    + injection H as _ <-. exists []; reflexivity.
Qed.

Lemma prepend_snd (p : bytes) (res : (ErrorCode + bytes) * bytes) :
  snd (prepend p res) = snd res.
Proof. destruct res as [[e|s] r]; reflexivity. Qed.

Lemma parse_str_bytes_suffix (n : nat) : forall l,
  (List.length l <= n)%nat -> exists p, l = p ++ snd (parse_str_bytes l).
Proof.
  induction n as [|n IH]; intros l Hl.
  - destruct l; [exists []; reflexivity|simpl in Hl; lia].
  - destruct l as [|c l]; [exists []; reflexivity|]. simpl in Hl.
    cbn [parse_str_bytes].
    destruct (Byte.eqb c x22); [exists [c]; reflexivity|].
    destruct (Byte.eqb c x5c).
    + destruct l as [|e l]; [exists [c]; reflexivity|]. simpl in Hl.
      destruct (simple_escape e).
      * rewrite prepend_snd. destruct (IH l ltac:(lia)) as [p Hp].
        exists (c :: e :: p). rewrite Hp at 1. reflexivity.
      * destruct (Byte.eqb e "u"%byte).
        -- destruct l as [|h1 [|h2 [|h3 [|h4 r3]]]];
             try (exists (c :: e :: l); rewrite app_nil_r; reflexivity);
             try (eexists; rewrite app_nil_r; reflexivity).
           simpl in Hl.
           destruct (hex_val h1), (hex_val h2), (hex_val h3), (hex_val h4);
             try (exists [c; e; h1; h2; h3; h4]; reflexivity).
           destruct (_ && _); [exists [c; e; h1; h2; h3; h4]; reflexivity|].
           rewrite prepend_snd. destruct (IH r3 ltac:(lia)) as [p Hp].
           exists ([c; e; h1; h2; h3; h4] ++ p). rewrite <- app_assoc, <- Hp. reflexivity.
        -- exists [c; e]; reflexivity.
    + rewrite prepend_snd. destruct (IH l ltac:(lia)) as [p Hp].
      exists (c :: p). rewrite Hp at 1. reflexivity.
Qed.

Lemma parse_symbol_bytes_suffix (l : bytes) : exists p, l = p ++ snd (parse_symbol_bytes l).
Proof.
  induction l as [|c l [p IH]]; simpl; [exists []; reflexivity|].
  destruct (is_delim c); [exists []; reflexivity|].
  destruct (parse_symbol_bytes l) as [s r]. simpl in *. exists (c :: p). rewrite IH. reflexivity.
Qed.

Create HintDb adv.

Lemma preserves_bind {A B} (m : M A) (k : A -> M B) :
  preserves m -> (forall a, preserves (k a)) -> preserves (bind m k).
Proof.
  intros Hm Hk st b st' H. unfold bind in H.
  destruct (m st) as [a st1| | |] eqn:E; try discriminate.
  exact (advances_trans _ _ _ (Hm _ _ _ E) (Hk a _ _ _ H)).
Qed.

Lemma preserves_ret {A} (a : A) : preserves (ret a).
Proof. intros st b st' H. injection H as _ <-. apply advances_refl. Qed.

Lemma preserves_throw {A} (c : ErrorCode) : preserves (A := A) (throw c).
Proof. intros st b st' H. discriminate. Qed.

Lemma preserves_peek_error {A} (c : ErrorCode) : preserves (A := A) (peek_error c).
Proof. apply preserves_throw. Qed.

Lemma preserves_error {A} (c : ErrorCode) : preserves (A := A) (error c).
Proof. apply preserves_throw. Qed.

Lemma preserves_panic {A} : preserves (A := A) (fun _ => Panic).
Proof. intros st b st' H. discriminate. Qed.

Lemma preserves_fuel {A} : preserves (A := A) (fun _ => OutOfFuel).
Proof. intros st b st' H. discriminate. Qed.

Lemma preserves_fmap {A B} (f : A -> B) (m : M A) : preserves m -> preserves (fmap f m).
Proof. intros Hm. apply preserves_bind; [exact Hm|intros; apply preserves_ret]. Qed.

Lemma preserves_peek : preserves peek.
Proof. intros st b st' H. injection H as _ <-. apply advances_refl. Qed.

Lemma preserves_peek_or_null : preserves peek_or_null.
Proof. intros st b st' H. injection H as _ <-. apply advances_refl. Qed.

Lemma preserves_eat_char : preserves eat_char.
Proof.
  intros st b st' H. injection H as _ <-. split; [reflexivity|apply tl_suffix].
Qed.

Lemma preserves_next_char : preserves next_char.
Proof.
  intros st b st' H. injection H as _ <-. split; [reflexivity|apply tl_suffix].
Qed.

Lemma preserves_parse_whitespace : preserves parse_whitespace.
Proof.
  intros st b st' H. injection H as _ <-. split; [reflexivity|apply skip_ws_suffix].
Qed.

Lemma preserves_parse_str : preserves parse_str.
Proof.
  intros st b st' H. unfold parse_str in H.
  pose proof (parse_str_bytes_suffix (List.length (rest st)) (rest st) (le_n _)) as [p Hp].
  destruct (parse_str_bytes (rest st)) as [[e|s] r]; [discriminate|].
  injection H as _ <-. apply (advances_with_rest _ p). exact Hp.
Qed.

Lemma preserves_parse_symbol : preserves parse_symbol.
Proof.
  intros st b st' H. unfold parse_symbol in H.
  pose proof (parse_symbol_bytes_suffix (rest st)) as [p Hp].
  destruct (parse_symbol_bytes (rest st)) as [s r].
  injection H as _ <-. apply (advances_with_rest _ p). exact Hp.
Qed.

#[local] Hint Resolve preserves_bind preserves_ret preserves_throw preserves_peek_error
  preserves_error preserves_panic preserves_fuel preserves_fmap preserves_peek
  preserves_peek_or_null preserves_eat_char preserves_next_char preserves_parse_whitespace
  preserves_parse_str preserves_parse_symbol : adv.

(** Split the control flow of a decoder step down to its primitive calls. *)
Ltac pres :=
  repeat match goal with
  | |- preserves (bind _ _) => apply preserves_bind; [|intro]
  | |- preserves (fmap _ _) => apply preserves_fmap
  | |- preserves (if ?x then _ else _) => destruct x
  | |- preserves (match ?x with _ => _ end) => destruct x
  | |- _ => solve [eauto with adv]
  end.

Lemma preserves_next_char_or_null : preserves next_char_or_null.
Proof. unfold next_char_or_null. pres. Qed.

Lemma preserves_parse_ident (ident : bytes) : preserves (parse_ident ident).
Proof. induction ident; simpl; pres. Qed.

Lemma preserves_f64_from_parts_loop (fuel : nat) : forall f e,
  preserves (f64_from_parts_loop fuel f e).
Proof. induction fuel; intros f e; cbn [f64_from_parts_loop]; pres. Qed.

Lemma preserves_f64_from_parts (pos : bool) (s e : Z) : preserves (f64_from_parts pos s e).
Proof. unfold f64_from_parts. pres. apply preserves_f64_from_parts_loop. Qed.

#[local] Hint Resolve preserves_next_char_or_null preserves_parse_ident
  preserves_f64_from_parts : adv.

Lemma preserves_parse_decimal (pos : bool) (s e : Z) : preserves (parse_decimal pos s e).
Proof.
  unfold parse_decimal. apply preserves_bind; [auto with adv|intros _].
  intros st b st' H.
  destruct (decimal_digits s e false (rest st)) as [[[s' e'] seen] r] eqn:E.
  apply decimal_digits_suffix in E as [p Hp].
  apply (advances_trans _ (with_rest r st)); [apply (advances_with_rest _ p); exact Hp|].
  destruct seen; [exact (preserves_f64_from_parts _ _ _ _ _ _ H)|discriminate].
Qed.

#[local] Hint Resolve preserves_parse_decimal : adv.

Lemma preserves_parse_long_integer (pos : bool) (s e : Z) :
  preserves (parse_long_integer pos s e).
Proof.
  intros st b st' H. unfold parse_long_integer in H.
  destruct (long_integer_digits e (rest st)) as [e' r] eqn:E.
  apply long_integer_digits_suffix in E as [p Hp].
  apply (advances_trans _ (with_rest r st)); [apply (advances_with_rest _ p); exact Hp|].
  revert H. apply preserves_bind; [auto with adv|intros c; pres].
Qed.

Lemma preserves_parse_number (pos : bool) (s : Z) : preserves (parse_number pos s).
Proof. unfold parse_number. pres. Qed.

#[local] Hint Resolve preserves_parse_long_integer preserves_parse_number : adv.

Lemma parse_integer_loop_advances (pos : bool) (r : bytes) : forall res d x st',
  parse_integer_loop pos res r d = Ok x st' -> advances (mkde r d) st'.
Proof.
  induction r as [|c r IH]; intros res d x st' H; simpl in H.
  - exact (preserves_parse_number _ _ _ _ _ H).
  - destruct (is_digit c).
    + destruct (overflow res (digit_val c) u64_MAX).
      * apply (advances_trans _ (mkde r d)); [split; [reflexivity|exists [c]; reflexivity]|].
        exact (preserves_fmap _ _ (preserves_parse_long_integer _ _ _) _ _ _ H).
      * apply (advances_trans _ (mkde r d)); [split; [reflexivity|exists [c]; reflexivity]|].
        exact (IH _ _ _ _ H).
    + exact (preserves_parse_number _ _ _ _ _ H).
Qed.

Lemma preserves_parse_integer (pos : bool) : preserves (parse_integer pos).
Proof.
  unfold parse_integer. pres.
  intros st b st' H. destruct st as [r d]. exact (parse_integer_loop_advances _ _ _ _ _ _ H).
Qed.

#[local] Hint Resolve preserves_parse_integer : adv.

Lemma preserves_visit (s : shape) (ev : event) : preserves (visit s ev).
Proof. unfold visit. pres. Qed.

Lemma preserves_end_seq : preserves end_seq.
Proof. unfold end_seq. pres. Qed.

Lemma preserves_end_ : preserves end_.
Proof. unfold end_. pres. Qed.

Lemma preserves_map_key : preserves map_key.
Proof. unfold map_key. pres. Qed.

Lemma preserves_next_key : preserves next_key.
Proof. unfold next_key. pres. apply preserves_map_key. Qed.

Lemma preserves_finish_struct (fs : list (bytes * shape)) (acc : list (bytes * value)) :
  preserves (finish_struct fs acc).
Proof. induction fs as [|[k t] fs IH]; simpl; pres. Qed.

#[local] Hint Resolve preserves_visit preserves_end_seq preserves_end_ preserves_map_key
  preserves_next_key preserves_finish_struct : adv.

Lemma close_seq_advances (v : value) (st1 : de) a st' :
  close_seq (inr v) st1 = Ok a st' ->
  remaining_depth st' = remaining_depth st1 + 1 /\ exists p, rest st1 = p ++ rest st'.
Proof.
  unfold close_seq, u8_inc. destruct (remaining_depth st1 =? 255); [discriminate|].
  intros H.
  destruct ((parse_whitespace;;; end_seq) (mkde (rest st1) (remaining_depth st1 + 1)))
    as [u st2| | |] eqn:E; try discriminate.
  injection H as _ <-.
  assert (Hp : preserves (parse_whitespace;;; end_seq)) by pres.
  destruct (Hp _ _ _ E) as [D [p R]]. simpl in D, R. split; [exact D|exists p; exact R].
Qed.

Lemma close_seq_err (e : ErrorCode) (st1 : de) a st' :
  close_seq (inl e) st1 <> Ok a st'.
Proof.
  unfold close_seq. destruct (u8_inc (remaining_depth st1)); [|discriminate].
  destruct ((parse_whitespace;;; end_seq) _); discriminate.
Qed.

(** The [b'('] arm of [parse_value]. *)
Lemma preserves_open (m : M value) :
  preserves m ->
  preserves (fun st =>
    match u8_dec (remaining_depth st) with
    | None => Panic
    | Some d =>
        if d =? 0 then peek_error RecursionLimitExceeded (mkde (rest st) d)
        else match m (mkde (tl (rest st)) d) with
             | Ok v st1 => close_seq (inr v) st1
             | Err e st1 => close_seq (inl e) st1
             | Panic => Panic
             | OutOfFuel => OutOfFuel
             end
    end).
Proof.
  intros Hm st a st' H.
  unfold u8_dec in H. destruct (remaining_depth st =? 0) eqn:Hd0; [discriminate|].
  destruct (remaining_depth st - 1 =? 0); [discriminate|].
  destruct (m (mkde (tl (rest st)) (remaining_depth st - 1))) as [v st1|e st1| |] eqn:E;
    try discriminate.
  - destruct (Hm _ _ _ E) as [D1 [p1 R1]]. simpl in D1, R1.
    destruct (close_seq_advances _ _ _ _ H) as [D2 [p2 R2]].
    destruct (tl_suffix (rest st)) as [p0 R0].
    split; [lia|]. exists (p0 ++ p1 ++ p2).
    rewrite R0, R1, R2, !app_assoc. reflexivity.
  - exfalso. exact (close_seq_err _ _ _ _ H).
Qed.

#[local] Hint Resolve preserves_open : adv.

(** Every successful step of the recursive descent reads a prefix of the
    input and leaves [remaining_depth] as it found it. *)
Lemma descent_preserves (f : nat) :
  (forall s, preserves (deserialize f s)) /\
  (forall s, preserves (parse_value f s)) /\
  (forall s, preserves (visit_seq f s)) /\
  (forall elt first, preserves (seq_elements f elt first)) /\
  (forall fs first, preserves (seq_fields f fs first)) /\
  (forall elt first, preserves (next_element f elt first)) /\
  (forall fs acc, preserves (visit_map f fs acc)) /\
  (forall t, preserves (next_value f t)).
Proof.
  induction f as [|f [IHd [IHp [IHv [IHe [IHf [IHn [IHm IHx]]]]]]]].
  - repeat match goal with |- _ /\ _ => split end; intros; apply preserves_fuel.
  - repeat match goal with |- _ /\ _ => split end; intros.
    + cbn [deserialize]. pres.
    + cbn [parse_value]. pres.
    + cbn [visit_seq]. pres.
    + cbn [seq_elements]. pres.
    + cbn [seq_fields]. pres.
    + cbn [next_element]. pres.
    + cbn [visit_map]. pres.
    + cbn [next_value]. pres.
Qed.

Lemma Deserialize_preserves (s : shape) : preserves (Deserialize s).
Proof.
  intros st a st' H. unfold Deserialize in H.
  exact (proj1 (descent_preserves (fuel_for st)) s _ _ _ H).
Qed.

(** The results of [next] and the decoder it leaves behind depend only on
    the decoder of the stream. *)
Lemma stream_next_sde (s : shape) (sd1 sd2 : StreamDeserializer) :
  sde sd1 = sde sd2 ->
  fst (stream_next s sd1) = fst (stream_next s sd2) /\
  sde (snd (stream_next s sd1)) = sde (snd (stream_next s sd2)).
Proof.
  intros H. unfold stream_next. rewrite H.
  destruct (parse_whitespace (sde sd2)) as [[c|] st|e st| |]; simpl; auto.
  destruct (Byte.eqb c "("%byte); simpl; auto.
  destruct (Deserialize s st); simpl; auto.
Qed.

Lemma stream_take_sde (k : nat) (s : shape) (sd1 sd2 : StreamDeserializer) :
  sde sd1 = sde sd2 -> stream_take k s sd1 = stream_take k s sd2.
Proof.
  revert sd1 sd2. induction k as [|k IH]; intros sd1 sd2 H; [reflexivity|].
  simpl. destruct (stream_next_sde s sd1 sd2 H) as [H1 H2].
  destruct (stream_next s sd1) as [r1 sd1'], (stream_next s sd2) as [r2 sd2'].
  simpl in H1, H2. subst r2. destruct r1; try reflexivity.
  f_equal. apply IH. exact H2.
Qed.

Lemma skipn_offset (input p x : bytes) :
  input = p ++ x -> skipn (List.length input - List.length x) input = x.
Proof.
  intros ->. rewrite length_app, Nat.add_sub. induction p as [|c p IH]; simpl; auto.
Qed.

(** C8: one step of the streaming decoder. It skips whitespace; at the end
    of the input it yields no item; on a byte other than [(] it yields
    [ExpectedList]; on [(] it decodes one value, yields it, moves
    [byte_offset] to the end of that value, and the items that follow are
    those of a fresh stream over the input from that offset on. *)
Theorem C8_stream_next_step (s : shape) (sd : StreamDeserializer) :
  stream_wf sd ->
  let r := skip_ws (rest (sde sd)) in
  (r = [] -> stream_next s sd =
     (NextNone, mkstream (input sd) (mkde [] 128) (List.length (input sd)))) /\
  (forall c r', r = c :: r' -> c <> "("%byte ->
     fst (stream_next s sd) = NextItem (inl ExpectedList)) /\
  (forall r' v st', r = "("%byte :: r' -> Deserialize s (mkde r 128) = Ok v st' ->
     let sd' := snd (stream_next s sd) in
     fst (stream_next s sd) = NextItem (inr v) /\
     byte_offset sd' = (List.length (input sd) - List.length (rest st'))%nat /\
     skipn (byte_offset sd') (input sd) = rest st' /\
     forall k, stream_take k s sd' =
               stream_take k s (StreamDeserializer_new (skipn (byte_offset sd') (input sd)))).
Proof.
  intros [[p Hp] Hd] r.
  assert (Hr : exists q, input sd = q ++ r).
  { destruct (skip_ws_suffix (rest (sde sd))) as [p' Hp'].
    exists (p ++ p'). rewrite Hp, Hp' at 1. rewrite app_assoc. reflexivity. }
  destruct Hr as [q Hq].
  unfold stream_next, parse_whitespace. fold r. rewrite Hd.
  split; [|split].
  - intros Hnil. rewrite Hnil. simpl. unfold byte_offset_of. simpl.
    rewrite Nat.sub_0_r. reflexivity.
  - intros c r' Hc Hne. rewrite Hc. simpl.
    destruct (Byte.eqb c "("%byte) eqn:E; [apply Byte.byte_dec_bl in E; contradiction|].
    reflexivity.
  - intros r' v st' Hc HD. rewrite Hc in HD |- *. cbn [hd_error fst snd]. rewrite (Byte.byte_dec_lb (eq_refl "("%byte)); cbv zeta. rewrite HD. simpl.
    destruct (Deserialize_preserves s _ _ _ HD) as [D [p2 R2]]. simpl in D, R2.
    assert (Hin : input sd = (q ++ p2) ++ rest st').
    { rewrite Hq, Hc, R2, app_assoc. reflexivity. }
    unfold byte_offset, byte_offset_of. simpl.
    pose proof (skipn_offset _ _ _ Hin) as Hs.
    split; [reflexivity|split; [reflexivity|split; [exact Hs|]]].
    intros k. rewrite Hs. apply stream_take_sde. simpl.
    unfold Deserializer_new. destruct st' as [rs dd]. simpl in D |- *. rewrite D. reflexivity.
Qed.

Lemma C8_stream_next_step_witness :
  stream_wf (StreamDeserializer_new (b " (a) (b)")) /\
  stream_take 3 SSexp (snd (stream_next SSexp (StreamDeserializer_new (b " (a) (b)")))) =
  stream_take 3 SSexp (StreamDeserializer_new (b " (b)")).
Proof.
  assert (Hwf : stream_wf (StreamDeserializer_new (b " (a) (b)"))).
  { split; [exists []; reflexivity|reflexivity]. }
  split; [exact Hwf|].
  destruct (C8_stream_next_step SSexp _ Hwf) as [_ [_ H3]].
  destruct (H3 (b "a) (b)") (VSexp (List [SAtom (Symbol (b "a"))])) (mkde (b " (b)") 128)
              eq_refl) as [_ [_ [Hs Ht]]].
  { vm_compute. reflexivity. }
  rewrite Ht. rewrite Hs. reflexivity.
Defined.

(** ** Error conversion *)

Lemma io_error_from_kind (j : Error) :
  io_error_from j <> None /\
  (io_error_from j = Some IoInner <-> is_io j = true) /\
  (io_error_from j = Some InvalidData <-> is_syntax j = true \/ is_data j = true) /\
  (io_error_from j = Some UnexpectedEof <-> is_eof j = true).
Proof.
  destruct j as [c l col]; unfold io_error_from, is_io, is_syntax, is_data, is_eof;
    destruct c; simpl; intuition congruence.
Qed.

(** ** Number accessors *)

Lemma number_from_i64_as_i64 (i : Z) (H : - 2 ^ 63 <= i <= i64_MAX) :
  as_i64 (number_from_i64 i) = Some i /\
  (as_u64 (number_from_i64 i) = Some i <-> 0 <= i) /\
  number_wf (number_from_i64 i).
Proof.
  unfold number_from_i64, as_i64, as_u64, numcast_i64, numcast_u64, number_wf, i64_MAX, u64_MAX in *.
  destruct (Z.ltb_spec i 0); simpl;
    repeat match goal with |- context [?a <=? ?b] => destruct (Z.leb_spec a b) end;
    simpl; repeat split; auto; try lia; discriminate.
Qed.

Lemma number_from_i64_as_i64_witness :
  (- 2 ^ 63 <= -5 <= i64_MAX) /\ as_i64 (number_from_i64 (-5)) = Some (-5) /\
  (as_u64 (number_from_i64 (-5)) = Some (-5) <-> 0 <= -5) /\ number_wf (number_from_i64 (-5)).
Proof.
  assert (H : - 2 ^ 63 <= -5 <= i64_MAX) by (unfold i64_MAX; lia).
  split; [exact H | exact (number_from_i64_as_i64 (-5) H)].
Defined.

Lemma number_from_u64_as (u : Z) (H : 0 <= u <= u64_MAX) :
  as_u64 (number_from_u64 u) = Some u /\
  (as_i64 (number_from_u64 u) = Some u <-> u <= i64_MAX) /\
  (as_i64 (number_from_u64 u) = None <-> i64_MAX < u) /\
  number_wf (number_from_u64 u).
Proof.
  unfold number_from_u64, as_i64, as_u64, numcast_i64, number_wf; simpl.
  repeat match goal with |- context [?a <=? ?b] => destruct (Z.leb_spec a b) end;
    simpl; repeat split; auto; try lia; try discriminate; intros E; inversion E; lia.
Qed.

Lemma number_from_u64_as_witness :
  (0 <= 2 ^ 63 <= u64_MAX) /\
  as_u64 (number_from_u64 (2 ^ 63)) = Some (2 ^ 63) /\
  (as_i64 (number_from_u64 (2 ^ 63)) = Some (2 ^ 63) <-> 2 ^ 63 <= i64_MAX) /\
  (as_i64 (number_from_u64 (2 ^ 63)) = None <-> i64_MAX < 2 ^ 63) /\
  number_wf (number_from_u64 (2 ^ 63)).
Proof.
  assert (H : 0 <= 2 ^ 63 <= u64_MAX) by (unfold u64_MAX; lia).
  split; [exact H | exact (number_from_u64_as (2 ^ 63) H)].
Defined.

Lemma number_is_as_agree (x : Number) (H : number_wf x) :
  is_i64 x = is_some (as_i64 x) /\ is_u64 x = is_some (as_u64 x) /\
  is_f64 x = negb (is_some (as_i64 x) || is_some (as_u64 x)).
Proof.
  destruct x as [[v|v|f]]; unfold number_wf, is_i64, is_u64, is_f64, as_i64, as_u64,
    numcast_i64, numcast_u64 in *; simpl in *.
  - repeat match goal with |- context [?a <=? ?b] => destruct (Z.leb_spec a b) end;
      simpl; auto; lia.
  - repeat match goal with |- context [?a <=? ?b] => destruct (Z.leb_spec a b) end;
      simpl; auto; lia.
  - auto.
Qed.

Lemma number_is_as_agree_witness :
  number_wf (number_from_u64 (2 ^ 64 - 1)) /\
  is_i64 (number_from_u64 (2 ^ 64 - 1)) = is_some (as_i64 (number_from_u64 (2 ^ 64 - 1))) /\
  is_u64 (number_from_u64 (2 ^ 64 - 1)) = is_some (as_u64 (number_from_u64 (2 ^ 64 - 1))) /\
  is_f64 (number_from_u64 (2 ^ 64 - 1)) =
    negb (is_some (as_i64 (number_from_u64 (2 ^ 64 - 1))) ||
          is_some (as_u64 (number_from_u64 (2 ^ 64 - 1)))).
Proof.
  assert (H : number_wf (number_from_u64 (2 ^ 64 - 1))) by (cbn; unfold u64_MAX; lia).
  split; [exact H | exact (number_is_as_agree _ H)].
Defined.

(** ** Streaming decoder *)

Lemma skip_ws_idem (l : bytes) : skip_ws (skip_ws l) = skip_ws l.
Proof.
  induction l as [|c l IH]; simpl; auto.
  destruct (is_ws c) eqn:E; auto. simpl. rewrite E. reflexivity.
Qed.

Lemma stream_next_not_open (s : shape) (sd : StreamDeserializer) (c : byte) (r : bytes) :
  skip_ws (rest (sde sd)) = c :: r -> c <> "("%byte ->
  stream_next s sd = (NextItem (inl ExpectedList),
                      mkstream (input sd) (mkde (c :: r) (remaining_depth (sde sd))) (offset sd)).
Proof.
  intros Hc Hne. unfold stream_next, parse_whitespace. rewrite Hc. simpl.
  destruct (Byte.eqb c "("%byte) eqn:E; [apply Byte.byte_dec_bl in E; contradiction|].
  reflexivity.
Qed.

Lemma stream_stuck_not_open (s : shape) (sd : StreamDeserializer) (c : byte) (r : bytes)
  (Hc : skip_ws (rest (sde sd)) = c :: r) (Hne : c <> "("%byte) :
  let sd1 := snd (stream_next s sd) in
  stream_next s sd1 = (NextItem (inl ExpectedList), sd1) /\
  byte_offset sd1 = byte_offset sd /\
  forall k, stream_take k s sd = repeat (NextItem (inl ExpectedList)) k.
Proof.
  assert (Hfix : forall sd, skip_ws (rest (sde sd)) = c :: r ->
            skip_ws (rest (sde (snd (stream_next s sd)))) = c :: r).
  { intros sd' H'. rewrite (stream_next_not_open s sd' c r H' Hne). cbn [snd sde rest].
    rewrite <- H' at 1. rewrite skip_ws_idem. exact H'. }
  assert (H1 : skip_ws (c :: r) = c :: r) by (rewrite <- Hc at 1; rewrite skip_ws_idem; exact Hc).
  cbv zeta. rewrite (stream_next_not_open s sd c r Hc Hne). cbn [snd].
  split; [|split; [reflexivity|]].
  - rewrite (stream_next_not_open s (mkstream (input sd) (mkde (c :: r) (remaining_depth (sde sd))) (offset sd)) c r H1 Hne). reflexivity.
  - intros k. revert sd Hc. induction k as [|k IH]; intros sd Hc; [reflexivity|].
    simpl. pose proof (Hfix sd Hc) as Hc'.
    destruct (stream_next s sd) as [x sd'] eqn:E.
    rewrite (stream_next_not_open s sd c r Hc Hne) in E. inversion E; subst; simpl.
    f_equal. apply IH. exact H1.
Qed.

Lemma stream_stuck_not_open_witness :
  skip_ws (rest (sde (StreamDeserializer_new (b " x (a)")))) = "x"%byte :: b " (a)" /\
  "x"%byte <> "("%byte /\
  stream_take 4 SSexp (StreamDeserializer_new (b " x (a)")) =
  repeat (NextItem (inl ExpectedList)) 4.
Proof.
  assert (Hc : skip_ws (rest (sde (StreamDeserializer_new (b " x (a)")))) =
               "x"%byte :: b " (a)") by reflexivity.
  assert (Hne : "x"%byte <> "("%byte) by discriminate.
  split; [exact Hc|split; [exact Hne|]].
  exact (proj2 (proj2 (stream_stuck_not_open SSexp _ _ _ Hc Hne)) 4%nat).
Defined.

Lemma stream_fused_at_end (s : shape) (sd : StreamDeserializer)
  (Hnil : skip_ws (rest (sde sd)) = []) :
  let sd1 := snd (stream_next s sd) in
  fst (stream_next s sd) = NextNone /\
  stream_next s sd1 = (NextNone, sd1) /\
  byte_offset sd1 = List.length (input sd) /\
  forall k, stream_take (S k) s sd = [NextNone].
Proof.
  split; [|split; [|split]];
    try (intros k; cbn [stream_take]);
    unfold stream_next, parse_whitespace; rewrite Hnil; simpl; try reflexivity.
  unfold byte_offset, byte_offset_of. simpl. apply Nat.sub_0_r.
Qed.

Lemma stream_fused_at_end_witness :
  skip_ws (rest (sde (StreamDeserializer_new (b "  ")))) = [] /\
  stream_take 3 SSexp (StreamDeserializer_new (b "  ")) = [NextNone].
Proof.
  assert (H : skip_ws (rest (sde (StreamDeserializer_new (b "  ")))) = []) by reflexivity.
  split; [exact H|].
  exact (proj2 (proj2 (proj2 (stream_fused_at_end SSexp _ H))) 2%nat).
Defined.

Lemma stream_error_offset (s : shape) (sd : StreamDeserializer) (r : bytes) (e : ErrorCode)
  (st' : de) (Hwf : stream_wf sd) (Hc : skip_ws (rest (sde sd)) = "("%byte :: r)
  (HD : Deserialize s (mkde ("("%byte :: r) 128) = Err e st') :
  let sd1 := snd (stream_next s sd) in
  fst (stream_next s sd) = NextItem (inl e) /\
  skipn (byte_offset sd1) (input sd) = "("%byte :: r /\
  sde sd1 = st'.
Proof.
  destruct Hwf as [[p Hp] Hd].
  destruct (skip_ws_suffix (rest (sde sd))) as [p' Hp'].
  unfold stream_next, parse_whitespace. rewrite Hc, Hd. cbn [hd_error fst snd].
  rewrite (Byte.byte_dec_lb (eq_refl "("%byte)); cbv zeta. rewrite HD. simpl.
  unfold byte_offset, byte_offset_of. simpl.
  split; [reflexivity|split; [|reflexivity]].
  change (S (List.length r)) with (List.length ("("%byte :: r)).
  apply (skipn_offset _ (p ++ p')). rewrite Hp, Hp' at 1. rewrite Hc, app_assoc. reflexivity.
Qed.

Lemma stream_error_offset_witness :
  stream_wf (StreamDeserializer_new (b " (#q) (a)")) /\
  skip_ws (rest (sde (StreamDeserializer_new (b " (#q) (a)")))) = "("%byte :: b "#q) (a)" /\
  Deserialize SSexp (mkde ("("%byte :: b "#q) (a)") 128) = Err ExpectedSomeIdent (mkde (b " (a)") 128) /\
  skipn (byte_offset (snd (stream_next SSexp (StreamDeserializer_new (b " (#q) (a)")))))
        (input (StreamDeserializer_new (b " (#q) (a)"))) = b "(#q) (a)".
Proof.
  assert (Hwf : stream_wf (StreamDeserializer_new (b " (#q) (a)"))).
  { split; [exists []; reflexivity|reflexivity]. }
  assert (Hc : skip_ws (rest (sde (StreamDeserializer_new (b " (#q) (a)")))) =
               "("%byte :: b "#q) (a)") by reflexivity.
  assert (HD : Deserialize SSexp (mkde ("("%byte :: b "#q) (a)") 128) =
               Err ExpectedSomeIdent (mkde (b " (a)") 128)) by (vm_compute; reflexivity).
  split; [exact Hwf|split; [exact Hc|split; [exact HD|]]].
  exact (proj1 (proj2 (stream_error_offset SSexp _ _ _ _ Hwf Hc HD))).
Defined.

(** ** Number literals: decimal points and leading zeros *)

Lemma no_digit_head_peek (r : bytes) :
  no_digit_head r = true -> is_digit (match r with c :: _ => c | [] => x00 end) = false.
Proof. destruct r as [|c r]; simpl; [reflexivity|]. apply Bool.negb_true_iff. Qed.

Lemma dot_not_digit : is_digit "."%byte = false.
Proof. reflexivity. Qed.

Lemma decimal_digits_fit (fs r : bytes) : forall sig e seen,
  forallb is_digit fs = true -> no_digit_head r = true -> 0 <= sig ->
  digits_value sig fs <= u64_MAX ->
  decimal_digits sig e seen (fs ++ r) =
  (digits_value sig fs, e - Z.of_nat (List.length fs),
   match fs with [] => seen | _ => true end, r).
Proof.
  induction fs as [|c fs IH]; intros sig e seen Hfs Hr Hsig Hle.
  - cbn [app digits_value List.length]. rewrite Z.sub_0_r.
    destruct r as [|c r]; [reflexivity|]. simpl in Hr. apply Bool.negb_true_iff in Hr.
    simpl. rewrite Hr. reflexivity.
  - simpl in Hfs. apply Bool.andb_true_iff in Hfs as [Hc Hfs].
    pose proof (digit_val_range c Hc) as Hdig.
    cbn [app digits_value] in *. cbn [decimal_digits]. rewrite Hc.
    pose proof (digits_value_ge fs (sig * 10 + digit_val c) ltac:(lia) Hfs) as Hge.
    destruct (overflow sig (digit_val c) u64_MAX) eqn:Hov.
    { apply overflow_u64_MAX in Hov; lia. }
    rewrite IH by (auto; lia). cbn [List.length].
    replace (e - Z.of_nat (S (List.length fs))) with (e - 1 - Z.of_nat (List.length fs)) by lia.
    destruct fs; reflexivity.
Qed.

Lemma parse_decimal_no_digit (pos : bool) (sig e : Z) (r : bytes) (d : Z) :
  no_digit_head r = true ->
  parse_decimal pos sig e (mkde ("."%byte :: r) d) = Err InvalidNumber (mkde r d).
Proof.
  intros Hr. unfold parse_decimal, bind, eat_char. cbn [rest tl remaining_depth].
  destruct r as [|c r]; [reflexivity|].
  simpl in Hr. apply Bool.negb_true_iff in Hr. cbn [decimal_digits]. rewrite Hr. reflexivity.
Qed.

Lemma parse_number_dot (pos : bool) (m : Z) (r : bytes) (d : Z) :
  parse_number pos m (mkde ("."%byte :: r) d) = fmap F64 (parse_decimal pos m 0) (mkde ("."%byte :: r) d).
Proof.
  unfold parse_number, bind at 1, peek_or_null. cbn [rest].
  rewrite (Byte.byte_dec_lb (eq_refl "."%byte)). reflexivity.
Qed.

Lemma long_integer_digits_dot (ds r : bytes) : forall e,
  forallb is_digit ds = true ->
  long_integer_digits e (ds ++ "."%byte :: r) = (e + Z.of_nat (List.length ds), "."%byte :: r).
Proof.
  induction ds as [|c ds IH]; intros e Hds.
  - cbn. rewrite Z.add_0_r. reflexivity.
  - simpl in Hds. apply Bool.andb_true_iff in Hds as [Hc Hds].
    cbn [List.length app long_integer_digits]. rewrite Hc, IH by assumption.
    f_equal. lia.
Qed.

Lemma parse_integer_loop_dot (pos : bool) (ds r : bytes) (d : Z) : forall res,
  forallb is_digit ds = true ->
  exists sig e, parse_integer_loop pos res (ds ++ "."%byte :: r) d =
                fmap F64 (parse_decimal pos sig e) (mkde ("."%byte :: r) d).
Proof.
  induction ds as [|c ds IH]; intros res Hds.
  - exists res, 0. cbn [app parse_integer_loop]. rewrite dot_not_digit. apply parse_number_dot.
  - simpl in Hds. apply Bool.andb_true_iff in Hds as [Hc Hds].
    cbn [app parse_integer_loop]. rewrite Hc.
    destruct (overflow res (digit_val c) u64_MAX).
    + exists res, (1 + Z.of_nat (List.length ds)).
      assert (Hpl : parse_long_integer pos res 1 (mkde (ds ++ "."%byte :: r) d) =
                    parse_decimal pos res (1 + Z.of_nat (List.length ds)) (mkde ("."%byte :: r) d)).
      { unfold parse_long_integer. cbn [rest].
        rewrite long_integer_digits_dot by assumption.
        unfold bind, peek_or_null, with_rest. cbn [rest remaining_depth].
        rewrite (Byte.byte_dec_lb (eq_refl "."%byte)). reflexivity. }
      unfold fmap, bind. rewrite Hpl. reflexivity.
    + apply IH. exact Hds.
Qed.

Lemma parse_integer_loop_fit (pos : bool) (ds r : bytes) (d : Z) : forall res,
  forallb is_digit ds = true -> no_digit_head r = true -> 0 <= res ->
  digits_value res ds <= u64_MAX ->
  parse_integer_loop pos res (ds ++ r) d = parse_number pos (digits_value res ds) (mkde r d).
Proof.
  induction ds as [|c ds IH]; intros res Hds Hr Hres Hle.
  - cbn [app digits_value].
    destruct r as [|c0 r]; [reflexivity|]. simpl in Hr. apply Bool.negb_true_iff in Hr.
    cbn [parse_integer_loop]. rewrite Hr. reflexivity.
  - simpl in Hds. apply Bool.andb_true_iff in Hds as [Hc Hds].
    pose proof (digit_val_range c Hc) as Hd.
    cbn [app digits_value parse_integer_loop] in *. rewrite Hc.
    pose proof (digits_value_ge ds (res * 10 + digit_val c) ltac:(lia) Hds) as Hge.
    destruct (overflow res (digit_val c) u64_MAX) eqn:Hov.
    { apply overflow_u64_MAX in Hov; lia. }
    apply IH; auto; lia.
Qed.

(** [parse_integer] on a literal whose integer part fits in a [u64]: the
    integer loop hands over to [parse_number] on the first non-digit. *)
Lemma parse_integer_to_number (pos : bool) (ds r : bytes) (d : Z) :
  is_integer_literal ds = true -> no_digit_head r = true ->
  digits_value 0 ds <= u64_MAX ->
  parse_integer pos (mkde (ds ++ r) d) = parse_number pos (digits_value 0 ds) (mkde r d).
Proof.
  intros Hlit Hr Hle.
  destruct ds as [|c ds]; [discriminate|].
  cbn [is_integer_literal forallb] in Hlit.
  apply Bool.andb_true_iff in Hlit as [Hlit Hz].
  apply Bool.andb_true_iff in Hlit as [Hc Hds].
  pose proof (digit_val_range c Hc) as Hdig.
  unfold parse_integer, bind at 1, next_char_or_null, bind at 1, next_char, ret.
  cbn [rest hd_error tl app remaining_depth].
  destruct (Byte.eqb c "0"%byte) eqn:H0.
  - apply Byte.byte_dec_bl in H0. subst c.
    destruct ds as [|c' ds]; [|discriminate].
    cbn [app digits_value]. unfold bind, peek_or_null. cbn [rest].
    rewrite (no_digit_head_peek r Hr). reflexivity.
  - rewrite Hc. cbn [digits_value] in Hle |- *.
    replace (0 * 10 + digit_val c) with (digit_val c) in * by lia.
    apply parse_integer_loop_fit; auto; lia.
Qed.

Lemma parse_integer_dot (pos : bool) (ds r : bytes) (d : Z) :
  is_integer_literal ds = true -> no_digit_head r = true ->
  parse_integer pos (mkde (ds ++ "."%byte :: r) d) = Err InvalidNumber (mkde r d).
Proof.
  intros Hlit Hr.
  destruct ds as [|c ds]; [discriminate|].
  cbn [is_integer_literal forallb] in Hlit.
  apply Bool.andb_true_iff in Hlit as [Hlit Hz].
  apply Bool.andb_true_iff in Hlit as [Hc Hds].
  unfold parse_integer, bind at 1, next_char_or_null, bind at 1, next_char, ret. cbn [rest hd_error tl app remaining_depth].
  destruct (Byte.eqb c "0"%byte) eqn:H0.
  - apply Byte.byte_dec_bl in H0. subst c.
    destruct ds as [|c' ds]; [|discriminate]. cbn [app].
    unfold bind, peek_or_null. cbn [rest]. rewrite dot_not_digit.
    rewrite parse_number_dot. unfold fmap, bind. rewrite parse_decimal_no_digit by exact Hr.
    reflexivity.
  - rewrite Hc. destruct (parse_integer_loop_dot pos ds r d (digit_val c) Hds) as [sig [e He]].
    cbn [rest remaining_depth]. rewrite He.
    unfold fmap, bind. rewrite parse_decimal_no_digit by exact Hr. reflexivity.
Qed.

Lemma parse_integer_leading_zero (pos : bool) (c : byte) (r : bytes) (d : Z) :
  is_digit c = true ->
  parse_integer pos (mkde ("0"%byte :: c :: r) d) = Err InvalidNumber (mkde (c :: r) d).
Proof.
  intros Hc. unfold parse_integer, next_char_or_null, next_char, peek_or_null, bind, ret.
  cbn [rest hd_error tl remaining_depth]. rewrite (Byte.byte_dec_lb (eq_refl "0"%byte)).
  cbv beta iota. cbn [rest]. rewrite Hc. reflexivity.
Qed.

(** [Deserialize] on a value starting with a digit, or with [-], for the
    shapes that go through [parse_value]: an error of [parse_integer] is
    the result. *)
Lemma Deserialize_integer_err (s : shape) (x : bytes) (c : byte) (d : Z) (e : ErrorCode) (st : de) :
  (s = SSexp \/ exists t, s = SSeq t) -> hd_error x = Some c -> is_digit c = true ->
  (parse_integer true (mkde x d) = Err e st -> Deserialize s (mkde x d) = Err e st) /\
  (parse_integer false (mkde x d) = Err e st -> Deserialize s (mkde ("-"%byte :: x) d) = Err e st).
Proof.
  intros Hs Hx Hc.
  assert (Hds : forall f st0, deserialize (S (S f)) s st0 = parse_value (S f) s st0)
    by (intros f st0; destruct Hs as [->|[t ->]]; reflexivity).
  assert (Hws : is_ws c = false) by (revert Hc; destruct c; cbv; congruence).
  destruct x as [|c0 x]; [discriminate|]. injection Hx as <-.
  unfold Deserialize, fuel_for. cbn [rest List.length].
  split; intros He.
  - replace (16 * (S (List.length x) + 4))%nat with (S (S (16 * (S (List.length x) + 4) - 2))) by lia.
    rewrite Hds. unfold parse_value. fold parse_value.
    unfold bind at 1, parse_whitespace. cbn [rest skip_ws hd_error]. rewrite Hws.
    cbn [hd_error remaining_depth].
    assert (H1 : Byte.eqb c0 "#"%byte = false) by (revert Hc; destruct c0; cbv; congruence).
    assert (H2 : Byte.eqb c0 "-"%byte = false) by (revert Hc; destruct c0; cbv; congruence).
    rewrite H1, H2, Hc. unfold bind. rewrite He. reflexivity.
  - replace (16 * (S (S (List.length x)) + 4))%nat with (S (S (16 * (S (S (List.length x)) + 4) - 2))) by lia.
    rewrite Hds. unfold parse_value. fold parse_value.
    unfold bind at 1, parse_whitespace. cbn [rest skip_ws].
    replace (is_ws "-"%byte) with false by reflexivity.
    cbn [hd_error remaining_depth].
    replace (Byte.eqb "-"%byte "#"%byte) with false by reflexivity.
    rewrite (Byte.byte_dec_lb (eq_refl "-"%byte)). cbv beta iota.
    unfold bind, eat_char. cbn [rest tl remaining_depth]. rewrite He. reflexivity.
Qed.

Lemma from_trait_err (s : shape) (x : bytes) (e : ErrorCode) (st : de) :
  Deserialize s (Deserializer_new x) = Err e st -> from_trait s x = Err e st.
Proof. intros H. unfold from_trait, bind. rewrite H. reflexivity. Qed.

Lemma from_trait_leading_zero (s : shape) (c : byte) (r : bytes)
  (Hs : s = SSexp \/ exists t, s = SSeq t) (Hc : is_digit c = true) :
  from_trait s ("0"%byte :: c :: r) = Err InvalidNumber (mkde (c :: r) 128) /\
  from_trait s ("-"%byte :: "0"%byte :: c :: r) = Err InvalidNumber (mkde (c :: r) 128).
Proof.
  destruct (Deserialize_integer_err s ("0"%byte :: c :: r) "0"%byte 128 InvalidNumber
              (mkde (c :: r) 128) Hs eq_refl eq_refl) as [H1 H2].
  split; apply from_trait_err; [apply H1|apply H2]; apply parse_integer_leading_zero; exact Hc.
Qed.

Lemma from_trait_leading_zero_witness :
  (SSeq SSexp = SSexp \/ exists t, SSeq SSexp = SSeq t) /\ is_digit "7"%byte = true /\
  from_trait (SSeq SSexp) (b "-07") = Err InvalidNumber (mkde (b "7") 128).
Proof.
  assert (Hs : SSeq SSexp = SSexp \/ exists t, SSeq SSexp = SSeq t) by (right; eexists; reflexivity).
  assert (Hc : is_digit "7"%byte = true) by reflexivity.
  split; [exact Hs|split; [exact Hc|]].
  exact (proj2 (from_trait_leading_zero (SSeq SSexp) "7"%byte [] Hs Hc)).
Defined.

Lemma from_trait_dot_without_digit (s : shape) (ds r : bytes)
  (Hs : s = SSexp \/ exists t, s = SSeq t)
  (Hlit : is_integer_literal ds = true) (Hr : no_digit_head r = true) :
  from_trait s (ds ++ "."%byte :: r) = Err InvalidNumber (mkde r 128) /\
  from_trait s ("-"%byte :: ds ++ "."%byte :: r) = Err InvalidNumber (mkde r 128).
Proof.
  destruct ds as [|c ds]; [discriminate|].
  assert (Hc : is_digit c = true).
  { cbn [is_integer_literal forallb] in Hlit.
    apply Bool.andb_true_iff in Hlit as [Hlit _]. apply Bool.andb_true_iff in Hlit. tauto. }
  destruct (Deserialize_integer_err s ((c :: ds) ++ "."%byte :: r) c 128 InvalidNumber
              (mkde r 128) Hs eq_refl Hc) as [H1 H2].
  split; apply from_trait_err; [apply H1|apply H2]; apply parse_integer_dot; assumption.
Qed.

Lemma from_trait_dot_without_digit_witness :
  (SSexp = SSexp \/ exists t, SSexp = SSeq t) /\
  is_integer_literal (b "184467440737095516160") = true /\ no_digit_head (b "e5") = true /\
  from_trait SSexp (b "184467440737095516160" ++ "."%byte :: b "e5") = Err InvalidNumber (mkde (b "e5") 128).
Proof.
  assert (Hs : SSexp = SSexp \/ exists t, SSexp = SSeq t) by (left; reflexivity).
  assert (Hl : is_integer_literal (b "184467440737095516160") = true) by reflexivity.
  assert (Hr : no_digit_head (b "e5") = true) by reflexivity.
  split; [exact Hs|split; [exact Hl|split; [exact Hr|]]].
  exact (proj1 (from_trait_dot_without_digit SSexp _ _ Hs Hl Hr)).
Defined.

(** The value of a decimal literal [ds.fs] whose digits fit in a [u64]
    and with at most 308 fraction digits: the digits as one integer,
    rounded to [f64], divided by [10^|fs|]. *)
Lemma parse_integer_decimal (pos : bool) (ds fs r : bytes) (d : Z)
  (Hlit : is_integer_literal ds = true) (Hfs : forallb is_digit fs = true) (Hne : fs <> [])
  (Hr : no_digit_head r = true) (Hfit : digits_value 0 (ds ++ fs) <= u64_MAX)
  (Hlen : (List.length fs <= 308)%nat) :
  let f := f64_div (f64_of_Z (digits_value 0 (ds ++ fs))) (f64_of_Z (10 ^ Z.of_nat (List.length fs))) in
  parse_integer pos (mkde (ds ++ "."%byte :: fs ++ r) d) =
  Ok (F64 (if pos then f else f64_neg f)) (mkde r d).
Proof.
  assert (Hds : forallb is_digit ds = true).
  { destruct ds as [|c ds]; [discriminate|]. cbn [is_integer_literal] in Hlit.
    apply Bool.andb_true_iff in Hlit. tauto. }
  assert (Happ : forall a l1 l2, digits_value a (l1 ++ l2) = digits_value (digits_value a l1) l2).
  { intros a l1. revert a. induction l1; simpl; auto. }
  rewrite Happ in Hfit |- *.
  pose proof (digits_value_ge fs (digits_value 0 ds) ltac:(apply digits_value_ge; auto; lia) Hfs).
  cbv zeta. rewrite parse_integer_to_number by (auto; lia).
  rewrite parse_number_dot. unfold fmap, bind at 1, parse_decimal, bind at 1, eat_char.
  cbn [rest tl remaining_depth].
  rewrite decimal_digits_fit by (auto; apply digits_value_ge; auto; lia).
  destruct fs as [|c fs]; [contradiction|].
  unfold with_rest. cbn [rest remaining_depth].
  unfold f64_from_parts, bind. cbn [f64_from_parts_loop].
  replace (Z.abs (0 - Z.of_nat (List.length (c :: fs)))) with (Z.of_nat (List.length (c :: fs))) by lia.
  unfold POW10_get.
  destruct (Z.leb_spec 0 (Z.of_nat (List.length (c :: fs)))); [|lia].
  destruct (Z.leb_spec (Z.of_nat (List.length (c :: fs))) 308); [|lia].
  destruct (Z.leb_spec 0 (0 - Z.of_nat (List.length (c :: fs)))); [cbn [List.length] in *; lia|].
  reflexivity.
Qed.

Lemma parse_integer_decimal_witness :
  is_integer_literal (b "12") = true /\ forallb is_digit (b "5") = true /\ b "5" <> [] /\
  no_digit_head [] = true /\ digits_value 0 (b "12" ++ b "5") <= u64_MAX /\
  (List.length (b "5") <= 308)%nat /\
  parse_integer false (mkde (b "12" ++ "."%byte :: b "5" ++ []) 128) =
  Ok (F64 (f64_neg (f64_div (f64_of_Z 125) (f64_of_Z 10)))) (mkde [] 128).
Proof.
  assert (H1 : is_integer_literal (b "12") = true) by reflexivity.
  assert (H2 : forallb is_digit (b "5") = true) by reflexivity.
  assert (H3 : b "5" <> []) by discriminate.
  assert (H4 : no_digit_head [] = true) by reflexivity.
  assert (H5 : digits_value 0 (b "12" ++ b "5") <= u64_MAX) by (vm_compute; discriminate).
  assert (H6 : (List.length (b "5") <= 308)%nat) by (cbn; lia).
  repeat match goal with |- _ /\ _ => split end; try assumption.
  exact (parse_integer_decimal false _ _ [] 128 H1 H2 H3 H4 H5 H6).
Defined.

(** ** Encoder: the writer is append-only *)

Section EncoderShift.
Context {F : Type} `{Formatter F}.

Lemma sshift_app {A} (w1 w2 : bytes) (r : sresult F A) :
  sshift w1 (sshift w2 r) = sshift (w1 ++ w2) r.
Proof. destruct r as [a [w f]|e [w f]]; simpl; rewrite app_assoc; reflexivity. Qed.

Lemma shiftable_sbind {A B} (m : @SM F A) (k : A -> @SM F B) :
  shiftable m -> (forall a, shiftable (k a)) -> shiftable (sbind m k).
Proof.
  intros Hm Hk w f. unfold sbind. rewrite Hm.
  destruct (m (mkser [] f)) as [a [w1 f1]|e [w1 f1]]; simpl; [|reflexivity].
  rewrite (Hk a (w ++ w1) f1), (Hk a w1 f1), sshift_app. reflexivity.
Qed.

Lemma shiftable_emit (m : F -> F * bytes) : shiftable (emit m).
Proof. intros w f. unfold emit. simpl. destruct (m f). reflexivity. Qed.

Lemma shiftable_sret {A} (a : A) : shiftable (F := F) (sret a).
Proof. intros w f. unfold sret. simpl. rewrite app_nil_r. reflexivity. Qed.

Lemma shiftable_sfail {A} (e : Error) : shiftable (F := F) (A := A) (sfail e).
Proof. intros w f. unfold sfail. simpl. rewrite app_nil_r. reflexivity. Qed.

Create HintDb shift.
Local Hint Resolve shiftable_sbind shiftable_emit shiftable_sret shiftable_sfail : shift.

Lemma shiftable_escaped_contents (bs : bytes) : forall pending,
  shiftable (escaped_contents (F := F) pending bs).
Proof.
  induction bs as [|c bs IH]; intros pending; cbn [escaped_contents].
  - destruct pending; auto with shift.
  - destruct (Byte.eqb (ESCAPE c) x00); [apply IH|].
    destruct pending; repeat (apply shiftable_sbind; intros); auto with shift.
Qed.

Lemma shiftable_serialize_str (v : bytes) : shiftable (serialize_str (F := F) v).
Proof.
  unfold serialize_str.
  repeat (apply shiftable_sbind; intros); auto using shiftable_escaped_contents with shift.
Qed.

Lemma shiftable_serialize_key (k : ser_key) : shiftable (serialize_key (F := F) k).
Proof.
  induction k; cbn [serialize_key];
    repeat (apply shiftable_sbind; intros);
    auto using shiftable_serialize_str, shiftable_escaped_contents with shift.
Qed.

Lemma shiftable_serialize_entry (first : bool) (key value : @SM F unit) :
  shiftable key -> shiftable value -> shiftable (serialize_entry first key value).
Proof.
  intros Hk Hv. unfold serialize_entry. repeat (apply shiftable_sbind; intros); auto with shift.
Qed.

Lemma elements_shiftable (xs : list ser_value) :
  Forall (fun v => shiftable (serialize (F := F) v)) xs -> forall first,
  shiftable
    ((fix elements (first : bool) (xs : list ser_value) : @SM F unit :=
        match xs with
        | [] => sret tt
        | x :: xs' =>
            sbind (emit (fun f => begin_array_value f first))
              (fun _ => sbind (serialize x)
                 (fun _ => sbind (emit end_array_value) (fun _ => elements false xs')))
        end) first xs).
Proof.
  induction 1 as [|y l Hy _ IHl]; intros first; [auto with shift|].
  repeat (apply shiftable_sbind; intros); auto with shift.
Qed.

Lemma entries_shiftable (es : list (ser_key * ser_value)) :
  Forall (fun e => shiftable (serialize (F := F) (snd e))) es -> forall first,
  shiftable
    ((fix entries (first : bool) (es : list (ser_key * ser_value)) : @SM F unit :=
        match es with
        | [] => sret tt
        | (k, x) :: es' =>
            sbind (serialize_entry first (serialize_key k) (serialize x))
              (fun _ => entries false es')
        end) first es).
Proof.
  induction 1 as [|[k y] l Hy _ IHl]; intros first; [auto with shift|].
  apply shiftable_sbind; [|intros; auto].
  apply shiftable_serialize_entry; [apply shiftable_serialize_key|exact Hy].
Qed.

Lemma fields_shiftable (fs : list (bytes * ser_value)) :
  Forall (fun e => shiftable (serialize (F := F) (snd e))) fs -> forall first,
  shiftable
    ((fix fields (first : bool) (fs : list (bytes * ser_value)) : @SM F unit :=
        match fs with
        | [] => sret tt
        | (k, x) :: fs' =>
            sbind (serialize_entry first (serialize_key (KeyStr k)) (serialize x))
              (fun _ => fields false fs')
        end) first fs).
Proof.
  induction 1 as [|[k y] l Hy _ IHl]; intros first; [auto with shift|].
  apply shiftable_sbind; [|intros; auto].
  apply shiftable_serialize_entry; [apply shiftable_serialize_key|exact Hy].
Qed.

Lemma shiftable_serialize (v : ser_value) : shiftable (serialize (F := F) v).
Proof.
  induction v as [x|x|s| |xs IH|es IH|fs IH] using ser_value_ind'; cbn [serialize];
    auto using shiftable_serialize_str with shift.
  - destruct xs as [|x xs]; [auto with shift|].
    apply shiftable_sbind; [auto with shift|intros _].
    apply shiftable_sbind; [exact (elements_shiftable _ IH true)|auto with shift].
  - destruct es as [|e es]; [auto with shift|].
    apply shiftable_sbind; [auto with shift|intros _].
    apply shiftable_sbind; [exact (entries_shiftable _ IH true)|auto with shift].
  - destruct fs as [|e fs]; [auto with shift|].
    apply shiftable_sbind; [auto with shift|intros _].
    apply shiftable_sbind; [exact (fields_shiftable _ IH true)|auto with shift].
Qed.

Lemma shiftable_append {A} (m : @SM F A) (s : Serializer F) :
  shiftable m ->
  match m s with
  | SOk _ s' | SErr _ s' => exists r, writer s' = writer s ++ r
  end.
Proof.
  intros Hm. destruct s as [w f]. rewrite Hm.
  destruct (m (mkser [] f)) as [a [w1 f1]|e [w1 f1]]; simpl; eexists; reflexivity.
Qed.

(** ** Encoder: success exactly when every map key is accepted *)

Lemma succeeds_sbind {A B} (m : @SM F A) (k : A -> @SM F B) :
  succeeds m -> (forall a, succeeds (k a)) -> succeeds (sbind m k).
Proof.
  intros Hm Hk s. destruct (Hm s) as [a [s1 E]]. unfold sbind. rewrite E. apply Hk.
Qed.

Lemma succeeds_emit (m : F -> F * bytes) : succeeds (emit m).
Proof. intros s. unfold emit. destruct (m (formatter s)). eexists; eexists; reflexivity. Qed.

Lemma succeeds_sret {A} (a : A) : succeeds (F := F) (sret a).
Proof. intros s. eexists; eexists; reflexivity. Qed.

Lemma fails_sbind_l {A B} (m : @SM F A) (k : A -> @SM F B) :
  fails m -> fails (sbind m k).
Proof. intros Hm s. destruct (Hm s) as [e [s1 E]]. unfold sbind. rewrite E. eauto. Qed.

Lemma fails_sbind_r {A B} (m : @SM F A) (k : A -> @SM F B) :
  succeeds m -> (forall a, fails (k a)) -> fails (sbind m k).
Proof.
  intros Hm Hk s. destruct (Hm s) as [a [s1 E]]. unfold sbind. rewrite E. apply Hk.
Qed.

Create HintDb succ.
Local Hint Resolve succeeds_sbind succeeds_emit succeeds_sret : succ.

Lemma succeeds_escaped_contents (bs : bytes) : forall pending,
  succeeds (escaped_contents (F := F) pending bs).
Proof.
  induction bs as [|c bs IH]; intros pending; cbn [escaped_contents].
  - destruct pending; auto with succ.
  - destruct (Byte.eqb (ESCAPE c) x00); [apply IH|].
    destruct pending; repeat (apply succeeds_sbind; intros); auto with succ.
Qed.

Lemma succeeds_serialize_str (v : bytes) : succeeds (serialize_str (F := F) v).
Proof.
  unfold serialize_str.
  repeat (apply succeeds_sbind; intros); auto using succeeds_escaped_contents with succ.
Qed.

Lemma serialize_key_ok (k : ser_key) :
  (key_ok k = true -> succeeds (serialize_key (F := F) k)) /\
  (key_ok k = false -> fails (serialize_key (F := F) k)).
Proof.
  induction k; cbn [key_ok serialize_key]; split; intros Hk; try discriminate;
    try (intros st; eexists; eexists; reflexivity);
    try (repeat (apply succeeds_sbind; intros);
         auto using succeeds_serialize_str, succeeds_escaped_contents with succ);
    tauto.
Qed.

Lemma serialize_entry_succeeds (first : bool) (key value : @SM F unit) :
  succeeds key -> succeeds value -> succeeds (serialize_entry first key value).
Proof.
  intros Hk Hv. unfold serialize_entry. repeat (apply succeeds_sbind; intros); auto with succ.
Qed.

Lemma serialize_entry_fails (first : bool) (key value : @SM F unit) :
  fails key \/ (succeeds key /\ fails value) -> fails (serialize_entry first key value).
Proof.
  intros Hkv. unfold serialize_entry.
  apply fails_sbind_r; [auto with succ|intros _].
  destruct Hkv as [Hk|[Hk Hv]]; [apply fails_sbind_l; exact Hk|].
  apply fails_sbind_r; [exact Hk|intros _].
  apply fails_sbind_r; [auto with succ|intros _].
  apply fails_sbind_r; [auto with succ|intros _].
  apply fails_sbind_l; exact Hv.
Qed.

Lemma elements_succeeds (xs : list ser_value) :
  Forall (fun v => keys_ok v = true -> succeeds (serialize (F := F) v)) xs ->
  forallb keys_ok xs = true -> forall first,
  succeeds
    ((fix elements (first : bool) (xs : list ser_value) : @SM F unit :=
        match xs with
        | [] => sret tt
        | x :: xs' =>
            sbind (emit (fun f => begin_array_value f first))
              (fun _ => sbind (serialize x)
                 (fun _ => sbind (emit end_array_value) (fun _ => elements false xs')))
        end) first xs).
Proof.
  induction 1 as [|y l Hy _ IHl]; intros Hok first; [auto with succ|].
  cbn [forallb] in Hok. apply Bool.andb_true_iff in Hok as [Hy' Hl].
  repeat (apply succeeds_sbind; intros); auto with succ.
Qed.

Lemma entries_succeeds (es : list (ser_key * ser_value)) :
  Forall (fun e => keys_ok (snd e) = true -> succeeds (serialize (F := F) (snd e))) es ->
  forallb (fun e => key_ok (fst e) && keys_ok (snd e)) es = true -> forall first,
  succeeds
    ((fix entries (first : bool) (es : list (ser_key * ser_value)) : @SM F unit :=
        match es with
        | [] => sret tt
        | (k, x) :: es' =>
            sbind (serialize_entry first (serialize_key k) (serialize x))
              (fun _ => entries false es')
        end) first es).
Proof.
  induction 1 as [|[k y] l Hy _ IHl]; intros Hok first; [auto with succ|].
  cbn [forallb fst snd] in Hok, Hy. apply Bool.andb_true_iff in Hok as [Hky Hl].
  apply Bool.andb_true_iff in Hky as [Hk Hy'].
  apply succeeds_sbind; [|intros; auto].
  apply serialize_entry_succeeds; [apply (proj1 (serialize_key_ok k) Hk)|auto].
Qed.

Lemma fields_succeeds (fs : list (bytes * ser_value)) :
  Forall (fun e => keys_ok (snd e) = true -> succeeds (serialize (F := F) (snd e))) fs ->
  forallb (fun e => keys_ok (snd e)) fs = true -> forall first,
  succeeds
    ((fix fields (first : bool) (fs : list (bytes * ser_value)) : @SM F unit :=
        match fs with
        | [] => sret tt
        | (k, x) :: fs' =>
            sbind (serialize_entry first (serialize_key (KeyStr k)) (serialize x))
              (fun _ => fields false fs')
        end) first fs).
Proof.
  induction 1 as [|[k y] l Hy _ IHl]; intros Hok first; [auto with succ|].
  cbn [forallb fst snd] in Hok, Hy. apply Bool.andb_true_iff in Hok as [Hy' Hl].
  apply succeeds_sbind; [|intros; auto].
  apply serialize_entry_succeeds; [apply succeeds_serialize_str|auto].
Qed.

Lemma serialize_succeeds (v : ser_value) : keys_ok v = true -> succeeds (serialize (F := F) v).
Proof.
  induction v as [x|x|s| |xs IH|es IH|fs IH] using ser_value_ind'; cbn [serialize keys_ok];
    intros Hok; auto using succeeds_serialize_str with succ.
  - destruct xs as [|x xs]; [auto with succ|].
    apply succeeds_sbind; [auto with succ|intros _].
    apply succeeds_sbind; [exact (elements_succeeds _ IH Hok true)|auto with succ].
  - destruct es as [|e es]; [auto with succ|].
    apply succeeds_sbind; [auto with succ|intros _].
    apply succeeds_sbind; [exact (entries_succeeds _ IH Hok true)|auto with succ].
  - destruct fs as [|e fs]; [auto with succ|].
    apply succeeds_sbind; [auto with succ|intros _].
    apply succeeds_sbind; [exact (fields_succeeds _ IH Hok true)|auto with succ].
Qed.

Lemma elements_fails (xs : list ser_value) :
  Forall (fun v => keys_ok v = false -> fails (serialize (F := F) v)) xs ->
  forallb keys_ok xs = false -> forall first,
  fails
    ((fix elements (first : bool) (xs : list ser_value) : @SM F unit :=
        match xs with
        | [] => sret tt
        | x :: xs' =>
            sbind (emit (fun f => begin_array_value f first))
              (fun _ => sbind (serialize x)
                 (fun _ => sbind (emit end_array_value) (fun _ => elements false xs')))
        end) first xs).
Proof.
  induction 1 as [|y l Hy _ IHl]; intros Hok first; [discriminate|].
  cbn [forallb] in Hok.
  apply fails_sbind_r; [auto with succ|intros _].
  destruct (keys_ok y) eqn:Ey.
  - apply fails_sbind_r; [apply serialize_succeeds; exact Ey|intros _].
    apply fails_sbind_r; [auto with succ|intros _]. apply IHl. exact Hok.
  - apply fails_sbind_l. apply Hy. reflexivity.
Qed.

Lemma entries_fails (es : list (ser_key * ser_value)) :
  Forall (fun e => keys_ok (snd e) = false -> fails (serialize (F := F) (snd e))) es ->
  forallb (fun e => key_ok (fst e) && keys_ok (snd e)) es = false -> forall first,
  fails
    ((fix entries (first : bool) (es : list (ser_key * ser_value)) : @SM F unit :=
        match es with
        | [] => sret tt
        | (k, x) :: es' =>
            sbind (serialize_entry first (serialize_key k) (serialize x))
              (fun _ => entries false es')
        end) first es).
Proof.
  induction 1 as [|[k y] l Hy _ IHl]; intros Hok first; [discriminate|].
  cbn [forallb fst snd] in Hok, Hy.
  destruct (key_ok k) eqn:Ek; destruct (keys_ok y) eqn:Ey; cbn [andb] in Hok.
  - apply fails_sbind_r; [|intros _; apply IHl; exact Hok].
    apply serialize_entry_succeeds; [apply (proj1 (serialize_key_ok k) Ek)|].
    apply serialize_succeeds; exact Ey.
  - apply fails_sbind_l. apply serialize_entry_fails. right.
    split; [apply (proj1 (serialize_key_ok k) Ek)|apply Hy; reflexivity].
  - apply fails_sbind_l. apply serialize_entry_fails. left. apply (proj2 (serialize_key_ok k) Ek).
  - apply fails_sbind_l. apply serialize_entry_fails. left. apply (proj2 (serialize_key_ok k) Ek).
Qed.

Lemma fields_fails (fs : list (bytes * ser_value)) :
  Forall (fun e => keys_ok (snd e) = false -> fails (serialize (F := F) (snd e))) fs ->
  forallb (fun e => keys_ok (snd e)) fs = false -> forall first,
  fails
    ((fix fields (first : bool) (fs : list (bytes * ser_value)) : @SM F unit :=
        match fs with
        | [] => sret tt
        | (k, x) :: fs' =>
            sbind (serialize_entry first (serialize_key (KeyStr k)) (serialize x))
              (fun _ => fields false fs')
        end) first fs).
Proof.
  induction 1 as [|[k y] l Hy _ IHl]; intros Hok first; [discriminate|].
  cbn [forallb fst snd] in Hok, Hy.
  destruct (keys_ok y) eqn:Ey; cbn [andb] in Hok.
  - apply fails_sbind_r; [|intros _; apply IHl; exact Hok].
    apply serialize_entry_succeeds; [apply succeeds_serialize_str|].
    apply serialize_succeeds; exact Ey.
  - apply fails_sbind_l. apply serialize_entry_fails. right.
    split; [apply succeeds_serialize_str|apply Hy; reflexivity].
Qed.

Lemma serialize_fails (v : ser_value) : keys_ok v = false -> fails (serialize (F := F) v).
Proof.
  induction v as [x|x|s| |xs IH|es IH|fs IH] using ser_value_ind'; cbn [serialize keys_ok];
    intros Hok; try discriminate.
  - destruct xs as [|x xs]; [discriminate|].
    apply fails_sbind_r; [auto with succ|intros _].
    apply fails_sbind_l. exact (elements_fails _ IH Hok true).
  - destruct es as [|e es]; [discriminate|].
    apply fails_sbind_r; [auto with succ|intros _].
    apply fails_sbind_l. exact (entries_fails _ IH Hok true).
  - destruct fs as [|e fs]; [discriminate|].
    apply fails_sbind_r; [auto with succ|intros _].
    apply fails_sbind_l. exact (fields_fails _ IH Hok true).
Qed.

End EncoderShift.

(** Encoding a [ser_value] (no newtype structs) into a [Vec<u8>] succeeds
    exactly when every map key in the value is a string, a unit variant,
    an integer or a newtype around one; otherwise the error is
    [KeyMustBeAString]. *)
Theorem to_vec_with_keys_ok {F : Type} `{Formatter F} (fmt : F) (v : ser_value) :
  ((exists out, to_vec_with fmt v = inr out) <-> keys_ok v = true) /\
  (to_vec_with fmt v = inl key_must_be_a_string <-> keys_ok v = false).
Proof.
  unfold to_vec_with.
  destruct (keys_ok v) eqn:E.
  - destruct (serialize_succeeds v E (mkser [] fmt)) as [a [s' Hs]]. rewrite Hs.
    split; split; intros; eauto; discriminate.
  - destruct (serialize_fails v E (mkser [] fmt)) as [e [s' Hs]]. rewrite Hs.
    pose proof (serialize_errors v _ _ _ Hs) as ->.
    split; split; intros; try reflexivity; try discriminate.
    destruct H0 as [out Hout]. discriminate.
Qed.

(** C2 (amended): for any formatter, encoding a map one of whose keys is
    a boolean or a float fails with [KeyMustBeAString], an error of the
    Syntax category.  A struct's field names are static strings written
    through [serialize_str] and are never rejected: a struct is encoded
    exactly when no map inside its field values has a rejected key.  The
    values here are those of [ser_value], which holds no newtype struct. *)
Theorem C2_amended_key_rejection {F : Type} `{Formatter F} (fmt : F) :
  (forall (es : list (ser_key * ser_value)) (k : ser_key) (x : ser_value),
   In (k, x) es -> bool_or_float_key k = true ->
   exists e, to_vec_with fmt (SerMap es) = inl e /\
             code e = KeyMustBeAString /\ classify e = CatSyntax) /\
  (forall fs : list (bytes * ser_value),
   (exists out, to_vec_with fmt (SerStruct fs) = inr out) <->
   Forall (fun f => keys_ok (snd f) = true) fs).
Proof.
  split.
  - intros es k x Hin Hk.
    assert (Hfail : exists e s', serialize (SerMap es) (mkser [] fmt) = SErr e s').
    { destruct es as [|e0 es']; [destruct Hin|].
      pose proof (entries_fail k x (e0 :: es') Hin Hk true) as Hs.
      cbn [serialize]. unfold sbind at 1, emit at 1.
      destruct (begin_object (formatter (mkser [] fmt))) as [f1 o1].
      unfold sbind at 1.
      destruct (Hs (mkser (writer (mkser [] fmt) ++ o1) f1)) as [e [s' Hs']].
      rewrite Hs'. eexists; eexists; reflexivity. }
    destruct Hfail as [e [s' Hs]].
    pose proof (serialize_errors (SerMap es) _ _ _ Hs) as ->.
    exists key_must_be_a_string. unfold to_vec_with. rewrite Hs.
    split; [reflexivity|split; reflexivity].
  - intros fs.
    assert (Hff : Forall (fun f => keys_ok (snd f) = true) fs <-> keys_ok (SerStruct fs) = true)
      by (cbn [keys_ok]; rewrite Forall_forall, forallb_forall; reflexivity).
    rewrite Hff. unfold to_vec_with.
    destruct (keys_ok (SerStruct fs)) eqn:E.
    + destruct (serialize_succeeds (SerStruct fs) E (mkser [] fmt)) as [a [s' Hs]].
      rewrite Hs. split; intros; eauto.
    + destruct (serialize_fails (SerStruct fs) E (mkser [] fmt)) as [e [s' Hs]].
      rewrite Hs. split; [intros [out Hout]; discriminate|discriminate].
Qed.

Lemma C2_amended_key_rejection_witness :
  In (KeyBool true, SerUnit) [(KeyBool true, SerUnit)] /\
  bool_or_float_key (KeyBool true) = true /\
  exists e, to_vec_with PrettyFormatter_new (SerMap [(KeyBool true, SerUnit)]) = inl e /\
            code e = KeyMustBeAString /\ classify e = CatSyntax.
Proof.
  split; [left; reflexivity|]. split; [reflexivity|].
  exact (proj1 (C2_amended_key_rejection PrettyFormatter_new) [(KeyBool true, SerUnit)]
           (KeyBool true) SerUnit (or_introl eq_refl) eq_refl).
Defined.

(** C2: a boolean map key is rejected with an error that [classify]
    reports as Syntax, not Data. *)
Lemma C2_bool_key_error_is_syntax :
  to_vec (SerMap [(KeyBool true, SerUnit)]) = inl key_must_be_a_string /\
  classify key_must_be_a_string = CatSyntax.
Proof. split; vm_compute; reflexivity. Qed.

(** ** Encoder: string escaping *)

Section DefaultStrings.
Context {F : Type} `{Formatter F}.
Hypothesis Hfrag : forall f x, write_string_fragment f x = (f, x).
Hypothesis Hesc : forall f e,
  write_char_escape f e = (f, snd (FormatterDefaults.write_char_escape CompactFormatter_ e)).
Hypothesis Hbegin : forall f, begin_string f = (f, [x22]).
Hypothesis Hend : forall f, end_string f = (f, [x22]).

Lemma escaped_contents_out (bs : bytes) : forall pending w f,
  escaped_contents pending bs (mkser w f) = SOk tt (mkser (w ++ rev pending ++ escape_all bs) f).
Proof.
  induction bs as [|c bs IH]; intros pending w f; cbn [escaped_contents escape_all flat_map].
  - destruct pending as [|c pending].
    + cbn. rewrite !app_nil_r. reflexivity.
    + unfold emit. cbn [formatter writer]. rewrite Hfrag. rewrite app_nil_r. reflexivity.
  - unfold escape_byte at 1.
    destruct (Byte.eqb (ESCAPE c) x00) eqn:E.
    + rewrite IH. cbn [rev]. rewrite <- !app_assoc. reflexivity.
    + destruct pending as [|c0 pending].
      * unfold sbind, sret, emit at 1. cbn [formatter writer]. rewrite Hesc.
        cbn [writer formatter]. rewrite IH. cbn [rev]. rewrite <- !app_assoc. reflexivity.
      * unfold sbind, emit at 1 2. cbn [formatter writer]. rewrite Hfrag.
        cbn [writer formatter]. rewrite Hesc. cbn [writer formatter]. rewrite IH.
        cbn [rev]. rewrite <- !app_assoc. reflexivity.
Qed.

Lemma serialize_str_out (x w : bytes) (f : F) :
  serialize_str x (mkser w f) = SOk tt (mkser (w ++ x22 :: escape_all x ++ [x22]) f).
Proof.
  unfold serialize_str, sbind, emit at 1. cbn [formatter writer]. rewrite Hbegin.
  rewrite escaped_contents_out. unfold emit. cbn [formatter writer]. rewrite Hend.
  cbn [rev]. rewrite <- !app_assoc. reflexivity.
Qed.

End DefaultStrings.

Lemma escape_byte_printable (c : byte) : forallb (fun y => 32 <=? bval y) (escape_byte c) = true.
Proof. destruct c; reflexivity. Qed.

Lemma escape_byte_plain (c : byte) :
  (32 <=? bval c) && negb (Byte.eqb c x22) && negb (Byte.eqb c x5c) = true -> escape_byte c = [c].
Proof. destruct c; first [reflexivity | discriminate]. Qed.

(** [serialize_str] for both formatters: a quote, the escaped bytes, a
    quote.  Every escaped byte is printable (no byte below [0x20]); a text
    of printable bytes without quote or backslash is written unchanged. *)
Theorem serialize_str_escaped (x w : bytes) :
  (forall c : CompactFormatter,
     serialize (SerStr x) (mkser w c) = SOk tt (mkser (w ++ x22 :: escape_all x ++ [x22]) c)) /\
  (forall p : PrettyFormatter,
     serialize (SerStr x) (mkser w p) = SOk tt (mkser (w ++ x22 :: escape_all x ++ [x22]) p)) /\
  forallb (fun y => 32 <=? bval y) (escape_all x) = true /\
  (forallb (fun c => (32 <=? bval c) && negb (Byte.eqb c x22) && negb (Byte.eqb c x5c)) x = true ->
   escape_all x = x).
Proof.
  split; [|split; [|split]].
  - intros c. apply serialize_str_out; reflexivity.
  - intros p. apply serialize_str_out; reflexivity.
  - unfold escape_all. induction x as [|c x IH]; [reflexivity|].
    cbn [flat_map]. rewrite forallb_app, escape_byte_printable, IH. reflexivity.
  - unfold escape_all. induction x as [|c x IH]; [reflexivity|].
    cbn [forallb flat_map]. intros Hx. apply Bool.andb_true_iff in Hx as [Hc Hx].
    rewrite escape_byte_plain by exact Hc. rewrite IH by exact Hx. reflexivity.
Qed.

(** ** Encoder: compact text of sequences and structs *)

Lemma compact_out (x : ser_value) (o : bytes) :
  to_vec x = inr o -> forall w (c : CompactFormatter),
  serialize x (mkser w c) = SOk tt (mkser (w ++ o) c).
Proof.
  unfold to_vec, to_vec_with. intros Hx w c.
  destruct (serialize x (mkser [] CompactFormatter_)) as [[] [w1 f1]|e s] eqn:E; [|discriminate].
  injection Hx as <-. destruct c. rewrite shiftable_serialize, E. destruct f1. reflexivity.
Qed.

Lemma compact_elements (xs : list ser_value) (os : list bytes) :
  Forall2 (fun x o => to_vec x = inr o) xs os -> forall first w (c : CompactFormatter),
  (fix elements (first : bool) (xs : list ser_value) : @SM CompactFormatter unit :=
     match xs with
     | [] => sret tt
     | x :: xs' =>
         sbind (emit (fun f => begin_array_value f first))
           (fun _ => sbind (serialize x)
              (fun _ => sbind (emit end_array_value) (fun _ => elements false xs')))
     end) first xs (mkser w c)
  = SOk tt (mkser (w ++ match os with
                        | [] => []
                        | o :: os' => (if first then [] else [" "%byte]) ++ o ++
                                      flat_map (fun y => [" "%byte] ++ y) os'
                        end) c).
Proof.
  induction 1 as [|x o xs os Hx _ IH]; intros first w c.
  - rewrite app_nil_r. reflexivity.
  - unfold sbind at 1, emit at 1. cbn [formatter writer begin_array_value Formatter_CompactFormatter
      FormatterDefaults.begin_array_value].
    unfold sbind at 1. rewrite (compact_out x o Hx).
    unfold sbind at 1, emit at 1. cbn [formatter writer end_array_value Formatter_CompactFormatter
      FormatterDefaults.end_array_value].
    rewrite IH. f_equal. f_equal. rewrite <- !app_assoc. f_equal.
    destruct first, os; cbn [app]; rewrite ?app_nil_r; try reflexivity;
      rewrite <- ?app_assoc; reflexivity.
Qed.

Lemma compact_seq (xs : list ser_value) (os : list bytes) :
  Forall2 (fun x o => to_vec x = inr o) xs os ->
  to_vec (SerSeq xs) = inr ("("%byte :: join_with [" "%byte] os ++ [")"%byte]).
Proof.
  intros H. destruct xs as [|x xs].
  - inversion H; subst. reflexivity.
  - unfold to_vec, to_vec_with. cbn [serialize].
    unfold sbind at 1, emit at 1. cbn [formatter writer begin_array Formatter_CompactFormatter
      FormatterDefaults.begin_array].
    unfold sbind at 1. rewrite (compact_elements _ _ H true).
    unfold emit. cbn. inversion H; subst. cbn [join_with]. reflexivity.
Qed.

(** The compact text of a sequence is its elements' texts, separated by
    spaces, in parentheses. *)
Theorem to_vec_seq (xs : list ser_value) (os : list bytes)
  (H : Forall2 (fun x o => to_vec x = inr o) xs os) :
  to_vec (SerSeq xs) = inr ("("%byte :: join_with [" "%byte] os ++ [")"%byte]).
Proof. exact (compact_seq xs os H). Qed.

Lemma to_vec_seq_witness :
  Forall2 (fun x o => to_vec x = inr o) [SerInt 12; SerSeq []; SerBool false] [b "12"; b "()"; b "#f"] /\
  to_vec (SerSeq [SerInt 12; SerSeq []; SerBool false]) =
  inr ("("%byte :: join_with [" "%byte] [b "12"; b "()"; b "#f"] ++ [")"%byte]).
Proof.
  assert (H : Forall2 (fun x o => to_vec x = inr o) [SerInt 12; SerSeq []; SerBool false]
                [b "12"; b "()"; b "#f"]).
  { repeat constructor. }
  split; [exact H|exact (to_vec_seq _ _ H)].
Defined.

Lemma compact_fields (fs : list (bytes * ser_value)) (os : list bytes) :
  Forall2 (fun e o => to_vec (snd e) = inr o) fs os -> forall first w (c : CompactFormatter),
  (fix fields (first : bool) (fs : list (bytes * ser_value)) : @SM CompactFormatter unit :=
     match fs with
     | [] => sret tt
     | (k, x) :: fs' =>
         sbind (serialize_entry first (serialize_key (KeyStr k)) (serialize x))
           (fun _ => fields false fs')
     end) first fs (mkser w c)
  = SOk tt (mkser (w ++ match map (fun p => field_text (fst (fst p)) (snd p)) (combine fs os) with
                        | [] => []
                        | t :: ts => (if first then [] else [" "%byte]) ++ t ++
                                     flat_map (fun y => [" "%byte] ++ y) ts
                        end) c).
Proof.
  induction 1 as [|[k x] o fs os Hx _ IH]; intros first w c.
  - rewrite app_nil_r. reflexivity.
  - cbn [snd] in Hx. unfold sbind at 1, serialize_entry.
    unfold sbind at 1, emit at 1. cbn [formatter writer begin_object_key Formatter_CompactFormatter
      FormatterDefaults.begin_object_key].
    unfold sbind at 1. cbn [serialize_key].
    rewrite (serialize_str_out (F := CompactFormatter)) by reflexivity.
    unfold sbind at 1, emit at 1. cbn [formatter writer end_object_key Formatter_CompactFormatter
      FormatterDefaults.end_object_key].
    unfold sbind at 1, emit at 1. cbn [formatter writer begin_object_value Formatter_CompactFormatter
      FormatterDefaults.begin_object_value].
    unfold sbind at 1. rewrite (compact_out x o Hx).
    unfold emit at 1. cbn [formatter writer end_object_value Formatter_CompactFormatter
      FormatterDefaults.end_object_value].
    rewrite IH. f_equal. f_equal. cbn [combine map fst snd]. unfold field_text.
    rewrite <- !app_assoc. f_equal.
    clear IH. destruct first, (combine fs os); simpl; rewrite ?app_nil_r, <- ?app_assoc; simpl;
      rewrite <- ?app_assoc; reflexivity.
Qed.

Lemma fields_to_vec (fs : list (bytes * ser_value)) :
  forallb (fun e => keys_ok (snd e)) fs = true ->
  exists os, Forall2 (fun e o => to_vec (snd e) = inr o) fs os.
Proof.
  induction fs as [|[k x] fs IH]; intros Hok; [exists []; constructor|].
  cbn [forallb fst snd] in Hok. apply Bool.andb_true_iff in Hok as [Hx Hfs].
  destruct (proj2 (proj1 (to_vec_with_keys_ok CompactFormatter_ x)) Hx) as [o Ho].
  destruct (IH Hfs) as [os Hos]. exists (o :: os). constructor; assumption.
Qed.

(** The compact text of a struct is its fields' texts, separated by
    spaces, in parentheses; a field is its escaped name in quotes, [.],
    and the value's text. *)
Theorem to_vec_struct (fs : list (bytes * ser_value)) (os : list bytes)
  (H : Forall2 (fun e o => to_vec (snd e) = inr o) fs os) :
  to_vec (SerStruct fs) =
  inr ("("%byte :: join_with [" "%byte] (map (fun p => field_text (fst (fst p)) (snd p)) (combine fs os))
       ++ [")"%byte]).
Proof.
  destruct fs as [|e fs].
  - inversion H; subst. reflexivity.
  - unfold to_vec, to_vec_with. cbn [serialize].
    unfold sbind at 1, emit at 1. cbn [formatter writer begin_object Formatter_CompactFormatter
      FormatterDefaults.begin_object].
    unfold sbind at 1. rewrite (compact_fields _ _ H true).
    unfold emit. cbn. inversion H; subst. cbn [combine map join_with]. reflexivity.
Qed.

Lemma to_vec_struct_witness :
  Forall2 (fun e o => to_vec (snd e) = inr o) [(b "a", SerInt 1); (b "b", SerBool true)] [b "1"; b "#t"] /\
  to_vec (SerStruct [(b "a", SerInt 1); (b "b", SerBool true)]) =
  inr ("("%byte :: join_with [" "%byte]
        (map (fun p => field_text (fst (fst p)) (snd p))
           (combine [(b "a", SerInt 1); (b "b", SerBool true)] [b "1"; b "#t"])) ++ [")"%byte]).
Proof.
  assert (H : Forall2 (fun e o => to_vec (snd e) = inr o) [(b "a", SerInt 1); (b "b", SerBool true)]
                [b "1"; b "#t"]) by (repeat constructor).
  split; [exact H|exact (to_vec_struct _ _ H)].
Defined.

Lemma from_trait_struct_quote (sh : list (bytes * shape)) (r : bytes) :
  from_trait (SStruct sh) ("("%byte :: x22 :: r) = Err ExpectedList (mkde (x22 :: r) 128).
Proof.
  unfold from_trait, Deserialize, bind at 1, fuel_for, Deserializer_new. cbn [rest List.length].
  replace (16 * (S (S (List.length r)) + 4))%nat with (S (S (16 * (S (S (List.length r)) + 4) - 2)))
    by lia.
  cbn [deserialize visit_map]. unfold bind at 1, parse_whitespace. cbn [rest skip_ws].
  replace (is_ws "("%byte) with false by reflexivity.
  cbn [hd_error remaining_depth]. rewrite (Byte.byte_dec_lb (eq_refl "("%byte)).
  unfold bind, eat_char, next_key, parse_whitespace. cbn [rest tl skip_ws].
  replace (is_ws x22) with false by reflexivity. cbn [hd_error].
  replace (Byte.eqb x22 ")"%byte) with false by reflexivity.
  replace (Byte.eqb x22 "("%byte) with false by reflexivity.
  reflexivity.
Qed.

(** A struct written by the encoder, with at least one field, is not read
    back by the struct decoder: after [(] it expects the [(] of an entry
    and meets the field name's quote. *)
Theorem struct_output_rejected (fs : list (bytes * ser_value)) (sh : list (bytes * shape)) (out : bytes)
  (Hne : fs <> []) (Hout : to_vec (SerStruct fs) = inr out) :
  exists r, out = "("%byte :: x22 :: r /\
            from_trait (SStruct sh) out = Err ExpectedList (mkde (x22 :: r) 128).
Proof.
  assert (Hok : keys_ok (SerStruct fs) = true)
    by (apply (proj1 (to_vec_with_keys_ok CompactFormatter_ _)); eauto).
  destruct (fields_to_vec fs Hok) as [os Hos].
  rewrite (to_vec_struct fs os Hos) in Hout. injection Hout as <-.
  destruct Hos as [|[k x] o fs' os' Hx Hrest]; [contradiction|].
  cbn [combine map join_with fst snd]. unfold field_text at 1. cbn [app].
  eexists. split; [reflexivity|]. apply from_trait_struct_quote.
Qed.

Lemma struct_output_rejected_witness :
  [(b "a", SerInt 1)] <> [] /\
  to_vec (SerStruct [(b "a", SerInt 1)]) = inr ("("%byte :: x22 :: b "a" ++ x22 :: b ".1)") /\
  exists r, "("%byte :: x22 :: b "a" ++ x22 :: b ".1)" = "("%byte :: x22 :: r /\
    from_trait (SStruct [(b "a", SSexp)]) ("("%byte :: x22 :: b "a" ++ x22 :: b ".1)") =
    Err ExpectedList (mkde (x22 :: r) 128).
Proof.
  assert (Hne : [(b "a", SerInt 1)] <> []) by discriminate.
  assert (Hout : to_vec (SerStruct [(b "a", SerInt 1)]) = inr ("("%byte :: x22 :: b "a" ++ x22 :: b ".1)"))
    by reflexivity.
  split; [exact Hne|split; [exact Hout|]].
  exact (struct_output_rejected _ [(b "a", SSexp)] _ Hne Hout).
Defined.

(** ** Encoder: pretty printing restores the indentation *)

Lemma keeps_sbind {A B} (m : @SM PrettyFormatter A) (k : A -> @SM PrettyFormatter B) :
  keeps_indent m -> (forall a, keeps_indent (k a)) -> keeps_indent (sbind m k).
Proof.
  intros Hm Hk s b s' Hs. unfold sbind in Hs.
  destruct (m s) as [a s1|e s1] eqn:E; [|discriminate].
  destruct (Hk a s1 b s' Hs) as [H1 H2]. destruct (Hm s a s1 E) as [H3 H4].
  split; congruence.
Qed.

Lemma keeps_emit (m : PrettyFormatter -> PrettyFormatter * bytes) :
  (forall p, current_indent (fst (m p)) = current_indent p /\ indent_unit (fst (m p)) = indent_unit p) ->
  keeps_indent (emit m).
Proof.
  intros Hm s a s' Hs. unfold emit in Hs. specialize (Hm (formatter s)).
  destruct (m (formatter s)) as [f out]. injection Hs as <- <-. exact Hm.
Qed.

Lemma keeps_sret {A} (a : A) : keeps_indent (sret a).
Proof. intros s b s' Hs. injection Hs as <- <-. split; reflexivity. Qed.

Lemma keeps_sfail {A} (e : Error) : keeps_indent (A := A) (sfail e).
Proof. intros s b s' Hs. discriminate. Qed.

Lemma keeps_bracket (opn cls : bytes) (body : @SM PrettyFormatter unit) :
  keeps_indent body ->
  keeps_indent (sbind (emit (pretty_open opn)) (fun _ => sbind body (fun _ => emit (pretty_close cls)))).
Proof.
  intros Hb [w p] a s' Hs. unfold sbind, emit at 1 in Hs. cbn [formatter writer pretty_open] in Hs.
  destruct (body _) as [[] s1|e s1] eqn:E; [|discriminate].
  destruct (Hb _ _ _ E) as [H1 H2]. cbn [formatter current_indent indent_unit] in H1, H2.
  unfold emit, pretty_close in Hs. injection Hs as <- <-. cbn.
  rewrite H1, H2. split; reflexivity.
Qed.

Create HintDb indent.
Local Hint Resolve keeps_sbind keeps_sret keeps_sfail : indent.
Local Hint Extern 1 (keeps_indent (emit _)) => (apply keeps_emit; intros; split; reflexivity) : indent.

Lemma keeps_escaped_contents (bs : bytes) : forall pending,
  keeps_indent (escaped_contents (F := PrettyFormatter) pending bs).
Proof.
  induction bs as [|c bs IH]; intros pending; cbn [escaped_contents].
  - destruct pending; auto with indent.
  - destruct (Byte.eqb (ESCAPE c) x00); [apply IH|].
    destruct pending; repeat (apply keeps_sbind; intros); auto with indent.
Qed.

Lemma keeps_serialize_key (k : ser_key) : keeps_indent (serialize_key (F := PrettyFormatter) k).
Proof.
  induction k; cbn [serialize_key]; try unfold serialize_str;
    repeat (apply keeps_sbind; intros); auto using keeps_escaped_contents with indent.
Qed.

Lemma keeps_serialize_entry (first : bool) (key value : @SM PrettyFormatter unit) :
  keeps_indent key -> keeps_indent value -> keeps_indent (serialize_entry first key value).
Proof.
  intros Hk Hv. unfold serialize_entry. repeat (apply keeps_sbind; intros); auto with indent.
Qed.

Lemma keeps_elements (xs : list ser_value) :
  Forall (fun v => keeps_indent (serialize (F := PrettyFormatter) v)) xs -> forall first,
  keeps_indent
    ((fix elements (first : bool) (xs : list ser_value) : @SM PrettyFormatter unit :=
        match xs with
        | [] => sret tt
        | x :: xs' =>
            sbind (emit (fun f => begin_array_value f first))
              (fun _ => sbind (serialize x)
                 (fun _ => sbind (emit end_array_value) (fun _ => elements false xs')))
        end) first xs).
Proof.
  induction 1 as [|y l Hy _ IHl]; intros first; [auto with indent|].
  repeat (apply keeps_sbind; intros); auto with indent.
Qed.

Lemma keeps_entries (es : list (ser_key * ser_value)) :
  Forall (fun e => keeps_indent (serialize (F := PrettyFormatter) (snd e))) es -> forall first,
  keeps_indent
    ((fix entries (first : bool) (es : list (ser_key * ser_value)) : @SM PrettyFormatter unit :=
        match es with
        | [] => sret tt
        | (k, x) :: es' =>
            sbind (serialize_entry first (serialize_key k) (serialize x))
              (fun _ => entries false es')
        end) first es).
Proof.
  induction 1 as [|[k y] l Hy _ IHl]; intros first; [auto with indent|].
  apply keeps_sbind; [|intros; auto].
  apply keeps_serialize_entry; [apply keeps_serialize_key|exact Hy].
Qed.

Lemma keeps_fields (fs : list (bytes * ser_value)) :
  Forall (fun e => keeps_indent (serialize (F := PrettyFormatter) (snd e))) fs -> forall first,
  keeps_indent
    ((fix fields (first : bool) (fs : list (bytes * ser_value)) : @SM PrettyFormatter unit :=
        match fs with
        | [] => sret tt
        | (k, x) :: fs' =>
            sbind (serialize_entry first (serialize_key (KeyStr k)) (serialize x))
              (fun _ => fields false fs')
        end) first fs).
Proof.
  induction 1 as [|[k y] l Hy _ IHl]; intros first; [auto with indent|].
  apply keeps_sbind; [|intros; auto].
  apply keeps_serialize_entry; [apply keeps_serialize_key|exact Hy].
Qed.

Lemma keeps_serialize (v : ser_value) : keeps_indent (serialize (F := PrettyFormatter) v).
Proof.
  induction v as [x|x|s| |xs IH|es IH|fs IH] using ser_value_ind'; cbn [serialize];
    try unfold serialize_str; repeat (apply keeps_sbind; intros);
    auto using keeps_escaped_contents with indent.
  - destruct xs as [|x xs]; [apply keeps_bracket; auto with indent|].
    apply keeps_bracket. exact (keeps_elements _ IH true).
  - destruct es as [|e es]; [apply keeps_bracket; auto with indent|].
    apply keeps_bracket. exact (keeps_entries _ IH true).
  - destruct fs as [|e fs]; [apply keeps_bracket; auto with indent|].
    apply keeps_bracket. exact (keeps_fields _ IH true).
Qed.

(** After a successful [serialize] the pretty formatter is back at the
    indentation level and unit it started with; every nested [(] or [{]
    is matched by one step back. *)
Theorem pretty_indent_restored (v : ser_value) (w w' : bytes) (p p' : PrettyFormatter)
  (Hs : serialize v (mkser w p) = SOk tt (mkser w' p')) :
  current_indent p' = current_indent p /\ indent_unit p' = indent_unit p.
Proof. exact (keeps_serialize v _ _ _ Hs). Qed.

Lemma pretty_indent_restored_witness :
  serialize (SerSeq [SerSeq [SerInt 1]; SerStruct [(b "k", SerBool true)]])
    (mkser [] (mkpretty 3 true (b "  "))) =
  SOk tt (mkser (b "(" ++ [x0a] ++ b "        (" ++ [x0a] ++ b "          1" ++ [x0a] ++ b "        )"
                ++ [x0a] ++ b "        {" ++ [x0a] ++ b "          " ++ [x22] ++ b "k" ++ [x22]
                ++ b ": #t" ++ [x0a] ++ b "        }" ++ [x0a] ++ b "      )")
                (mkpretty 3 true (b "  "))) /\
  current_indent (mkpretty 3 true (b "  ")) = current_indent (mkpretty 3 true (b "  ")) /\
  indent_unit (mkpretty 3 true (b "  ")) = indent_unit (mkpretty 3 true (b "  ")).
Proof.
  assert (Hs : serialize (SerSeq [SerSeq [SerInt 1]; SerStruct [(b "k", SerBool true)]])
    (mkser [] (mkpretty 3 true (b "  "))) =
  SOk tt (mkser (b "(" ++ [x0a] ++ b "        (" ++ [x0a] ++ b "          1" ++ [x0a] ++ b "        )"
                ++ [x0a] ++ b "        {" ++ [x0a] ++ b "          " ++ [x22] ++ b "k" ++ [x22]
                ++ b ": #t" ++ [x0a] ++ b "        }" ++ [x0a] ++ b "      )")
                (mkpretty 3 true (b "  ")))) by (vm_compute; reflexivity).
  split; [exact Hs|exact (pretty_indent_restored _ _ _ _ _ Hs)].
Defined.

(** ** Atoms: encoder output and re-reading *)

Lemma to_vec_str (x : bytes) : to_vec (SerStr x) = inr (x22 :: escape_all x ++ [x22]).
Proof.
  unfold to_vec, to_vec_with.
  replace (serialize (SerStr x) (mkser [] CompactFormatter_))
    with (SOk tt (mkser ([] ++ x22 :: escape_all x ++ [x22]) CompactFormatter_))
    by (symmetry; apply serialize_str_out; reflexivity).
  reflexivity.
Qed.

Lemma write_bare_string_str (x : bytes) : write_bare_string (SerStr x) = Some (escape_all x).
Proof.
  unfold write_bare_string. rewrite to_vec_str.
  cbn [List.length skipn]. rewrite length_app. cbn [List.length].
  replace (2 <=? S (List.length (escape_all x) + 1))%nat with true
    by (symmetry; apply Nat.leb_le; lia).
  replace (S (List.length (escape_all x) + 1) - 2)%nat with (List.length (escape_all x)) by lia.
  rewrite firstn_app, firstn_all, Nat.sub_diag, app_nil_r. reflexivity.
Qed.

(** [impl Serialize for Atom], with the compact and the pretty formatter:
    a symbol is written as its escaped text with no quotes, while a keyword
    and a string with the same text are both written as the same quoted
    string. *)
Theorem atom_serialize_text (x w : bytes) :
  (forall c : CompactFormatter,
     atom_serialize (Symbol x) (mkser w c) = Some (SOk tt (mkser (w ++ escape_all x) c)) /\
     atom_serialize (Keyword x) (mkser w c) = Some (SOk tt (mkser (w ++ x22 :: escape_all x ++ [x22]) c)) /\
     atom_serialize (AString x) (mkser w c) = Some (SOk tt (mkser (w ++ x22 :: escape_all x ++ [x22]) c))) /\
  (forall p : PrettyFormatter,
     atom_serialize (Symbol x) (mkser w p) = Some (SOk tt (mkser (w ++ escape_all x) p)) /\
     atom_serialize (Keyword x) (mkser w p) = Some (SOk tt (mkser (w ++ x22 :: escape_all x ++ [x22]) p)) /\
     atom_serialize (AString x) (mkser w p) = Some (SOk tt (mkser (w ++ x22 :: escape_all x ++ [x22]) p))).
Proof.
  split; intros f; cbn [atom_serialize]; unfold serialize_newtype_struct;
    rewrite write_bare_string_str; cbn [writer formatter];
    (split; [reflexivity|]); rewrite serialize_str_out by reflexivity; split; reflexivity.
Qed.

Lemma starts_with_one_nonempty (c : byte) (s : bytes) : starts_with [c] s = true -> s <> [].
Proof. destruct s; cbn; congruence. Qed.

Lemma skipn_not_same (n : nat) (s : bytes) : (0 < n)%nat -> s <> [] -> skipn n s <> s.
Proof.
  intros Hn Hs E. apply (f_equal (@List.length byte)) in E. rewrite length_skipn in E.
  destruct s; [contradiction|]. cbn [List.length] in E. lia.
Qed.

(** [Atom::deserialize] on an atom hands the stored text to
    [Atom::from_string], which discriminates it again.  Only a symbol whose
    text discriminates to a symbol comes back unchanged: a keyword or a
    string never does, since its stored text has lost the prefix or the
    opening quote that made it one. *)
Theorem atom_reread_fixed (a : Atom) :
  atom_reread a = a <-> exists x, a = Symbol x /\ discriminate x = Symbol x.
Proof.
  unfold atom_reread. split.
  - destruct a as [x|x|x]; cbn [as_str]; intros E.
    + exists x. split; [reflexivity | exact E].
    + exfalso. revert E. unfold discriminate.
      destruct (starts_with (b "#:") x) eqn:Hk.
      * intros E. injection E as E. apply (skipn_not_same 2 x); [lia | | exact E].
        destruct x; cbn in Hk; congruence.
      * destruct (_ || _); discriminate.
    + exfalso. revert E. unfold discriminate.
      destruct (starts_with (b "#:") x); [discriminate|].
      destruct (starts_with [x22] x && ends_with [x22] x) eqn:Hq;
        [| destruct (starts_with [x27] x && ends_with [x27] x) eqn:Hq'];
        cbn [orb]; try discriminate; intros E; injection E as E.
      * apply Bool.andb_true_iff in Hq as [Hq _].
        exact (skipn_not_same 1 x ltac:(lia) (starts_with_one_nonempty _ _ Hq) E).
      * apply Bool.andb_true_iff in Hq' as [Hq' _].
        exact (skipn_not_same 1 x ltac:(lia) (starts_with_one_nonempty _ _ Hq') E).
  - intros [x [-> E]]. exact E.
Qed.

(** ** Round trip of the compact encoding through the [Sexp] decoder *)

Lemma digit_byte (k : Z) : 0 <= k <= 9 ->
  is_digit (byte_of_Z (48 + k)) = true /\ digit_val (byte_of_Z (48 + k)) = k.
Proof.
  intros Hk.
  assert (k = 0 \/ k = 1 \/ k = 2 \/ k = 3 \/ k = 4 \/ k = 5 \/ k = 6 \/ k = 7 \/ k = 8 \/ k = 9)
    as Hc by lia.
  repeat destruct Hc as [-> | Hc]; try (subst k); split; reflexivity.
Qed.

Lemma digits_value_snoc (l : bytes) (c : byte) : forall acc,
  digits_value acc (l ++ [c]) = digits_value acc l * 10 + digit_val c.
Proof. induction l as [|c0 l IH]; intros acc; [reflexivity|]. apply IH. Qed.

Lemma digits_rev_S (f : nat) (z : Z) :
  digits_rev (S f) z = byte_of_Z (48 + z mod 10) :: (if z <? 10 then [] else digits_rev f (z / 10)).
Proof. reflexivity. Qed.

Lemma digits_rev_literal (f : nat) : forall z, 0 <= z < 10 ^ Z.of_nat (S f) ->
  is_integer_literal (rev (digits_rev (S f) z)) = true /\
  digits_value 0 (rev (digits_rev (S f) z)) = z.
Proof.
  induction f as [|f IH]; intros z Hz; rewrite digits_rev_S.
  - rewrite Nat2Z.inj_succ, Z.pow_succ_r, Z.pow_0_r in Hz by lia.
    destruct (Z.ltb_spec z 10); [|lia]. rewrite Z.mod_small by lia.
    destruct (digit_byte z ltac:(lia)) as [Hd Hv]. cbn [rev app].
    unfold is_integer_literal. cbn [forallb digits_value]. rewrite Hd, Hv.
    split; [destruct (negb _); reflexivity | lia].
  - destruct (digit_byte (z mod 10) ltac:(pose proof (Z.mod_pos_bound z 10); lia)) as [Hd Hv].
    destruct (Z.ltb_spec z 10).
    + rewrite Z.mod_small by lia. rewrite Z.mod_small in Hd, Hv by lia. cbn [rev app].
      unfold is_integer_literal. cbn [forallb digits_value]. rewrite Hd, Hv.
      split; [destruct (negb _); reflexivity | lia].
    + assert (Hq : 0 <= z / 10 < 10 ^ Z.of_nat (S f)).
      { rewrite Nat2Z.inj_succ, Z.pow_succ_r in Hz by lia. split; [apply Z.div_pos; lia|].
        apply Z.div_lt_upper_bound; lia. }
      destruct (IH (z / 10) Hq) as [Hl Hlv]. cbv beta iota.
      cbn [rev]. rewrite digits_value_snoc, Hlv, Hv.
      split; [|pose proof (Z.div_mod z 10); lia].
      remember (rev (digits_rev (S f) (z / 10))) as l.
      destruct l as [|c0 l]; [discriminate|].
      unfold is_integer_literal in *. cbn [app] in *.
      apply Bool.andb_true_iff in Hl as [Hall Hz0].
      rewrite app_comm_cons, forallb_app, Hall. cbn [forallb]. rewrite Hd. cbn [andb].
      destruct (Byte.eqb c0 "0"%byte) eqn:E; [|reflexivity].
      destruct l; [|discriminate].
      apply Byte.byte_dec_bl in E. subst c0. change (digits_value 0 ["0"%byte]) with 0 in Hlv.
      assert (1 <= z / 10) by (apply Z.div_le_lower_bound; lia). lia.
Qed.

Lemma itoa_literal (z : Z) : 0 <= z <= u64_MAX ->
  is_integer_literal (itoa z) = true /\ digits_value 0 (itoa z) = z.
Proof.
  intros Hz. unfold itoa. destruct (Z.ltb_spec z 0); [lia|].
  apply (digits_rev_literal 39 z). unfold u64_MAX in Hz.
  replace (10 ^ Z.of_nat 40) with (10 ^ 40) by reflexivity. lia.
Qed.

Lemma itoa_negative (z : Z) : - 2 ^ 63 <= z < 0 ->
  exists ds, itoa z = "-"%byte :: ds /\ is_integer_literal ds = true /\ digits_value 0 ds = - z.
Proof.
  intros Hz. unfold itoa. destruct (Z.ltb_spec z 0); [|lia].
  eexists. split; [reflexivity|]. apply (digits_rev_literal 39 (- z)).
  replace (10 ^ Z.of_nat 40) with (10 ^ 40) by reflexivity. lia.
Qed.

Lemma follows_literal (r : bytes) :
  follows_value r = true -> ends_literal r = true /\ no_digit_head r = true.
Proof.
  destruct r as [|c r]; [split; reflexivity|]. cbn [follows_value]. intros H.
  destruct c; cbv in H; try discriminate H; split; reflexivity.
Qed.

Lemma digit_head (c : byte) : is_digit c = true ->
  is_ws c = false /\ Byte.eqb c "#"%byte = false /\ Byte.eqb c "-"%byte = false /\
  Byte.eqb c ")"%byte = false /\ Byte.eqb c " "%byte = false.
Proof. intros H; destruct c; cbv in H; try discriminate H; repeat split. Qed.

Lemma parse_integer_small (pos : bool) (ds r : bytes) (d : Z) :
  is_integer_literal ds = true -> follows_value r = true ->
  digits_value 0 ds <= (if pos then u64_MAX else 2 ^ 63) ->
  parse_integer pos (mkde (ds ++ r) d)
  = Ok (if pos then U64 (digits_value 0 ds) else I64 (- digits_value 0 ds)) (mkde r d).
Proof.
  intros Hlit Hr Hle. destruct (follows_literal r Hr) as [Hend Hnd].
  assert (Hm0 : 0 <= digits_value 0 ds) by (apply digits_value_ge; [lia|];
    destruct ds; [discriminate|]; simpl in Hlit; apply Bool.andb_true_iff in Hlit; tauto).
  rewrite parse_integer_to_number, parse_number_end
    by first [assumption | destruct pos; unfold u64_MAX in *; lia].
  destruct pos; [reflexivity|]. cbv zeta. rewrite neg_small by lia.
  destruct (Z.ltb_spec 0 (- digits_value 0 ds)); [lia|]. reflexivity.
Qed.

Lemma parse_value_int (z : Z) (f : nat) (r : bytes) (d : Z) :
  - 2 ^ 63 <= z <= u64_MAX -> follows_value r = true ->
  parse_value (S f) SSexp (mkde (itoa z ++ r) d) = Ok (VSexp (tree_sexp (SerInt z))) (mkde r d).
Proof.
  intros Hz Hr. cbn [tree_sexp]. destruct (Z.ltb_spec z 0).
  - destruct (itoa_negative z ltac:(lia)) as [ds [Hds [Hlit Hv]]]. rewrite Hds.
    destruct ds as [|c t] eqn:Eds; [discriminate|].
    assert (Hc : is_digit c = true)
      by (cbn [is_integer_literal forallb] in Hlit; apply Bool.andb_true_iff in Hlit as [Hlit _];
          apply Bool.andb_true_iff in Hlit; tauto).
    cbn [parse_value]. unfold bind at 1, parse_whitespace. cbn [rest app skip_ws].
    replace (is_ws "-"%byte) with false by reflexivity. cbn [hd_error remaining_depth].
    replace (Byte.eqb "-"%byte "#"%byte) with false by reflexivity.
    rewrite (Byte.byte_dec_lb (eq_refl "-"%byte)).
    unfold bind at 1, eat_char. cbn [rest tl remaining_depth].
    rewrite (app_comm_cons t r c). unfold bind.
    rewrite (parse_integer_small false (c :: t)) by first [assumption | lia].
    rewrite Hv. replace (- - z) with z by lia. reflexivity.
  - destruct (itoa_literal z ltac:(lia)) as [Hlit Hv].
    destruct (itoa z) as [|c t] eqn:Eds; [discriminate|].
    assert (Hc : is_digit c = true)
      by (cbn [is_integer_literal forallb] in Hlit; apply Bool.andb_true_iff in Hlit as [Hlit _];
          apply Bool.andb_true_iff in Hlit; tauto).
    destruct (digit_head c Hc) as [Hws [Hh [Hm _]]].
    cbn [parse_value]. unfold bind at 1, parse_whitespace. cbn [rest app skip_ws].
    rewrite Hws. cbn [hd_error remaining_depth]. rewrite Hh, Hm, Hc.
    rewrite (app_comm_cons t r c). unfold bind.
    rewrite (parse_integer_small true (c :: t)) by first [assumption | lia].
    rewrite Hv. reflexivity.
Qed.

Lemma tree_text_head (x : ser_value) : plain_tree x = true ->
  exists c t, tree_text x = c :: t /\ is_ws c = false /\
              Byte.eqb c ")"%byte = false /\ Byte.eqb c " "%byte = false.
Proof.
  destruct x as [bl|z|s| |xs|es|fs]; cbn [plain_tree tree_text]; intros Hx; try discriminate.
  - destruct bl; do 2 eexists; repeat split.
  - apply Bool.andb_true_iff in Hx as [H1 H2]. apply Z.leb_le in H1, H2.
    destruct (Z.ltb_spec z 0).
    + destruct (itoa_negative z ltac:(lia)) as [ds [-> _]]. do 2 eexists; repeat split.
    + destruct (itoa_literal z ltac:(lia)) as [Hlit _].
      destruct (itoa z) as [|c t]; [discriminate|].
      assert (Hc : is_digit c = true)
        by (cbn [is_integer_literal forallb] in Hlit; apply Bool.andb_true_iff in Hlit as [Hlit _];
            apply Bool.andb_true_iff in Hlit; tauto).
      destruct (digit_head c Hc) as [? [_ [_ [? ?]]]]. exists c, t. tauto.
  - do 2 eexists; repeat split.
Qed.

Lemma seq_elements_cons (f : nat) (elt : shape) (first b : bool) (st st' : de) (v : value) :
  next_element f elt first st = Ok (Some v, b) st' ->
  seq_elements (S f) elt first st =
  match seq_elements f elt b st' with
  | Ok vs st'' => Ok (v :: vs) st''
  | Err e st'' => Err e st''
  | Panic => Panic
  | OutOfFuel => OutOfFuel
  end.
Proof. intros H. cbn [seq_elements]. unfold bind at 1. rewrite H. reflexivity. Qed.

Lemma seq_elements_none (f : nat) (elt : shape) (first b : bool) (st st' : de) :
  next_element f elt first st = Ok (None, b) st' -> seq_elements (S f) elt first st = Ok [] st'.
Proof. intros H. cbn [seq_elements]. unfold bind at 1. rewrite H. reflexivity. Qed.

Lemma next_element_close (f : nat) (elt : shape) (first : bool) (r : bytes) (d : Z) :
  next_element (S f) elt first (mkde (")"%byte :: r) d) = Ok (None, first) (mkde (")"%byte :: r) d).
Proof. reflexivity. Qed.

Lemma next_element_space (f : nat) (elt : shape) (first : bool) (c : byte) (y : bytes) (d : Z)
  (v : value) (st' : de) :
  Byte.eqb c ")"%byte = false -> deserialize f elt (mkde (c :: y) d) = Ok v st' ->
  next_element (S f) elt first (mkde (" "%byte :: c :: y) d) = Ok (Some v, first) st'.
Proof.
  intros Hc Hv. cbn [next_element]. unfold bind, peek, eat_char. cbn [rest hd_error tl remaining_depth].
  replace (Byte.eqb " "%byte ")"%byte) with false by reflexivity.
  rewrite (Byte.byte_dec_lb (eq_refl " "%byte)). cbv beta iota.
  cbn [rest hd_error tl remaining_depth]. rewrite Hc. cbv beta iota. rewrite Hv. reflexivity.
Qed.

Lemma next_element_first (f : nat) (elt : shape) (c : byte) (y : bytes) (d : Z)
  (v : value) (st' : de) :
  Byte.eqb c ")"%byte = false -> Byte.eqb c " "%byte = false -> is_ws c = false ->
  deserialize f elt (mkde (c :: y) d) = Ok v st' ->
  next_element (S f) elt true (mkde (c :: y) d) = Ok (Some v, false) st'.
Proof.
  intros Hc Hs Hws Hv. cbn [next_element]. unfold bind, peek, parse_whitespace.
  cbn [rest hd_error skip_ws remaining_depth]. rewrite Hc, Hs. cbv beta iota.
  cbn [rest skip_ws remaining_depth]. rewrite Hws. cbn [hd_error rest remaining_depth].
  rewrite Hc. cbv beta iota. rewrite Hv. reflexivity.
Qed.

Lemma deserialize_sexp (f : nat) : deserialize (S f) SSexp = parse_value f SSexp.
Proof. reflexivity. Qed.

Section SeqDecode.
Let decodes (x : ser_value) : Prop :=
  forall f d r, (tree_fuel x <= f)%nat -> Z.of_nat (nesting x) < d -> d <= 128 ->
  follows_value r = true ->
  parse_value f SSexp (mkde (tree_text x ++ r) d) = Ok (VSexp (tree_sexp x)) (mkde r d).

Lemma seq_elements_rest (xs : list ser_value) :
  Forall decodes xs -> Forall (fun x => plain_tree x = true) xs -> forall f d r,
  (List.length xs + 3 + list_max (map tree_fuel xs) <= f)%nat ->
  Z.of_nat (list_max (map nesting xs)) < d -> d <= 128 ->
  seq_elements f SSexp false
    (mkde (flat_map (fun y => [" "%byte] ++ y) (map tree_text xs) ++ ")"%byte :: r) d)
  = Ok (map (fun x => VSexp (tree_sexp x)) xs) (mkde (")"%byte :: r) d).
Proof.
  induction 1 as [|x xs Hx Hxs IH]; intros Hp f d r Hf Hn Hd.
  - destruct f as [|[|f]]; [lia|lia|]. reflexivity.
  - inversion Hp as [|? ? Hpx Hpxs]; subst.
    destruct f as [|[|[|f]]]; [lia|lia|lia|].
    cbn [map flat_map app List.length] in *.
    assert (Hm : forall a l, list_max (a :: l) = Nat.max a (list_max l)) by reflexivity.
    rewrite !Hm in *.
    destruct (tree_text_head x Hpx) as [c [t [Htx [_ [Hc _]]]]].
    rewrite <- app_assoc, Htx. cbn [app].
    rewrite (seq_elements_cons _ _ _ false _ (mkde (flat_map (fun y => " "%byte :: y) (map tree_text xs)
                                                    ++ ")"%byte :: r) d) (VSexp (tree_sexp x))).
    + rewrite IH by first [assumption | lia]. reflexivity.
    + apply next_element_space; [exact Hc|]. rewrite deserialize_sexp, app_comm_cons, <- Htx.
      apply Hx; first [lia | destruct xs; reflexivity].
Qed.

Lemma parse_value_seq (xs : list ser_value) :
  Forall decodes xs -> Forall (fun x => plain_tree x = true) xs -> decodes (SerSeq xs).
Proof.
  intros Hx Hp f d r Hf Hn Hd Hr. cbn [tree_fuel nesting tree_text tree_sexp] in *.
  rewrite Nat2Z.inj_succ in Hn.
  destruct f as [|f]; [lia|]. cbn [app]. rewrite parse_value_open by lia.
  assert (Hvs : visit_seq f SSexp (mkde (join_with [" "%byte] (map tree_text xs) ++ [")"%byte] ++ r) (d - 1))
                = Ok (VSexp (List (map tree_sexp xs))) (mkde (")"%byte :: r) (d - 1))).
  { destruct f as [|[|[|f]]]; [lia|lia|lia|].
    cbn [visit_seq]. unfold bind at 1. cbn [app].
    destruct Hx as [|x xs Hx1 Hxs].
    - cbn [map join_with app]. rewrite (seq_elements_none _ _ _ true _ (mkde (")"%byte :: r) (d - 1)))
        by apply next_element_close. reflexivity.
    - inversion Hp as [|? ? Hpx Hpxs]; subst.
      cbn [map join_with List.length] in *.
      assert (Hm : forall a l, list_max (a :: l) = Nat.max a (list_max l)) by reflexivity.
      rewrite !Hm in *.
      destruct (tree_text_head x Hpx) as [c [t [Htx [Hws [Hc Hs]]]]].
      rewrite <- !app_assoc, Htx. cbn [app].
      rewrite (seq_elements_cons _ _ _ false _ (mkde (flat_map (fun y => " "%byte :: y) (map tree_text xs)
                                                      ++ ")"%byte :: r) (d - 1)) (VSexp (tree_sexp x))).
      + rewrite seq_elements_rest by first [assumption | lia].
        unfold ret. cbn [map sexp_of_value]. rewrite map_map. reflexivity.
      + destruct f as [|[|f]]; [lia|lia|].
        apply next_element_first; [exact Hc|exact Hs|exact Hws|].
        rewrite deserialize_sexp, app_comm_cons, <- Htx.
        apply Hx1; first [lia | destruct xs; reflexivity]. }
  rewrite <- app_assoc, Hvs. unfold close_seq, u8_inc. cbn [remaining_depth rest].
  destruct (Z.eqb_spec (d - 1) 255); [lia|]. replace (d - 1 + 1) with d by lia. reflexivity.
Qed.
End SeqDecode.

Lemma forallb_Forall {A} (p : A -> bool) (l : list A) :
  forallb p l = true -> Forall (fun x => p x = true) l.
Proof. intros H. apply Forall_forall. intros x Hx. exact (proj1 (forallb_forall p l) H x Hx). Qed.

Lemma parse_value_tree (v : ser_value) : plain_tree v = true ->
  forall f d r, (tree_fuel v <= f)%nat -> Z.of_nat (nesting v) < d -> d <= 128 ->
  follows_value r = true ->
  parse_value f SSexp (mkde (tree_text v ++ r) d) = Ok (VSexp (tree_sexp v)) (mkde r d).
Proof.
  induction v as [x|z|s| |xs IH|es _|fs _] using ser_value_ind'; cbn [plain_tree]; intros Hv;
    try discriminate.
  - intros f d r Hf _ _ _. destruct f as [|f]; [cbn in Hf; lia|]. destruct x; reflexivity.
  - intros f d r Hf _ _ Hr. apply Bool.andb_true_iff in Hv as [H1 H2]. apply Z.leb_le in H1, H2.
    destruct f as [|f]; [cbn in Hf; lia|]. apply parse_value_int; [lia|exact Hr].
  - apply forallb_Forall in Hv. apply parse_value_seq; [|exact Hv].
    apply Forall_forall. intros x Hx. exact (proj1 (Forall_forall _ xs) IH x Hx
                                               (proj1 (Forall_forall _ xs) Hv x Hx)).
Qed.

Lemma join_length (ls : list bytes) : ls <> [] ->
  (List.length (join_with [" "%byte] ls) + 1 = list_sum (map (@List.length byte) ls) + List.length ls)%nat.
Proof.
  destruct ls as [|l ls]; [contradiction|]. intros _. cbn [join_with map list_sum List.length fold_right].
  rewrite length_app. induction ls as [|l' ls IH]; cbn [flat_map map fold_right List.length]; [lia|].
  rewrite length_app in *. cbn [app List.length] in *. cbn [list_sum map fold_right] in IH. lia.
Qed.

Lemma tree_fuel_bound (v : ser_value) : plain_tree v = true ->
  (tree_fuel v <= 3 * List.length (tree_text v))%nat.
Proof.
  induction v as [x|z|s| |xs IH|es _|fs _] using ser_value_ind'; cbn [plain_tree]; intros Hv;
    try discriminate.
  - destruct x; cbn; lia.
  - cbn [tree_fuel tree_text]. unfold itoa. destruct (z <? 0); cbn [List.length]; [lia|].
    rewrite length_rev, digits_rev_S. cbn [List.length]. lia.
  - apply forallb_Forall in Hv. cbn [tree_fuel tree_text List.length]. rewrite length_app.
    cbn [List.length].
    assert (HM : (list_max (map tree_fuel xs)
                  <= 3 * list_sum (map (@List.length byte) (map tree_text xs)))%nat).
    { clear -IH Hv. induction IH as [|x xs Hx _ IHxs]; [cbn; lia|].
      inversion Hv as [|? ? Hpx Hpxs]; subst.
      specialize (Hx Hpx). specialize (IHxs Hpxs).
      assert (Hm : forall a l, list_max (a :: l) = Nat.max a (list_max l)) by reflexivity.
      unfold list_sum in *. cbn [map fold_right]. rewrite Hm. lia. }
    destruct xs as [|x xs]; [cbn; lia|].
    pose proof (join_length (map tree_text (x :: xs)) ltac:(discriminate)) as HJ.
    rewrite length_map in HJ. cbn [List.length] in *. lia.
Qed.

Lemma compact_tree (v : ser_value) : plain_tree v = true -> to_vec v = inr (tree_text v).
Proof.
  induction v as [x|z|s| |xs IH|es _|fs _] using ser_value_ind'; cbn [plain_tree]; intros Hv;
    try discriminate.
  - destruct x; reflexivity.
  - reflexivity.
  - apply forallb_Forall in Hv. cbn [tree_text]. apply compact_seq.
    induction IH as [|x xs Hx _ IHxs]; [constructor|].
    inversion Hv as [|? ? Hpx Hpxs]; subst. constructor; [exact (Hx Hpx)|exact (IHxs Hpxs)].
Qed.

(** [to_vec] followed by [from_trait] into a [Sexp]: a value made of
    booleans, integers of the [i64] or [u64] range and sequences, nested
    less than 128 deep, is written as [#t], [#f], decimal digits and
    parenthesised space-separated lists, and that text decodes back to the
    matching [Sexp] ([Boolean], [SNumber] of the integer, [List]), with the
    whole input consumed and the depth counter back at 128. *)
Theorem to_vec_from_trait_roundtrip (v : ser_value)
  (Hv : plain_tree v = true) (Hn : (nesting v < 128)%nat) :
  to_vec v = inr (tree_text v) /\
  from_trait SSexp (tree_text v) = Ok (VSexp (tree_sexp v)) (mkde [] 128).
Proof.
  split; [exact (compact_tree v Hv)|].
  pose proof (tree_fuel_bound v Hv) as Hb.
  unfold from_trait, Deserialize, bind at 1, fuel_for, Deserializer_new. cbn [rest].
  replace (16 * (List.length (tree_text v) + 4))%nat
    with (S (16 * (List.length (tree_text v) + 4) - 1)) by lia.
  rewrite deserialize_sexp.
  rewrite <- (app_nil_r (tree_text v)) at 2.
  rewrite (parse_value_tree v Hv) by first [lia | reflexivity].
  reflexivity.
Qed.

Lemma to_vec_from_trait_roundtrip_witness :
  plain_tree (SerSeq [SerBool true; SerInt (-5); SerSeq []; SerInt 42]) = true /\
  (nesting (SerSeq [SerBool true; SerInt (-5); SerSeq []; SerInt 42]) < 128)%nat /\
  to_vec (SerSeq [SerBool true; SerInt (-5); SerSeq []; SerInt 42]) = inr (b "(#t -5 () 42)") /\
  from_trait SSexp (b "(#t -5 () 42)") =
  Ok (VSexp (List [Boolean true; SNumber (number_from_i64 (-5)); List [];
                   SNumber (number_from_u64 42)])) (mkde [] 128).
Proof.
  assert (Hv : plain_tree (SerSeq [SerBool true; SerInt (-5); SerSeq []; SerInt 42]) = true)
    by reflexivity.
  assert (Hn : (nesting (SerSeq [SerBool true; SerInt (-5); SerSeq []; SerInt 42]) < 128)%nat)
    by (cbn; lia).
  exact (conj Hv (conj Hn (to_vec_from_trait_roundtrip _ Hv Hn))).
Defined.

(** ** Encoder: newtype structs around non-string values *)

(** [Formatter::write_bare_string] cuts the first and the last byte off the
    compact text of any value: around a boolean it writes nothing, and
    around a one-digit integer the slice [1..0] panics. *)
Theorem serialize_newtype_struct_scalars {F} (x : bool) (z : Z) (s : Serializer F)
  (Hz : 0 <= z <= 9) :
  serialize_newtype_struct (SerBool x) s = Some (SOk tt s) /\
  serialize_newtype_struct (SerInt z) s = None.
Proof.
  unfold serialize_newtype_struct, write_bare_string. split.
  - replace (to_vec (SerBool x)) with (@inr Error bytes (if x then b "#t" else b "#f"))
      by (destruct x; reflexivity).
    destruct x, s; cbn; rewrite app_nil_r; reflexivity.
  - replace (to_vec (SerInt z)) with (@inr Error bytes (itoa z)) by reflexivity.
    unfold itoa. destruct (Z.ltb_spec z 0); [lia|]. rewrite digits_rev_S.
    destruct (Z.ltb_spec z 10); [|lia]. reflexivity.
Qed.

Lemma serialize_newtype_struct_scalars_witness :
  0 <= 7 <= 9 /\
  serialize_newtype_struct (SerBool true) (mkser (b "ab") CompactFormatter_) =
    Some (SOk tt (mkser (b "ab") CompactFormatter_)) /\
  serialize_newtype_struct (SerInt 7) (mkser (b "ab") CompactFormatter_) = None.
Proof.
  assert (Hz : 0 <= 7 <= 9) by lia.
  exact (conj Hz (serialize_newtype_struct_scalars true 7 (mkser (b "ab") CompactFormatter_) Hz)).
Defined.

(** ** Pretty text of sequences and the decoder *)

Lemma sbind_assoc {F A B C} (m : Serializer F -> sresult F A) (k : A -> Serializer F -> sresult F B)
  (k' : B -> Serializer F -> sresult F C) (s : Serializer F) :
  sbind (sbind m k) k' s = sbind m (fun a => sbind (k a) k') s.
Proof. unfold sbind. destruct (m s); reflexivity. Qed.

Lemma sbind_emit_step {F A} `{Formatter F} (m : F -> F * bytes) (k : unit -> @SM F A)
  (w : bytes) (f : F) :
  sbind (emit m) k (mkser w f) = k tt (mkser (w ++ snd (m f)) (fst (m f))).
Proof. unfold sbind, emit. cbn [formatter writer]. destruct (m f). reflexivity. Qed.

Lemma emit_then_shiftable {F A} `{Formatter F} (m : F -> F * bytes) (k : unit -> @SM F A)
  (w : bytes) (f : F) (a : A) (s' : Serializer F) :
  shiftable (k tt) -> sbind (emit m) k (mkser w f) = SOk a s' ->
  exists o, writer s' = w ++ snd (m f) ++ o.
Proof.
  intros Hk. rewrite sbind_emit_step. rewrite Hk.
  destruct (k tt (mkser [] (fst (m f)))) as [a0 [o f0]|e [o f0]]; cbn; intros E; [|discriminate].
  injection E as _ <-. exists o. cbn. rewrite app_assoc. reflexivity.
Qed.

Lemma pretty_rest_newline (xs : list ser_value) (w : bytes) (p : PrettyFormatter) (a : unit)
  (s' : Serializer PrettyFormatter) :
  has_value p = true ->
  sbind
    ((fix elements (first : bool) (xs : list ser_value) : @SM PrettyFormatter unit :=
       match xs with
       | [] => sret tt
       | x :: xs' =>
           sbind (emit (fun f => begin_array_value f first))
             (fun _ => sbind (serialize x)
                (fun _ => sbind (emit end_array_value) (fun _ => elements false xs')))
       end) false xs)
    (fun _ => emit end_array) (mkser w p) = SOk a s' ->
  exists r, writer s' = w ++ x0a :: r.
Proof.
  intros Hp. destruct xs as [|y ys].
  - unfold sbind at 1, sret. unfold emit. cbn [formatter writer end_array Formatter_PrettyFormatter
      pretty_close]. rewrite Hp. intros E. injection E as _ <-. cbn [writer app].
    eexists. reflexivity.
  - cbv beta iota fix. rewrite sbind_assoc. intros E. apply emit_then_shiftable in E.
    + destruct E as [o ->]. cbn [snd begin_array_value Formatter_PrettyFormatter app].
      eexists. reflexivity.
    + apply shiftable_sbind; [|intros; apply shiftable_emit].
      apply shiftable_sbind; [apply shiftable_serialize|intros _].
      apply shiftable_sbind; [apply shiftable_emit|intros _].
      apply elements_shiftable. apply Forall_forall. intros; apply shiftable_serialize.
Qed.

Lemma pretty_seq_prefix (x : ser_value) (xs : list ser_value) (out : bytes) :
  plain_tree x = true -> nesting x = O -> to_vec_pretty (SerSeq (x :: xs)) = inr out ->
  exists r, out = "("%byte :: x0a :: " "%byte :: " "%byte :: tree_text x ++ x0a :: r.
Proof.
  intros Hx Hn. unfold to_vec_pretty, to_vec_with. cbn [serialize].
  rewrite sbind_emit_step. cbv beta. rewrite sbind_assoc, sbind_emit_step. cbv beta.
  rewrite sbind_assoc.
  destruct x as [bl|z|s| |ys|es|fs]; cbn [plain_tree nesting] in Hx, Hn; try discriminate;
    cbn [serialize]; rewrite sbind_emit_step; cbv beta; rewrite sbind_assoc, sbind_emit_step; cbv beta;
    match goal with |- match ?t with _ => _ end = _ -> _ =>
      destruct t as [a s'|e s'] eqn:E; [|discriminate] end;
    intros Ho; injection Ho as <-;
    apply pretty_rest_newline in E; try reflexivity;
    destruct E as [r ->]; exists r; cbn; rewrite <- !app_assoc; reflexivity.
Qed.

Lemma next_element_first_nl (f : nat) (elt : shape) (c : byte) (y y' : bytes) (d : Z)
  (v : value) (st' : de) :
  Byte.eqb c ")"%byte = false -> skip_ws y = c :: y' ->
  deserialize f elt (mkde (c :: y') d) = Ok v st' ->
  next_element (S f) elt true (mkde (x0a :: y) d) = Ok (Some v, false) st'.
Proof.
  intros Hc Hy Hv. cbn [next_element]. unfold bind, peek, parse_whitespace.
  cbn [rest hd_error remaining_depth].
  replace (Byte.eqb x0a ")"%byte) with false by reflexivity.
  replace (Byte.eqb x0a " "%byte) with false by reflexivity. cbv beta iota.
  cbn [rest skip_ws remaining_depth]. replace (is_ws x0a) with true by reflexivity.
  rewrite Hy. cbn [hd_error rest remaining_depth]. rewrite Hc. cbv beta iota. rewrite Hv.
  reflexivity.
Qed.

Lemma next_element_newline_after (f : nat) (elt : shape) (r : bytes) (d : Z) :
  next_element (S f) elt false (mkde (x0a :: r) d) = Err ExpectedListEltOrEnd (mkde (skip_ws r) d).
Proof. reflexivity. Qed.

Lemma close_seq_keeps_error (e : ErrorCode) (y : bytes) (m : Z) :
  m <> 255 -> exists st, close_seq (inl e) (mkde y m) = Err e st.
Proof.
  intros Hm. unfold close_seq, u8_inc. cbn [remaining_depth rest].
  destruct (Z.eqb_spec m 255); [contradiction|].
  unfold end_seq, parse_whitespace, eat_char, peek_error, throw, bind. cbn [rest remaining_depth].
  destruct (skip_ws (skip_ws y)) as [|c t]; cbn [hd_error]; [eexists; reflexivity|].
  destruct (Byte.eqb c ")"%byte); eexists; reflexivity.
Qed.

(** [to_vec_pretty] followed by [from_trait] into a [Sexp]: the pretty
    text of a non-empty sequence whose first element is a boolean or an
    integer of the [i64] or [u64] range is not read back.  The pretty
    formatter puts a newline after that element, and the decoder accepts
    only a space or [)] after an element that is not the first, so it
    stops with [ExpectedListEltOrEnd]. *)
Theorem pretty_seq_rejected (x : ser_value) (xs : list ser_value) (out : bytes)
  (Hx : plain_tree x = true) (Hn : nesting x = O) (Hout : to_vec_pretty (SerSeq (x :: xs)) = inr out) :
  exists st, from_trait SSexp out = Err ExpectedListEltOrEnd st.
Proof.
  destruct (pretty_seq_prefix x xs out Hx Hn Hout) as [r ->].
  destruct (tree_text_head x Hx) as [c [t [Htx [Hws [Hc _]]]]].
  destruct (close_seq_keeps_error ExpectedListEltOrEnd (skip_ws r) 127 ltac:(lia)) as [st Hst].
  exists st.
  unfold from_trait, Deserialize, bind at 1, fuel_for, Deserializer_new. cbn [rest List.length].
  match goal with |- context [deserialize ?n SSexp] =>
    replace n with (S (S (S (S (S (S (n - 6))))))) by lia end.
  rewrite deserialize_sexp, parse_value_open by lia.
  replace (128 - 1) with 127 by reflexivity.
  rewrite (visit_seq_sexp_err _ _ ExpectedListEltOrEnd (mkde (skip_ws r) 127)).
  - rewrite Hst. reflexivity.
  - rewrite (seq_elements_cons _ _ _ false _ (mkde (x0a :: r) 127) (VSexp (tree_sexp x))).
    + rewrite (seq_elements_err _ _ _ _ ExpectedListEltOrEnd (mkde (skip_ws r) 127)); [reflexivity|].
      apply next_element_newline_after.
    + apply (next_element_first_nl _ _ c _ (t ++ x0a :: r)); [exact Hc| |].
      * cbn [skip_ws]. replace (is_ws " "%byte) with true by reflexivity.
        rewrite Htx. cbn [app skip_ws]. rewrite Hws. reflexivity.
      * rewrite deserialize_sexp, app_comm_cons, <- Htx.
        assert (Hf : tree_fuel x = 1%nat) by (destruct x; cbn in Hn |- *; congruence).
        apply parse_value_tree; [exact Hx | lia | rewrite Hn; cbn; lia | lia | reflexivity].
Qed.

Lemma pretty_seq_rejected_witness :
  plain_tree (SerBool true) = true /\ nesting (SerBool true) = O /\
  to_vec_pretty (SerSeq [SerBool true; SerInt 3]) =
    inr ("("%byte :: x0a :: b "  #t" ++ x0a :: b "  3" ++ [x0a; ")"%byte]) /\
  exists st, from_trait SSexp ("("%byte :: x0a :: b "  #t" ++ x0a :: b "  3" ++ [x0a; ")"%byte])
             = Err ExpectedListEltOrEnd st.
Proof.
  assert (Hx : plain_tree (SerBool true) = true) by reflexivity.
  assert (Hn : nesting (SerBool true) = O) by reflexivity.
  assert (Ho : to_vec_pretty (SerSeq [SerBool true; SerInt 3]) =
               inr ("("%byte :: x0a :: b "  #t" ++ x0a :: b "  3" ++ [x0a; ")"%byte]))
    by (vm_compute; reflexivity).
  exact (conj Hx (conj Hn (conj Ho (pretty_seq_rejected _ _ _ Hx Hn Ho)))).
Defined.

(** ** Encoder: integer map keys *)

Lemma digits_rev_plain (n : nat) : forall z,
  forallb (fun c => (32 <=? bval c) && negb (Byte.eqb c x22) && negb (Byte.eqb c x5c))
    (digits_rev n z) = true.
Proof.
  induction n as [|n IH]; intros z; [reflexivity|].
  rewrite digits_rev_S. cbn [forallb].
  assert (Hk : 0 <= z mod 10 <= 9) by (pose proof (Z.mod_pos_bound z 10); lia).
  assert (Hc : z mod 10 = 0 \/ z mod 10 = 1 \/ z mod 10 = 2 \/ z mod 10 = 3 \/ z mod 10 = 4 \/
               z mod 10 = 5 \/ z mod 10 = 6 \/ z mod 10 = 7 \/ z mod 10 = 8 \/ z mod 10 = 9) by lia.
  assert (Hd : (32 <=? bval (byte_of_Z (48 + z mod 10))) &&
               negb (Byte.eqb (byte_of_Z (48 + z mod 10)) x22) &&
               negb (Byte.eqb (byte_of_Z (48 + z mod 10)) x5c) = true)
    by (repeat destruct Hc as [Hc|Hc]; rewrite Hc; reflexivity).
  rewrite Hd. destruct (z <? 10); [reflexivity|]. apply IH.
Qed.

Lemma itoa_plain (z : Z) :
  forallb (fun c => (32 <=? bval c) && negb (Byte.eqb c x22) && negb (Byte.eqb c x5c))
    (itoa z) = true.
Proof.
  assert (Hr : forall n z, forallb (fun c => (32 <=? bval c) && negb (Byte.eqb c x22) &&
      negb (Byte.eqb c x5c)) (rev (digits_rev n z)) = true).
  { intros n y. apply forallb_forall. intros c Hc. apply in_rev in Hc.
    revert c Hc. apply forallb_forall, digits_rev_plain. }
  unfold itoa. destruct (z <? 0); cbn [forallb]; apply Hr.
Qed.

Lemma escape_all_plain (x : bytes) :
  forallb (fun c => (32 <=? bval c) && negb (Byte.eqb c x22) && negb (Byte.eqb c x5c)) x = true ->
  escape_all x = x.
Proof.
  unfold escape_all. induction x as [|c x IH]; [reflexivity|].
  cbn [forallb flat_map]. intros Hx. apply Bool.andb_true_iff in Hx as [Hc Hx].
  rewrite escape_byte_plain by exact Hc. rewrite IH by exact Hx. reflexivity.
Qed.

Section IntKeys.
Context {F : Type} `{Formatter F}.
Hypothesis Hfrag : forall f x, write_string_fragment f x = (f, x).
Hypothesis Hesc : forall f e,
  write_char_escape f e = (f, snd (FormatterDefaults.write_char_escape CompactFormatter_ e)).
Hypothesis Hbegin : forall f, begin_string f = (f, [x22]).
Hypothesis Hend : forall f, end_string f = (f, [x22]).
Hypothesis Hint : forall f v, write_int f v = (f, itoa v).

Lemma serialize_key_int_out (z : Z) (w : bytes) (f : F) :
  serialize_key (KeyInt z) (mkser w f) = SOk tt (mkser (w ++ x22 :: itoa z ++ [x22]) f) /\
  serialize_key (KeyInt z) (mkser w f) = serialize_key (KeyStr (itoa z)) (mkser w f).
Proof.
  assert (Hk : serialize_key (KeyInt z) (mkser w f) = SOk tt (mkser (w ++ x22 :: itoa z ++ [x22]) f)).
  { cbn [serialize_key]. unfold sbind, emit. cbn [formatter writer].
    rewrite Hbegin. cbn [formatter writer]. rewrite Hint. cbn [formatter writer].
    rewrite Hend. rewrite <- !app_assoc. reflexivity. }
  split; [exact Hk|]. rewrite Hk. cbn [serialize_key].
  rewrite (serialize_str_out Hfrag Hesc Hbegin Hend), escape_all_plain by apply itoa_plain.
  reflexivity.
Qed.

End IntKeys.

(** An integer map key ([MapKeySerializer::serialize_i64] and the other
    integer methods) is written between quotes as its decimal text, the same
    bytes as the string key of that text, with both formatters. *)
Theorem serialize_key_int_quoted (z : Z) (w : bytes) :
  (forall c : CompactFormatter,
     serialize_key (KeyInt z) (mkser w c) = SOk tt (mkser (w ++ x22 :: itoa z ++ [x22]) c) /\
     serialize_key (KeyInt z) (mkser w c) = serialize_key (KeyStr (itoa z)) (mkser w c)) /\
  (forall p : PrettyFormatter,
     serialize_key (KeyInt z) (mkser w p) = SOk tt (mkser (w ++ x22 :: itoa z ++ [x22]) p) /\
     serialize_key (KeyInt z) (mkser w p) = serialize_key (KeyStr (itoa z)) (mkser w p)).
Proof.
  split; intros f; apply serialize_key_int_out; reflexivity.
Qed.
